(** * mcp-markdown-rag: the chunker and the local embedder

    A shallow embedding of [internal/rag]: the markdown chunker
    ([EstimateTokenCount], [ExtractHeadings], [GetHeadingContext],
    [FindBestSplitPoint], [ChunkDocument]) and the feature-hashing embedder
    ([tokenize], [hashString], [addTermToVector], [l2Normalize],
    [GetLocalEmbedding], [GetEmbedding]).

    Conventions.
    - A Go [string] is a sequence of bytes: Rocq's [string] (a list of 8-bit
      [ascii]).  [len] is the byte length, [text[i]] a byte.
    - A Go [int] is a 64-bit signed integer: a [Z], with the wrap-around of
      every addition and subtraction written out ([int64], [+i], [-i]).
    - A Go [float64] is a primitive binary64 [float]; a [float32] is the
      [spec_float] obtained by rounding to binary32.
    - A run-time panic and a loop that does not return are results of their
      own ([run]). *)

From Stdlib Require Import ZArith Lia Bool List Sorted.
From Stdlib Require Import Strings.Ascii Strings.String Numbers.DecimalString.
From Stdlib Require Import Floats.
From stdpp Require Import base list gmap strings.

Local Open Scope Z_scope.

(** ** Machine integers *)

Module Int.

Definition min_int : Z := - 2 ^ 63.
Definition max_int : Z := 2 ^ 63 - 1.

(** The value a 64-bit signed register holds after computing [z]. *)
Definition int64 (z : Z) : Z := (z + 2 ^ 63) mod 2 ^ 64 - 2 ^ 63.

Definition is_int (z : Z) : Prop := min_int <= z <= max_int.

Definition add (a b : Z) : Z := int64 (a + b).
Definition sub (a b : Z) : Z := int64 (a - b).

End Int.

Infix "+i" := Int.add (at level 50, left associativity) : Z_scope.
Infix "-i" := Int.sub (at level 50, left associativity) : Z_scope.

(** ** Go strings *)

Definition len (s : string) : Z := Z.of_nat (String.length s).

(** [s[i]]; [None] is the index-out-of-range panic. *)
Definition index (s : string) (i : Z) : option ascii :=
  if i <? 0 then None else String.get (Z.to_nat i) s.

(** [s[i] == c], for a read that the surrounding code keeps in range. *)
Definition byte_is (s : string) (i : Z) (c : ascii) : bool :=
  match index s i with
  | Some b => Ascii.eqb b c
  | None => false
  end.

(** [s[lo:hi]]; [None] is the slice-bounds-out-of-range panic. *)
Definition slice (s : string) (lo hi : Z) : option string :=
  if (0 <=? lo) && (lo <=? hi) && (hi <=? len s)
  then Some (String.substring (Z.to_nat lo) (Z.to_nat (hi - lo)) s)
  else None.

Definition newline : ascii := "010"%char.
Definition space : ascii := " "%char.

(** ** The results of a run *)

Inductive run (A : Type) : Type :=
| Done (a : A)      (* the function returns [a] *)
| Panic             (* a run-time panic *)
| OutOfFuel.        (* the loop was cut by the fuel of the model *)
Arguments Done {A} a.
Arguments Panic {A}.
Arguments OutOfFuel {A}.

(** ** Data model (lister.go) *)

Record HeadingInfo := {
  Level : Z;        (* Heading level (1-6 for #-######) *)
  Text : string;    (* Heading text without the # *)
  Position : Z      (* Character position in document *)
}.

(** [CreatedAt] (the wall clock, [time.Now()]) is left out: no operation
    modelled here reads it. *)
Record DocumentChunk := {
  ID : string;
  FilePath : string;
  FileHash : string;
  ChunkIndex : Z;
  Content : string;
  StartOffset : Z;
  EndOffset : Z;
  TokenCount : Z;
  HeadingPath : list string
}.

(** ** FindBestSplitPoint *)

Section Scan.

(** [for i := maxPos; i > bound && i > 0; i-- { if r, ok := test(i); ok { return r } }]
    The loop variable stays positive and only decreases, so it is the
    structural argument: [scanDown test bound k] is the loop entered with
    [i = k]. [None]: the loop ended without returning. *)
Variable test : Z -> option Z.
Variable bound : Z.

Fixpoint scanDown (k : nat) : option Z :=
  match k with
  | O => None
  | S k' =>
      let i := Z.of_nat k in
      if bound <? i then
        match test i with
        | Some r => Some r
        | None => scanDown k'
        end
      else None
  end.

End Scan.

Definition sentenceEnd (text : string) (i : Z) : option Z :=
  if byte_is text i "." || byte_is text i "!" || byte_is text i "?" then
    if (len text <=? i + 1) || (byte_is text (i + 1) space || byte_is text (i + 1) newline)
    then Some (i + 1) else None
  else None.

Definition paragraphBreak (text : string) (i : Z) : option Z :=
  if (0 <? i) && byte_is text i newline && byte_is text (i - 1) newline
  then Some i else None.

Definition lineBreak (text : string) (i : Z) : option Z :=
  if byte_is text i newline then Some (i + 1) else None.

Definition wordBreak (text : string) (i : Z) : option Z :=
  if byte_is text i space then Some (i + 1) else None.

Definition FindBestSplitPoint (text : string) (maxPos : Z) : Z :=
  if len text <=? maxPos then len text else
  match scanDown (sentenceEnd text) (maxPos -i 200) (Z.to_nat maxPos) with
  | Some r => r
  | None =>
  match scanDown (paragraphBreak text) (maxPos -i 300) (Z.to_nat maxPos) with
  | Some r => r
  | None =>
  match scanDown (lineBreak text) (maxPos -i 100) (Z.to_nat maxPos) with
  | Some r => r
  | None =>
  match scanDown (wordBreak text) (maxPos -i 50) (Z.to_nat maxPos) with
  | Some r => r
  | None => maxPos
  end end end end.

(** ** Floating point (Go's conversions between [int] and [float64]) *)

Module F64.

(** [float64(n)]: the nearest binary64 value, ties to even. *)
Definition of_int (n : Z) : float :=
  SF2Prim (binary_normalize prec emax n 0 false).

(** [int(f)]: truncation toward zero. Where the value does not fit (and on
    NaN) Go leaves the result to the implementation; amd64's conversion
    instruction answers the smallest integer. *)
Definition to_int (f : float) : Z :=
  match Prim2SF f with
  | S754_zero _ => 0
  | S754_finite s m e =>
      let a := if 0 <=? e then Z.pos m * 2 ^ e else Z.pos m / 2 ^ (- e) in
      let v := if s then - a else a in
      if (Int.min_int <=? v) && (v <=? Int.max_int) then v else Int.min_int
  | _ => Int.min_int
  end.

End F64.

(** ** EstimateTokenCount, Min *)

Definition EstimateTokenCount (text : string) (approxTokensPerChar : float) : Z :=
  F64.to_int (F64.of_int (len text) * approxTokensPerChar)%float.

Definition Min (a b : Z) : Z := if a <? b then a else b.

(** ** strings.TrimSpace, strings.Split, and the heading pattern *)

Module Strings.

Definition code (c : ascii) : nat := nat_of_ascii c.

(** The white space of ASCII: tab, newline, vertical tab, form feed,
    carriage return, space. *)
Definition asciiSpace (c : ascii) : bool :=
  ((9 <=? code c) && (code c <=? 13))%nat || (code c =? 32)%nat.

(** The other runes of [unicode.IsSpace], by their UTF-8 encoding:
    U+0085, U+00A0 (two bytes); U+1680, U+2000..U+200A, U+2028, U+2029,
    U+202F, U+205F, U+3000 (three bytes). *)
Definition space2 (c1 c2 : ascii) : bool :=
  (code c1 =? 194)%nat && ((code c2 =? 133) || (code c2 =? 160))%nat.

Definition space3 (c1 c2 c3 : ascii) : bool :=
  ((code c1 =? 225) && (code c2 =? 154) && (code c3 =? 128))%nat
  || ((code c1 =? 226) && (code c2 =? 128)
      && (((128 <=? code c3) && (code c3 <=? 138))
          || (code c3 =? 168) || (code c3 =? 169) || (code c3 =? 175)))%nat
  || ((code c1 =? 226) && (code c2 =? 129) && (code c3 =? 159))%nat
  || ((code c1 =? 227) && (code c2 =? 128) && (code c3 =? 128))%nat.

(** [strings.TrimLeftFunc(s, unicode.IsSpace)]: runes are decoded from the
    left; a byte that starts no white-space rune stops the trimming (an
    invalid byte decodes to U+FFFD, which is no space). *)
Fixpoint TrimLeftSpace (s : string) : string :=
  match s with
  | EmptyString => s
  | String c1 r1 =>
      if asciiSpace c1 then TrimLeftSpace r1 else
      match r1 with
      | EmptyString => s
      | String c2 r2 =>
          if space2 c1 c2 then TrimLeftSpace r2 else
          match r2 with
          | EmptyString => s
          | String c3 r3 => if space3 c1 c2 c3 then TrimLeftSpace r3 else s
          end
      end
  end.

(** The same from the right, on the reversed byte sequence: the last rune
    is a space exactly when the bytes end with one of the encodings. *)
Fixpoint trimLeftSpaceRev (s : list ascii) : list ascii :=
  match s with
  | [] => s
  | c1 :: r1 =>
      if asciiSpace c1 then trimLeftSpaceRev r1 else
      match r1 with
      | [] => s
      | c2 :: r2 =>
          if space2 c2 c1 then trimLeftSpaceRev r2 else
          match r2 with
          | [] => s
          | c3 :: r3 => if space3 c3 c2 c1 then trimLeftSpaceRev r3 else s
          end
      end
  end.

Definition TrimRightSpace (s : string) : string :=
  string_of_list_ascii (rev (trimLeftSpaceRev (rev (list_ascii_of_string s)))).

Definition TrimSpace (s : string) : string := TrimRightSpace (TrimLeftSpace s).

(** [strings.Split(s, "\n")]: always at least one piece. *)
Fixpoint SplitLines (s : string) : list string :=
  match s with
  | EmptyString => [EmptyString]
  | String c s' =>
      if Ascii.eqb c newline then EmptyString :: SplitLines s'
      else match SplitLines s' with
           | l :: ls => String c l :: ls
           | [] => [String c EmptyString]
           end
  end.

(** The heading pattern [^(#{1,6})\s+(.+)$], matched against a trimmed
    line (no newline inside). [\s] is the pattern's ASCII class: tab,
    newline, form feed, carriage return, space. *)
Definition reSpace (c : ascii) : bool :=
  ((code c =? 9) || (code c =? 10) || (code c =? 12) || (code c =? 13)
   || (code c =? 32))%nat.

Fixpoint hashes (s : string) : nat * string :=
  match s with
  | String c s' =>
      if Ascii.eqb c "#" then let '(n, r) := hashes s' in (S n, r) else (O, s)
  | EmptyString => (O, s)
  end.

Fixpoint spaces (s : string) : string * string :=
  match s with
  | String c s' =>
      if reSpace c then let '(w, r) := spaces s' in (String c w, r)
      else (EmptyString, s)
  | EmptyString => (EmptyString, s)
  end.

Fixpoint lastByte (s : string) : string :=
  match s with
  | EmptyString => EmptyString
  | String c EmptyString => s
  | String _ s' => lastByte s'
  end.

(** The two groups of a match: the number of [#] and the text after the
    white space. The greedy [\s+] gives back its last byte only when
    nothing follows it. *)
Definition matchHeading (line : string) : option (nat * string) :=
  let '(n, r) := hashes line in
  if ((1 <=? n) && (n <=? 6))%nat then
    match spaces r with
    | (EmptyString, _) => None
    | (w, EmptyString) =>
        if (2 <=? String.length w)%nat then Some (n, lastByte w) else None
    | (_, rest) => Some (n, rest)
    end
  else None.

End Strings.

(** ** ExtractHeadings *)

Fixpoint extractFrom (lines : list string) (position : Z) : list HeadingInfo :=
  match lines with
  | [] => []
  | line :: rest =>
      let next := position +i len line +i 1 in
      match Strings.matchHeading (Strings.TrimSpace line) with
      | Some (level, text) =>
          {| Level := Z.of_nat level;
             Text := Strings.TrimSpace text;
             Position := position |} :: extractFrom rest next
      | None => extractFrom rest next
      end
  end.

Definition ExtractHeadings (content : string) : list HeadingInfo :=
  extractFrom (Strings.SplitLines content) 0.

(** ** GetHeadingContext *)

(** [for len(stack) > 0 && stack[len(stack)-1].Level >= level
       { stack = stack[:len(stack)-1] }]; the top of the stack is the last
    element. [n] bounds the iterations by the length of the stack. *)
Fixpoint popStack (n : nat) (stack : list HeadingInfo) (level : Z) : list HeadingInfo :=
  match n with
  | O => stack
  | S n' =>
      match last stack with
      | Some top =>
          if level <=? Level top then popStack n' (removelast stack) level
          else stack
      | None => stack
      end
  end.

Fixpoint headingStack (headings : list HeadingInfo) (position : Z)
    (stack : list HeadingInfo) : list HeadingInfo :=
  match headings with
  | [] => stack
  | heading :: rest =>
      if position <=? Position heading then stack (* break *)
      else
        headingStack rest position
          (popStack (length stack) stack (Level heading) ++ [heading])
  end.

Definition GetHeadingContext (headings : list HeadingInfo) (position : Z) : list string :=
  map Text (headingStack headings position []).

(** ** ChunkDocument *)

(** [fmt.Sprintf("%s_%d", fileHash, chunkIndex)] *)
Definition chunkID (fileHash : string) (chunkIndex : Z) : string :=
  (fileHash ++ "_" ++ NilEmpty.string_of_int (Z.to_int chunkIndex))%string.

(** The scan of the headings for a cut: the state is [(bestEnd,
    bestHeadingLevel)], entered with [(idealEnd, 7)]. *)
Definition headingStep (minHeadingSplitPos idealEnd : Z) (st : Z * Z)
    (heading : HeadingInfo) : Z * Z :=
  let '(bestEnd, bestHeadingLevel) := st in
  if (minHeadingSplitPos <? Position heading) && (Position heading <=? idealEnd) then
    if Level heading <? bestHeadingLevel
    then (Position heading, Level heading)
    else (bestEnd, bestHeadingLevel)
  else (bestEnd, bestHeadingLevel).

Definition headingCut (headings : list HeadingInfo) (minHeadingSplitPos idealEnd : Z) : Z :=
  fst (fold_left (headingStep minHeadingSplitPos idealEnd) headings (idealEnd, 7)).

(** [len(strings.TrimSpace(s)) == 0]: [s] is empty or white space only. *)
Definition blank (s : string) : bool := len (Strings.TrimSpace s) =? 0.

(** The ways a turn of the chunking loop ends. *)
Inductive step : Type :=
| Break (chunks : list DocumentChunk)
| Continue (start chunkIndex : Z) (chunks : list DocumentChunk)
| Crash.

Section Chunker.

Variables (filePath content fileHash : string).
Variable approxTokensPerChar : float.
Variable headings : list HeadingInfo.
Variables (maxChunkChars overlapChars : Z).

Let contentLen : Z := len content.

(** The end of the chunk that starts at [start]: the body of the loop up
    to the slice. *)
Definition chunkEnd (start : Z) : Z :=
  let idealEnd := start +i maxChunkChars in
  (* Only consider heading splits if we're at least 50% through the ideal chunk *)
  let minHeadingSplitPos := start +i (maxChunkChars ÷ 2) in
  let bestEnd := headingCut headings minHeadingSplitPos idealEnd in
  let bestEnd :=
    if bestEnd =? idealEnd then FindBestSplitPoint content idealEnd else bestEnd in
  let bestEnd := if contentLen <? bestEnd then contentLen else bestEnd in
  if bestEnd <=? start
  then start +i Min maxChunkChars (contentLen -i start)
  else bestEnd.

Definition mkChunk (chunkIndex start bestEnd : Z) (chunkContent : string) : DocumentChunk :=
  {| ID := chunkID fileHash chunkIndex;
     FilePath := filePath;
     FileHash := fileHash;
     ChunkIndex := chunkIndex;
     Content := chunkContent;
     StartOffset := start;
     EndOffset := bestEnd;
     TokenCount := EstimateTokenCount chunkContent approxTokensPerChar;
     HeadingPath := GetHeadingContext headings start |}.

(** [nextStart], after the forward-progress floor. *)
Definition nextStartAfter (start bestEnd : Z) : Z :=
  let nextStart := bestEnd -i overlapChars in
  (* Ensure we make meaningful progress - at least 10% of max chunk size *)
  let minProgress := maxChunkChars ÷ 10 in
  if nextStart <=? start +i minProgress then start +i minProgress else nextStart.

(** One turn of [for start < contentLen { ... }], from the loop condition
    to the end of the body. *)
Definition chunkStep (start chunkIndex : Z) (chunks : list DocumentChunk) : step :=
  if negb (start <? contentLen) then Break chunks else
  if 1000 <? chunkIndex then Break chunks (* too many chunks *) else
  let bestEnd := chunkEnd start in
  match slice content start bestEnd with
  | None => Crash
  | Some chunkContent =>
      if blank chunkContent
      then Continue bestEnd chunkIndex chunks (* start = bestEnd; continue *)
      else
        let chunks := chunks ++ [mkChunk chunkIndex start bestEnd chunkContent] in
        if contentLen <=? bestEnd then Break chunks else
        let nextStart := nextStartAfter start bestEnd in
        if contentLen <=? nextStart then Break chunks else
        Continue nextStart (chunkIndex +i 1) chunks
  end.

(** The loop, one unit of fuel for each turn. *)
Fixpoint chunkLoop (fuel : nat) (start chunkIndex : Z) (chunks : list DocumentChunk)
    : run (list DocumentChunk) :=
  match fuel with
  | O => OutOfFuel
  | S fuel' =>
      match chunkStep start chunkIndex chunks with
      | Break chunks => Done chunks
      | Crash => Panic
      | Continue start chunkIndex chunks => chunkLoop fuel' start chunkIndex chunks
      end
  end.

End Chunker.

Definition maxChunkCharsOf (maxTokensPerChunk : Z) (approxTokensPerChar : float) : Z :=
  F64.to_int (F64.of_int maxTokensPerChunk / approxTokensPerChar)%float.

Definition overlapCharsOf (maxChunkChars chunkOverlapPercent : Z) : Z :=
  F64.to_int (F64.of_int maxChunkChars * F64.of_int chunkOverlapPercent / 100)%float.

Definition ChunkDocument (fuel : nat) (filePath content fileHash : string)
    (maxTokensPerChunk chunkOverlapPercent : Z) (approxTokensPerChar : float)
    : run (list DocumentChunk) :=
  (* If document is small enough, return as single chunk *)
  if EstimateTokenCount content approxTokensPerChar <=? maxTokensPerChunk then
    Done [ {| ID := chunkID fileHash 0;
              FilePath := filePath;
              FileHash := fileHash;
              ChunkIndex := 0;
              Content := content;
              StartOffset := 0;
              EndOffset := len content;
              TokenCount := EstimateTokenCount content approxTokensPerChar;
              HeadingPath := [] |} ]
  else
    let headings := ExtractHeadings content in
    let maxChunkChars := maxChunkCharsOf maxTokensPerChunk approxTokensPerChar in
    let overlapChars := overlapCharsOf maxChunkChars chunkOverlapPercent in
    chunkLoop filePath content fileHash approxTokensPerChar headings
      maxChunkChars overlapChars fuel 0 0 [].

(** [ChunkDocument] returns [chunks]: some amount of fuel lets the loop run
    to its end. *)
Definition ChunkDocument_returns (filePath content fileHash : string)
    (maxTokensPerChunk chunkOverlapPercent : Z) (approxTokensPerChar : float)
    (chunks : list DocumentChunk) : Prop :=
  exists fuel,
    ChunkDocument fuel filePath content fileHash maxTokensPerChunk
      chunkOverlapPercent approxTokensPerChar = Done chunks.

(** ** The heading-context lookup in the words of the specification

    "Iterate headings in order; stop considering any heading at or after
    position; before pushing a new heading, pop all stack entries whose level
    is >= the new heading's level; the final stack, outermost first, is the
    context."  Here the stack is a list whose head is its top. *)

Fixpoint headingsBefore (headings : list HeadingInfo) (position : Z) : list HeadingInfo :=
  match headings with
  | [] => []
  | h :: rest =>
      if Position h <? position then h :: headingsBefore rest position else []
  end.

Fixpoint popLevel (level : Z) (stack : list HeadingInfo) : list HeadingInfo :=
  match stack with
  | [] => []
  | top :: below => if level <=? Level top then popLevel level below else stack
  end.

Definition pushHeading (stack : list HeadingInfo) (h : HeadingInfo) : list HeadingInfo :=
  h :: popLevel (Level h) stack.

Definition contextAt_spec (headings : list HeadingInfo) (position : Z) : list string :=
  map Text (rev (fold_left pushHeading (headingsBefore headings position) [])).

(** * The local embedder (local_embedding.go) *)

(** LocalEmbeddingDimension is the dimensionality of the local embedding vectors *)
Definition LocalEmbeddingDimension : Z := 384.

(** ** Runes and UTF-8 (unicode/utf8) *)

Definition rune : Type := Z.

Definition RuneError : rune := 65533. (* U+FFFD *)

Definition byteVal (c : ascii) : Z := Z.of_nat (nat_of_ascii c).

Definition byteOf (z : Z) : ascii := ascii_of_nat (Z.to_nat (z mod 256)).

Definition isCont (b : Z) : bool := (128 <=? b) && (b <=? 191).

(** [utf8.DecodeRuneInString]: the rune at the head of [s] and its width in
    bytes; an invalid or short encoding is [RuneError] of width 1. *)
Definition decodeRune (s : string) : rune * nat :=
  match s with
  | EmptyString => (RuneError, 0%nat)
  | String c0 r0 =>
      let b0 := byteVal c0 in
      if b0 <? 128 then (b0, 1%nat) else
      match r0 with
      | EmptyString => (RuneError, 1%nat)
      | String c1 r1 =>
          let b1 := byteVal c1 in
          if (194 <=? b0) && (b0 <=? 223) then
            if isCont b1
            then (Z.lor (Z.shiftl (Z.land b0 31) 6) (Z.land b1 63), 2%nat)
            else (RuneError, 1%nat)
          else
          match r1 with
          | EmptyString => (RuneError, 1%nat)
          | String c2 r2 =>
              let b2 := byteVal c2 in
              if (224 <=? b0) && (b0 <=? 239) then
                let lo := if b0 =? 224 then 160 else 128 in
                let hi := if b0 =? 237 then 159 else 191 in
                if (lo <=? b1) && (b1 <=? hi) && isCont b2
                then (Z.lor (Z.shiftl (Z.land b0 15) 12)
                        (Z.lor (Z.shiftl (Z.land b1 63) 6) (Z.land b2 63)), 3%nat)
                else (RuneError, 1%nat)
              else
              match r2 with
              | EmptyString => (RuneError, 1%nat)
              | String c3 _ =>
                  let b3 := byteVal c3 in
                  if (240 <=? b0) && (b0 <=? 244) then
                    let lo := if b0 =? 240 then 144 else 128 in
                    let hi := if b0 =? 244 then 143 else 191 in
                    if (lo <=? b1) && (b1 <=? hi) && isCont b2 && isCont b3
                    then (Z.lor (Z.shiftl (Z.land b0 7) 18)
                            (Z.lor (Z.shiftl (Z.land b1 63) 12)
                               (Z.lor (Z.shiftl (Z.land b2 63) 6) (Z.land b3 63))),
                          4%nat)
                    else (RuneError, 1%nat)
                  else (RuneError, 1%nat)
              end
          end
      end
  end.

Fixpoint dropBytes (n : nat) (s : string) : string :=
  match n, s with
  | S n', String _ s' => dropBytes n' s'
  | _, _ => s
  end.

(** [for _, r := range s]: the runes of [s] in order. Each rune takes at
    least one byte, so the length of [s] is fuel enough. *)
Fixpoint runesFrom (fuel : nat) (s : string) : list rune :=
  match fuel, s with
  | S fuel', String _ _ =>
      let '(r, width) := decodeRune s in
      r :: runesFrom fuel' (dropBytes width s)
  | _, _ => []
  end.

Definition runesOf (s : string) : list rune := runesFrom (String.length s) s.

(** [utf8.AppendRune]: the encoding of [r]; a surrogate or a value out of
    range is written as U+FFFD. *)
Definition encodeRune (r : rune) : string :=
  let r := if (r <? 0) || (1114111 <? r) || ((55296 <=? r) && (r <=? 57343))
           then RuneError else r in
  if r <=? 127 then String (byteOf r) EmptyString
  else if r <=? 2047 then
    String (byteOf (Z.lor 192 (Z.shiftr r 6)))
      (String (byteOf (Z.lor 128 (Z.land r 63))) EmptyString)
  else if r <=? 65535 then
    String (byteOf (Z.lor 224 (Z.shiftr r 12)))
      (String (byteOf (Z.lor 128 (Z.land (Z.shiftr r 6) 63)))
         (String (byteOf (Z.lor 128 (Z.land r 63))) EmptyString))
  else
    String (byteOf (Z.lor 240 (Z.shiftr r 18)))
      (String (byteOf (Z.lor 128 (Z.land (Z.shiftr r 12) 63)))
         (String (byteOf (Z.lor 128 (Z.land (Z.shiftr r 6) 63)))
            (String (byteOf (Z.lor 128 (Z.land r 63))) EmptyString))).

(** ** The tables of the [unicode] package

    The classification of runes and their lower case are tables of the
    Unicode standard; the model takes them as given. *)
Class UnicodeTables : Type := {
  IsLetter : rune -> bool;     (* unicode.IsLetter *)
  IsDigit : rune -> bool;      (* unicode.IsDigit *)
  ToLowerRune : rune -> rune   (* unicode.ToLower *)
}.

(** The tables on ASCII; a text of ASCII bytes meets no other rune. *)
#[export] Instance asciiTables : UnicodeTables := {|
  IsLetter r := ((65 <=? r) && (r <=? 90)) || ((97 <=? r) && (r <=? 122));
  IsDigit r := (48 <=? r) && (r <=? 57);
  ToLowerRune r := if (65 <=? r) && (r <=? 90) then r + 32 else r
|}.

Fixpoint allBytes (p : ascii -> bool) (s : string) : bool :=
  match s with
  | EmptyString => true
  | String c s' => p c && allBytes p s'
  end.

Fixpoint mapBytes (f : ascii -> ascii) (s : string) : string :=
  match s with
  | EmptyString => EmptyString
  | String c s' => String (f c) (mapBytes f s')
  end.

Fixpoint concatStrings (l : list string) : string :=
  match l with
  | [] => EmptyString
  | s :: l' => (s ++ concatStrings l')%string
  end.

Section Tokenizer.

Context {tables : UnicodeTables}.

(** [strings.ToLower]: ASCII text is lowered byte by byte; any other text
    rune by rune ([strings.Map(unicode.ToLower, s)], which writes an invalid
    byte as U+FFFD and drops a negative result). *)
Definition ToLower (s : string) : string :=
  if allBytes (fun c => byteVal c <? 128) s then
    mapBytes (fun c => if (65 <=? byteVal c) && (byteVal c <=? 90)
                       then byteOf (byteVal c + 32) else c) s
  else
    concatStrings
      (map (fun r => let r' := ToLowerRune r in
                     if r' <? 0 then EmptyString else encodeRune r')
           (runesOf s)).

(** isStopWord returns true if the word is a common English stop word *)
Definition stopWords : gset string :=
  list_to_set
    [ "a"; "an"; "and"; "are"; "as";
      "at"; "be"; "by"; "for"; "from";
      "has"; "he"; "in"; "is"; "it";
      "its"; "of"; "on"; "or"; "that";
      "the"; "to"; "was"; "were"; "will";
      "with"; "this"; "but"; "they"; "have";
      "had"; "not"; "been"; "she"; "her";
      "his"; "their"; "which"; "would"; "there";
      "what"; "about"; "if"; "do"; "does";
      "did"; "can"; "could"; "should"; "may";
      "might"; "shall"; "so"; "than"; "then";
      "these"; "those"; "each"; "all"; "any";
      "both"; "few"; "more"; "most"; "other";
      "some"; "such"; "no"; "nor"; "only";
      "own"; "same"; "too"; "very"; "just";
      "because"; "how"; "when"; "where"; "who";
      "whom"; "why"; "also"; "into"; "through";
      "during"; "before"; "after"; "above"; "below";
      "between"; "out"; "up"; "down"; "over";
      "under"; "again"; "further"; "once"; "here";
      "am"; "you"; "your"; "we"; "our";
      "my"; "me"; "him"; "them"; "us" ]%string.

Definition isStopWord (word : string) : bool := bool_decide (word ∈ stopWords).

(** The token in [current], kept unless it is a stop word or a single byte. *)
Definition keepToken (tokens : list string) (current : string) : list string :=
  if negb (isStopWord current) && (1 <? len current)
  then tokens ++ [current] else tokens.

(** The loop of [tokenize] over the runes of the text; [current] is the
    [strings.Builder]. *)
Fixpoint tokenizeRunes (rs : list rune) (tokens : list string) (current : string)
    : list string :=
  match rs with
  | [] =>
      (* Don't forget the last token *)
      if 0 <? len current then keepToken tokens current else tokens
  | r :: rs' =>
      if IsLetter r || IsDigit r
      then tokenizeRunes rs' tokens (current ++ encodeRune r)%string
      else if 0 <? len current
           then tokenizeRunes rs' (keepToken tokens current) EmptyString
           else tokenizeRunes rs' tokens current
  end.

(** tokenize splits text into lowercase tokens, removing punctuation and stop words *)
Definition tokenize (text : string) : list string :=
  tokenizeRunes (runesOf (ToLower text)) [] EmptyString.

End Tokenizer.

(** ** float32 *)

Module F32.

(** A [float32] value: a [spec_float] of binary32 (24 bits of precision). *)
Definition t : Type := spec_float.

Definition zero : t := S754_zero false.

(** [float32(v)]: the nearest binary32 value, ties to even. *)
Definition of_float64 (v : float) : t :=
  match Prim2SF v with
  | S754_finite s m e => binary_round 24 128 s m e
  | x => x
  end.

End F32.

(** ** hashString: 64-bit FNV-1a over the seed and the bytes of the string *)

Definition fnvOffset64 : Z := 14695981039346656037.
Definition fnvPrime64 : Z := 1099511628211.

(** [h.Write(bytes)]: xor the byte in, multiply by the prime, keep 64 bits. *)
Definition fnvWrite (h : Z) (bytes : list Z) : Z :=
  fold_left (fun h b => (Z.lxor h b * fnvPrime64) mod 2 ^ 64) bytes h.

(** [byte(seed), byte(seed >> 8), ..., byte(seed >> 56)] *)
Definition seedBytes (seed : Z) : list Z :=
  map (fun k => Z.shiftr seed (8 * k) mod 256) [0; 1; 2; 3; 4; 5; 6; 7].

Definition hashString (s : string) (seed : Z) : Z :=
  fnvWrite (fnvWrite fnvOffset64 (seedBytes seed))
           (map byteVal (list_ascii_of_string s)).

(** ** addTermToVector, l2Normalize *)

(** [vector[idx] = f(vector[idx])]; [None] is the index-out-of-range panic. *)
Definition updateAt {A : Type} (vector : list A) (idx : Z) (f : A -> A) : option (list A) :=
  if idx <? 0 then None else
  match vector !! Z.to_nat idx with
  | Some v => Some (<[Z.to_nat idx := f v]> vector)
  | None => None
  end.

(** addTermToVector adds a term's contribution to the vector using multiple
    hash functions.  The slice is updated in place: the new contents are the
    result. [None] is a panic (an empty vector divides by zero). *)
Definition addTermToVector (vector : list float) (term : string) (weight : float)
    : option (list float) :=
  (* Use two hash functions for better distribution *)
  let h1 := hashString term 0 in
  let h2 := hashString term 1 in
  let n := Z.of_nat (length vector) in
  if n =? 0 then None else
  (* Primary bucket *)
  let idx1 := h1 mod n in
  (* Sign hash to reduce collisions *)
  vector ← (if h2 mod 2 =? 0
            then updateAt vector idx1 (fun v => v + weight)%float
            else updateAt vector idx1 (fun v => v - weight)%float);
  (* Secondary bucket for richer representation *)
  let idx2 := h2 mod n in
  let h3 := hashString term 2 in
  if h3 mod 2 =? 0
  then updateAt vector idx2 (fun v => v + weight * 0.5)%float
  else updateAt vector idx2 (fun v => v - weight * 0.5)%float.

(** l2Normalize normalizes a vector to unit length *)
Definition l2Normalize (vector : list float) : list float :=
  let sum := fold_left (fun sum v => sum + v * v)%float vector 0%float in
  let norm := sqrt sum in
  if (norm =? 0)%float then vector
  else map (fun v => v / norm)%float vector.

(** ** GetLocalEmbedding *)

(** A Go [error]: [None] is [nil]. *)
Definition error : Type := option string.

Fixpoint foldOption {A B : Type} (f : A -> B -> option A) (a : A) (l : list B) : option A :=
  match l with
  | [] => Some a
  | b :: l' => a ← f a b; foldOption f a l'
  end.

(** [term[i:i+3]] for [i := 0; i <= len(term)-3; i++] *)
Fixpoint ngrams (term : string) : list string :=
  match term with
  | String a rest =>
      match rest with
      | String b (String c _) =>
          String a (String b (String c EmptyString)) :: ngrams rest
      | _ => []
      end
  | EmptyString => []
  end.

(** [tokens[i] + "_" + tokens[i+1]] for [i := 0; i < len(tokens)-1; i++] *)
Fixpoint bigrams (tokens : list string) : list string :=
  match tokens with
  | a :: rest =>
      match rest with
      | b :: _ => (a ++ "_" ++ b)%string :: bigrams rest
      | [] => []
      end
  | [] => []
  end.

(** [tf[token]++] over the tokens *)
Definition termFrequencies (tokens : list string) : gmap string Z :=
  fold_left (fun tf token => <[token := default 0 (tf !! token) +i 1]> tf) tokens ∅.

(** [result[i] = float32(v)] for [i, v := range vector] *)
Fixpoint toFloat32 (vector : list float) (i : Z) (result : list F32.t)
    : option (list F32.t) :=
  match vector with
  | [] => Some result
  | v :: rest =>
      result ← updateAt result i (fun _ => F32.of_float64 v);
      toFloat32 rest (i + 1) result
  end.

Record Config := {
  OllamaURL : string;
  EmbeddingModel : string;
  DBPath : string;
  EmbeddingMode : string (* "local" or "ollama" *)
}.

Definition EmbeddingModeLocal : string := "local".
Definition EmbeddingModeOllama : string := "ollama".

Section Embedding.

Context {tables : UnicodeTables}.

(** [math.Log], the natural logarithm of the standard library. *)
Variable math_Log : float -> float.

(** The body of [for term, count := range tf]. *)
#[warnings="-inexact-float"]
Definition addTerm (vector : list float) (entry : string * Z) : option (list float) :=
  let '(term, count) := entry in
  (* TF weighting: 1 + log(count) *)
  let weight := (1 + math_Log (F64.of_int count))%float in
  (* Hash the term into multiple buckets for better distribution *)
  vector ← addTermToVector vector term weight;
  (* Also add character n-grams (3-grams) for sub-word features *)
  if 3 <=? len term then
    foldOption
      (fun vector ngram =>
         let ngramWeight := (weight * 0.3)%float in (* Lower weight for n-grams *)
         addTermToVector vector ("#" ++ ngram ++ "#")%string ngramWeight)
      vector (ngrams term)
  else Some vector.

(** [GetLocalEmbedding] once the term frequencies are counted, with the
    entries of the map [tf] visited in the order [entries]. *)
Definition embedInOrder (entries : list (string * Z)) (tokens : list string)
    : run (list F32.t * error) :=
  (* Build the vector using feature hashing with sub-word features *)
  let vector := replicate (Z.to_nat LocalEmbeddingDimension) 0%float in
  let result :=
    vector ← foldOption addTerm vector entries;
    (* Also add bigram features for phrase matching *)
    vector ← foldOption (fun vector bigram => addTermToVector vector bigram 0.5%float)
               vector (bigrams tokens);
    (* L2 normalize the vector *)
    let vector := l2Normalize vector in
    (* Convert to float32 *)
    toFloat32 vector 0 (replicate (Z.to_nat LocalEmbeddingDimension) F32.zero) in
  match result with
  | Some result => Done (result, None)
  | None => Panic
  end.

(** [GetLocalEmbedding(text)] returns [result].  Go leaves the order in which
    [range] visits a map unspecified (the runtime picks a new one for each
    loop): a run visits the entries of [tf] in some order, any permutation of
    its entries. *)
Definition GetLocalEmbedding_returns (text : string)
    (result : run (list F32.t * error)) : Prop :=
  let tokens := tokenize text in
  if (length tokens =? 0)%nat then
    (* Return a zero vector for empty text *)
    result = Done (replicate (Z.to_nat LocalEmbeddingDimension) F32.zero, None)
  else
    exists entries,
      entries ≡ₚ map_to_list (termFrequencies tokens) /\
      result = embedInOrder entries tokens.

(** [getOllamaEmbedding]: the request to the Ollama service, outside the
    program: any relation between the call and its result. *)
Variable getOllamaEmbedding_returns :
  string -> Config -> run (list F32.t * error) -> Prop.

(** GetEmbedding gets embedding using the configured mode (local or Ollama) *)
Definition GetEmbedding_returns (text : string) (config : Config)
    (result : run (list F32.t * error)) : Prop :=
  if String.eqb (EmbeddingMode config) EmbeddingModeLocal
  then GetLocalEmbedding_returns text result
  else getOllamaEmbedding_returns text config result.

End Embedding.

(** ** Predicates and sample inputs used by the statements below *)

(** The byte at [i] is one of the boundaries the scans look for. *)
Definition boundaryByte (text : string) (i : Z) : bool :=
  byte_is text i "." || byte_is text i "!" || byte_is text i "?"
  || byte_is text i newline || byte_is text i space.

(** ["ab\n\ncdef"] *)
Definition paragraphText : string :=
  String "a" (String "b" (String newline (String newline "cdef"))).

(** The headings of [TestGetHeadingContext], with the texts of the
    specification. *)
Definition exampleHeadings : list HeadingInfo :=
  [ {| Level := 1; Text := "Title"; Position := 0 |};
    {| Level := 2; Text := "A"; Position := 20 |};
    {| Level := 3; Text := "A1"; Position := 50 |};
    {| Level := 2; Text := "B"; Position := 100 |} ].

(** The document of [TestChunkDocument_SmallDocument]. *)
Definition smallDocument : string :=
  ("# Hello" ++ String newline (String newline "This is a small document."))%string.

(** [s] has a byte that is not ASCII white space. *)
Definition hasNonSpaceByte (s : string) : Prop :=
  exists i b, index s i = Some b /\ Strings.asciiSpace b = false.

(** The offset [p] lies in the range of one of the chunks. *)
Definition covered (chunks : list DocumentChunk) (p : Z) : Prop :=
  exists c, In c chunks /\ StartOffset c <= p < EndOffset c.

(** The offset [p] lies in a slice of the content that is white space only. *)
Definition inBlankSlice (content : string) (p : Z) : Prop :=
  exists a b s, a <= p < b /\ slice content a b = Some s /\ blank s = true.

(** A chunk is a non-empty slice of the content at its offsets. *)
Definition sliceOf (content : string) (c : DocumentChunk) : Prop :=
  0 <= StartOffset c < EndOffset c /\ EndOffset c <= len content /\
  slice content (StartOffset c) (EndOffset c) = Some (Content c).

(** Twelve letters followed by thirteen spaces. *)
Definition trailingSpaces : string := "abcdefghijkl             ".

(** Up to the offset [n], the chunks leave out only white space: every
    offset below [n] is in a chunk or in a blank slice, and so is every
    offset from the end of the last chunk on. *)
Definition coverageUpTo (content : string) (chunks : list DocumentChunk) (n : Z) : Prop :=
  (forall p, 0 <= p < n -> covered chunks p \/ inBlankSlice content p) /\
  (forall c, last chunks = Some c ->
     forall p, EndOffset c <= p < n -> inBlankSlice content p).

(** Each chunk holds a byte that is no white space. *)
Definition nonblankChunk (c : DocumentChunk) : Prop :=
  blank (Content c) = false /\ hasNonSpaceByte (Content c).

(** [strings.Repeat(s, n)] *)
Fixpoint repeatString (n : nat) (s : string) : string :=
  match n with
  | O => EmptyString
  | S n' => (s ++ repeatString n' s)%string
  end.

(** The document of [TestChunkDocument_LargeDocument]. *)
Definition largeDocument : string :=
  ("# Large Document" ++ String newline (String newline
     (repeatString 200
        "This is a paragraph of text that helps make the document larger for testing chunking behavior. ")))%string.

(** A title, a sentence, and six hundred empty lines: 619 bytes. *)
Definition blankTail : string :=
  ("# Title" ++ String newline (String newline
     ("Some text." ++ repeatString 600 (String newline EmptyString))))%string.

(** A heading line that starts exactly eight bytes into the document:
    ["ab. cde\n# H\nxxxxxxxx"]. *)
Definition headingAtIdealEnd : string :=
  ("ab. cde" ++ String newline ("# H" ++ String newline "xxxxxxxx"))%string.

(** The start offsets of the chunks are strictly increasing. *)
Definition increasingStarts (chunks : list DocumentChunk) : Prop :=
  forall (i j : nat) ci cj,
    chunks !! i = Some ci -> chunks !! j = Some cj -> (i < j)%nat ->
    StartOffset ci < StartOffset cj.

(** The heading [h] may end a chunk that starts at [start]. *)
Definition qualifies (start maxChunkChars : Z) (h : HeadingInfo) : Prop :=
  start + maxChunkChars ÷ 2 < Position h <= start + maxChunkChars.

(** * Definitions for the further properties *)

From Stdlib Require DecimalZ.

(** ** Lines and headings *)

(** The bytes of the lines, with the newline after each. *)
Definition linesLen (lines : list string) : Z :=
  fold_right (fun line n => len line + 1 + n) 0 lines.

(** [strings.Join(lines, "\n")] *)
Fixpoint joinLines (lines : list string) : string :=
  match lines with
  | [] => EmptyString
  | [line] => line
  | line :: rest => (line ++ String newline (joinLines rest))%string
  end.

(** [p] is the offset of the first byte of a line of [content]. *)
Definition lineStart (content : string) (p : Z) : Prop :=
  p = 0 \/ index content (p - 1) = Some newline.

(** ** The records of the chunks *)

(** The chunk at index [i] of the result: its fields agree with each other
    and with the document. *)
Definition chunkRecord (filePath content fileHash : string)
    (approxTokensPerChar : float) (i : nat) (c : DocumentChunk) : Prop :=
  ChunkIndex c = Z.of_nat i /\
  ID c = chunkID fileHash (Z.of_nat i) /\
  FilePath c = filePath /\ FileHash c = fileHash /\
  slice content (StartOffset c) (EndOffset c) = Some (Content c) /\
  TokenCount c = EstimateTokenCount (Content c) approxTokensPerChar /\
  HeadingPath c = GetHeadingContext (ExtractHeadings content) (StartOffset c).

(** Consecutive chunks start at least [d] bytes apart. *)
Definition stepsBy (d : Z) (chunks : list DocumentChunk) : Prop :=
  forall (i : nat) ci cj,
    chunks !! i = Some ci -> chunks !! S i = Some cj ->
    StartOffset ci + d <= StartOffset cj.

(** ** Tokens *)

(** A lower-case letter or a digit of ASCII. *)
Definition lowerAlnum (c : ascii) : bool :=
  ((97 <=? byteVal c) && (byteVal c <=? 122))
  || ((48 <=? byteVal c) && (byteVal c <=? 57)).

(** The tables of the [unicode] package on Latin-1 (U+0000 to U+00FF): the
    letters are those of ASCII, the ordinal indicators U+00AA and U+00BA, the
    micro sign U+00B5 and U+00C0 to U+00FF without the signs U+00D7 and
    U+00F7; the digits are those of ASCII; the capital letters U+00C0 to
    U+00DE (without U+00D7) have their lower case 32 further.  They agree
    with [asciiTables] below 128 and differ from them above. *)
Definition latin1Tables : UnicodeTables := {|
  IsLetter r :=
    ((65 <=? r) && (r <=? 90)) || ((97 <=? r) && (r <=? 122)) ||
    (r =? 170) || (r =? 181) || (r =? 186) ||
    ((192 <=? r) && (r <=? 214)) || ((216 <=? r) && (r <=? 246)) ||
    ((248 <=? r) && (r <=? 255));
  IsDigit r := (48 <=? r) && (r <=? 57);
  ToLowerRune r :=
    if (65 <=? r) && (r <=? 90) then r + 32
    else if ((192 <=? r) && (r <=? 214)) || ((216 <=? r) && (r <=? 222)) then r + 32
    else r
|}.

(** ["Caf\u00c9 OLE"] in UTF-8. *)
Definition latin1Text : string :=
  ("Caf" ++ String (byteOf 195) (String (byteOf 137) " OLE"))%string.

(** [text] holds ASCII bytes only. *)
Definition asciiText (text : string) : bool :=
  allBytes (fun c => byteVal c <? 128) text.

(** ** The buckets of a term *)

(** What [addTermToVector] does to the bucket [i] that holds [v]: an odd
    bucket is added to, an even one subtracted from. *)
Definition signedAdd (i : nat) (v weight : float) : float :=
  if Nat.odd i then (v + weight)%float else (v - weight)%float.

(** ** A text whose embedding depends on the order of the map *)

(** Thirteen tokens, eight terms; five of the terms occur twice. *)
Definition orderText : string :=
  "integrates integrates compute making multi whose multi whose section hard compute unchanged making".

(** The entries of [tf] for [orderText] in the order in which the loop over
    the tokens inserts them: the order of the first occurrences. *)
Definition insertionOrder : list (string * Z) :=
  [ ("integrates", 2); ("compute", 2); ("making", 2); ("multi", 2);
    ("whose", 2); ("section", 1); ("hard", 1); ("unchanged", 1) ]%string.

(** The same entries from the fourth on, wrapping around.  (The runtime keeps
    a map of at most eight entries in one bucket, filled in the order of
    insertion, and [range] visits it from a slot picked at random.) *)
Definition rotatedOrder : list (string * Z) :=
  drop 3 insertionOrder ++ take 3 insertionOrder.

(** [math.Log] at the counts of [orderText]: [Log(1) = 0] and
    [Log(2) = Ln2Hi + Ln2Lo], the double nearest to ln 2. *)
Definition logTable (x : float) : float :=
  if (x =? 2)%float then 0x1.62e42fefa39efp-1%float else 0%float.

(** [result[i]] of a run that returned. *)
Definition component (i : nat) (r : run (list F32.t * error)) : option F32.t :=
  match r with
  | Done (result, _) => result !! i
  | _ => None
  end.

(** * util.go *)

(** [strconv.Itoa(n)], and the verb [%d]: the decimal digits, after a minus
    sign for a negative number. *)
Definition Itoa (n : Z) : string := NilEmpty.string_of_int (Z.to_int n).

(** The loop of [FormatNumber] over the bytes of [str] from index [i] on
    ([str] holds ASCII bytes only, so that [range] visits it byte by byte):
    [for i, digit := range str { if i > 0 && (len(str)-i)%3 == 0 { result =
    append(result, ",") }; result = append(result, string(digit)) }]. *)
Fixpoint formatDigits (strLen i : Z) (rest : string) (result : list string)
    : list string :=
  match rest with
  | EmptyString => result
  | String digit rest' =>
      let result :=
        if (0 <? i) && (Z.rem (strLen - i) 3 =? 0)
        then result ++ [","%string] else result in
      formatDigits strLen (i + 1) rest' (result ++ [String digit EmptyString])
  end.

(** [FormatNumber] from [str] on. *)
Definition groupDigits (str : string) : string :=
  if len str <=? 3 then str
  else concatStrings (formatDigits (len str) 0 str []).

(** FormatNumber adds commas to large numbers *)
Definition FormatNumber (n : Z) : string := groupDigits (Itoa n).

(** [strings.ReplaceAll(s, ",", "")] *)
Fixpoint dropCommas (s : string) : string :=
  match s with
  | EmptyString => EmptyString
  | String c s' => if Ascii.eqb c "," then dropCommas s' else String c (dropCommas s')
  end.

(** [a * b] on [int64]. *)
Definition mulInt (a b : Z) : Z := Int.int64 (a * b).

(** The verb [%.1f] on a [float64]: the exact value rounded to one decimal,
    ties to the even digit. *)
Definition formatFixed1 (f : float) : string :=
  match Prim2SF f with
  | S754_nan => "NaN"
  | S754_infinity false => "+Inf"
  | S754_infinity true => "-Inf"
  | S754_zero s => ((if s then "-" else "") ++ "0.0")%string
  | S754_finite s m e =>
      (* the value is m * 2^e; [tenths] is ten times it, rounded *)
      let num := if 0 <=? e then Z.pos m * 10 * 2 ^ e else Z.pos m * 10 in
      let den := if 0 <=? e then 1 else 2 ^ (- e) in
      let q := num / den in
      let r := num mod den in
      let tenths :=
        if (den <? 2 * r) || ((2 * r =? den) && Z.odd q) then q + 1 else q in
      ((if s then "-" else "") ++ Itoa (tenths / 10) ++ "." ++ Itoa (tenths mod 10))%string
  end.

(** [for n := bytes / unit; n >= unit; n /= unit { div *= unit; exp++ }],
    one unit of fuel for each turn; the result is [(div, exp)]. *)
Fixpoint formatBytesLoop (fuel : nat) (n div exp : Z) : option (Z * Z) :=
  match fuel with
  | O => None
  | S fuel' =>
      if 1024 <=? n
      then formatBytesLoop fuel' (n ÷ 1024) (mulInt div 1024) (exp +i 1)
      else Some (div, exp)
  end.

(** FormatBytes converts bytes to human readable format *)
Definition FormatBytes (fuel : nat) (bytes : Z) : run string :=
  if bytes <? 1024 then Done (Itoa bytes ++ " B")%string else
  match formatBytesLoop fuel (bytes ÷ 1024) 1024 0 with
  | None => OutOfFuel
  | Some (div, exp) =>
      match index "KMGTPE" exp with
      | None => Panic
      | Some unit =>
          Done (formatFixed1 (F64.of_int bytes / F64.of_int div)
                ++ " " ++ String unit "B")%string
      end
  end.

(** * Retrieval (MCPRetrieveFileContent) *)

Section Retrieve.

(** The file system, as the two calls see it: whether [os.Stat(path)] fails
    with an error that [os.IsNotExist] accepts, and what [os.ReadFile(path)]
    returns, the content or the message of its error. *)
Variable os_Stat_IsNotExist : string -> bool.
Variable os_ReadFile : string -> string + string.

(** MCPRetrieveFileContent retrieves content from a file with optional range.
    A nil pointer is [None]. *)
Definition MCPRetrieveFileContent (filePath : string) (startOffset endOffset : option Z)
    : run (string * error) :=
  (* Check if file exists *)
  if os_Stat_IsNotExist filePath
  then Done (EmptyString, Some ("file not found: " ++ filePath)%string) else
  (* Read the file *)
  match os_ReadFile filePath with
  | inr err =>
      Done (EmptyString,
            Some ("failed to read file " ++ filePath ++ ": " ++ err)%string)
  | inl contentStr =>
      let contentLen := len contentStr in
      (* Apply range if specified *)
      let start :=
        match startOffset with
        | Some start =>
            let start := if start <? 0 then 0 else start in
            if contentLen <? start then contentLen else start
        | None => 0
        end in
      let end_ :=
        match endOffset with
        | Some end_ =>
            let end_ := if end_ <? 0 then 0 else end_ in
            if contentLen <? end_ then contentLen else end_
        | None => contentLen
        end in
      (* Ensure start <= end *)
      let start := if end_ <? start then end_ else start in
      match slice contentStr start end_ with
      | Some s => Done (s, None)
      | None => Panic
      end
  end.

End Retrieve.

(** An offset brought into [0, contentLen]. *)
Definition clampOffset (offset contentLen : Z) : Z := Z.max 0 (Z.min offset contentLen).

(** * BatchEmbedChunks *)

Section Batch.

(** [GetEmbedding] as this run meets it: [GetEmbedding_call n text config] is
    what the call number [n] of the run returns (calls are counted from 0;
    two calls on the same text need not agree). *)
Variable GetEmbedding_call : nat -> string -> Config -> run (list F32.t * error).

(** [for retry := 0; retry < maxRetries; retry++ { embedding, err =
    GetEmbedding(chunk.Content, config); if err == nil { break } ... }]:
    [attempts] turns are left, [calls] counts the calls of the run, and
    [embedding, err] are the variables of the loop. *)
Fixpoint retryLoop (attempts calls : nat) (content : string) (config : Config)
    (embedding : list F32.t) (err : error) : run (nat * list F32.t * error) :=
  match attempts with
  | O => Done (calls, embedding, err)
  | S attempts' =>
      match GetEmbedding_call calls content config with
      | Done (embedding, None) => Done (S calls, embedding, None)
      | Done (embedding, Some err) =>
          retryLoop attempts' (S calls) content config embedding (Some err)
      | Panic => Panic
      | OutOfFuel => OutOfFuel
      end
  end.

(** The result of the function while it runs: the calls made, the map (nil
    once the function fails) and the error. *)
Definition batchState : Type := nat * option (gmap string (list F32.t)) * error.

(** [for _, chunk := range batch { ... }] *)
Fixpoint embedBatch (maxRetries : nat) (config : Config) (batch : list DocumentChunk)
    (calls : nat) (embeddings : gmap string (list F32.t)) : run batchState :=
  match batch with
  | [] => Done (calls, Some embeddings, None)
  | chunk :: rest =>
      match retryLoop maxRetries calls (Content chunk) config [] None with
      | Done (calls, embedding, None) =>
          embedBatch maxRetries config rest calls (<[ID chunk := embedding]> embeddings)
      | Done (calls, _, Some err) =>
          Done (calls, None,
                Some ("failed to get embedding for chunk " ++ ID chunk ++ " after "
                      ++ NilEmpty.string_of_int (Z.to_int (Z.of_nat maxRetries))
                      ++ " retries: " ++ err)%string)
      | Panic => Panic
      | OutOfFuel => OutOfFuel
      end
  end.

(** [for i := 0; i < len(chunks); i += batchSize { ... }], one unit of fuel
    for each batch. *)
Fixpoint batchLoop (fuel : nat) (maxRetries : nat) (config : Config)
    (chunks : list DocumentChunk) (i : Z) (calls : nat)
    (embeddings : gmap string (list F32.t)) : run batchState :=
  match fuel with
  | O => OutOfFuel
  | S fuel' =>
      if negb (i <? Z.of_nat (length chunks)) then Done (calls, Some embeddings, None)
      else
        let batchSize := 10 in
        let end_ := i +i batchSize in
        let end_ := if Z.of_nat (length chunks) <? end_
                    then Z.of_nat (length chunks) else end_ in
        (* batch := chunks[i:end] *)
        if (0 <=? i) && (i <=? end_) then
          let batch := take (Z.to_nat (end_ - i)) (drop (Z.to_nat i) chunks) in
          match embedBatch maxRetries config batch calls embeddings with
          | Done (calls, Some embeddings, None) =>
              batchLoop fuel' maxRetries config chunks (i +i batchSize) calls embeddings
          | other => other
          end
        else Panic
  end.

(** BatchEmbedChunks processes chunks in batches with retry logic.  The
    result holds the number of calls of [GetEmbedding] beside the map and
    the error. *)
Definition BatchEmbedChunks (fuel : nat) (chunks : list DocumentChunk) (config : Config)
    : run batchState :=
  let maxRetries := 3%nat in
  (* Local mode doesn't need retries since it's in-process *)
  let maxRetries :=
    if String.eqb (EmbeddingMode config) EmbeddingModeLocal then 1%nat else maxRetries in
  batchLoop fuel maxRetries config chunks 0 0 ∅.

End Batch.

(** A [GetEmbedding] in local mode that visits the map in the order of
    [map_to_list], at every call. *)
Definition localEmbeddingCall (math_Log : float -> float)
    (n : nat) (text : string) (config : Config) : run (list F32.t * error) :=
  let tokens := @tokenize asciiTables text in
  if (length tokens =? 0)%nat
  then Done (replicate (Z.to_nat LocalEmbeddingDimension) F32.zero, None)
  else embedInOrder math_Log (map_to_list (termFrequencies tokens)) tokens.

(** A [GetEmbedding] that fails at every call. *)
Definition failingCall (n : nat) (text : string) (config : Config)
    : run (list F32.t * error) :=
  Done ([], Some "connection refused"%string).

(** Two chunks of a document. *)
Definition sampleChunks : list DocumentChunk :=
  [ {| ID := "h_0"; FilePath := "/doc.md"; FileHash := "h"; ChunkIndex := 0;
       Content := "# Title"; StartOffset := 0; EndOffset := 7; TokenCount := 1;
       HeadingPath := [] |};
    {| ID := "h_1"; FilePath := "/doc.md"; FileHash := "h"; ChunkIndex := 1;
       Content := "Some text."; StartOffset := 7; EndOffset := 17; TokenCount := 2;
       HeadingPath := ["Title"%string] |} ].

Definition localConfig : Config :=
  {| OllamaURL := ""; EmbeddingModel := ""; DBPath := "rag.db";
     EmbeddingMode := EmbeddingModeLocal |}.

Definition ollamaConfig : Config :=
  {| OllamaURL := "http://localhost:11434/api/embeddings";
     EmbeddingModel := "nomic-embed-text"; DBPath := "rag.db";
     EmbeddingMode := EmbeddingModeOllama |}.

(** ** Overlap of consecutive chunks *)

(** Consecutive chunks share at most [d] bytes. *)
Definition overlapAtMost (d : Z) (chunks : list DocumentChunk) : Prop :=
  forall (i : nat) ci cj,
    chunks !! i = Some ci -> chunks !! S i = Some cj ->
    EndOffset ci - d <= StartOffset cj.

(** * Properties *)

(** ** Machine integers *)

Lemma int64_id z : Int.is_int z -> Int.int64 z = z.
Proof.
  unfold Int.is_int, Int.min_int, Int.max_int, Int.int64. intros H.
  rewrite Z.mod_small; lia.
Qed.

Lemma int64_is_int z : Int.is_int (Int.int64 z).
Proof.
  unfold Int.is_int, Int.min_int, Int.max_int, Int.int64.
  pose proof (Z.mod_pos_bound (z + 2 ^ 63) (2 ^ 64)). lia.
Qed.

Lemma add_id a b : Int.is_int (a + b) -> a +i b = a + b.
Proof. apply int64_id. Qed.

Lemma sub_id a b : Int.is_int (a - b) -> a -i b = a - b.
Proof. apply int64_id. Qed.

Lemma to_int_is_int f : Int.is_int (F64.to_int f).
Proof.
  unfold F64.to_int, Int.is_int.
  destruct (Prim2SF f); try (unfold Int.min_int, Int.max_int; lia).
  match goal with |- context [if ?b then _ else _] => destruct b eqn:E end;
    unfold Int.min_int, Int.max_int in *; lia.
Qed.

(** [lia] reads the truncated division of [maxChunkChars / 2] and
    [maxChunkChars / 10] through its Euclidean equations. *)
Ltac Zify.zify_post_hook ::= Z.to_euclidean_division_equations.

(** Side conditions of the form [is_int z] with [z] bounded in context. *)
Ltac int_range := unfold Int.is_int, Int.min_int, Int.max_int in *; lia.

(** ** The backward scans of FindBestSplitPoint *)

Section ScanFacts.

Variable test : Z -> option Z.
Variable bound : Z.

(** A scan that returns does so at the largest index of its window that
    passes the test. *)
Lemma scanDown_Some k r :
  scanDown test bound k = Some r ->
  exists i, 0 < i <= Z.of_nat k /\ bound < i /\ test i = Some r /\
            forall j, i < j <= Z.of_nat k -> test j = None.
Proof.
  induction k as [|k IH]; [discriminate|].
  cbn [scanDown]. destruct (bound <? Z.of_nat (S k)) eqn:E; [|discriminate].
  apply Z.ltb_lt in E.
  destruct (test (Z.of_nat (S k))) eqn:T.
  - intros [= <-]. exists (Z.of_nat (S k)). repeat split; try lia; auto.
  - intros H. destruct (IH H) as (i & Hi & Hb & Ht & Hj).
    exists i. repeat split; try lia; auto.
    intros j Hj'. destruct (Z.eq_dec j (Z.of_nat (S k))) as [->|]; auto.
    apply Hj. lia.
Qed.

Lemma scanDown_None k :
  scanDown test bound k = None ->
  forall j, 0 < j <= Z.of_nat k -> bound < j -> test j = None.
Proof.
  induction k as [|k IH]; [intros _ j; lia|].
  cbn [scanDown]. destruct (bound <? Z.of_nat (S k)) eqn:E.
  - destruct (test (Z.of_nat (S k))) eqn:T; [discriminate|].
    intros H j Hj Hb. destruct (Z.eq_dec j (Z.of_nat (S k))) as [->|]; auto.
    apply IH; auto. lia.
  - apply Z.ltb_ge in E. intros _ j Hj Hb. lia.
Qed.

Lemma scanDown_first k i r :
  0 < i <= Z.of_nat k -> bound < i -> test i = Some r ->
  (forall j, i < j <= Z.of_nat k -> test j = None) ->
  scanDown test bound k = Some r.
Proof.
  induction k as [|k IH]; [lia|].
  intros Hi Hb Ht Hj. cbn [scanDown].
  destruct (Z.eq_dec i (Z.of_nat (S k))) as [->|Hne].
  - apply Z.ltb_lt in Hb. now rewrite Hb, Ht.
  - assert (E : (bound <? Z.of_nat (S k)) = true) by (apply Z.ltb_lt; lia).
    rewrite E, (Hj (Z.of_nat (S k))) by lia.
    apply IH; auto; [lia|]. intros j Hj'. apply Hj. lia.
Qed.

Lemma scanDown_all_None k :
  (forall j, 0 < j <= Z.of_nat k -> bound < j -> test j = None) ->
  scanDown test bound k = None.
Proof.
  intros H. destruct (scanDown test bound k) eqn:E; auto.
  apply scanDown_Some in E as (i & Hi & Hb & Ht & _).
  rewrite H in Ht by lia. discriminate.
Qed.

End ScanFacts.


Lemma sentenceEnd_Some text i r :
  sentenceEnd text i = Some r -> r = i + 1 /\ boundaryByte text i = true.
Proof.
  unfold sentenceEnd. intros H.
  destruct (byte_is text i "." || byte_is text i "!" || byte_is text i "?") eqn:E;
    [|discriminate].
  destruct ((len text <=? i + 1) || _) eqn:E2; [|discriminate].
  injection H as <-. split; auto. unfold boundaryByte. now rewrite E.
Qed.

Lemma paragraphBreak_Some text i r :
  paragraphBreak text i = Some r ->
  r = i /\ byte_is text i newline = true /\ byte_is text (i - 1) newline = true.
Proof.
  unfold paragraphBreak.
  destruct (0 <? i); cbn [andb]; [|discriminate].
  destruct (byte_is text i newline); cbn [andb]; [|discriminate].
  destruct (byte_is text (i - 1) newline); [|discriminate].
  intros [= <-]. auto.
Qed.

Lemma lineBreak_Some text i r :
  lineBreak text i = Some r -> r = i + 1 /\ boundaryByte text i = true.
Proof.
  unfold lineBreak, boundaryByte. destruct (byte_is text i newline); [|discriminate].
  intros [= <-]. split; auto. now rewrite orb_true_r.
Qed.

Lemma wordBreak_Some text i r :
  wordBreak text i = Some r -> r = i + 1 /\ boundaryByte text i = true.
Proof.
  unfold wordBreak, boundaryByte. destruct (byte_is text i space); [|discriminate].
  intros [= <-]. split; auto. now rewrite orb_true_r.
Qed.

(** The scans read inside the text: they are entered below [len text] with
    [0 < i <= maxPos], read [text[i-1]] and [text[i]], and read [text[i+1]]
    only behind the test [i+1 >= len(text)]. *)
Lemma index_in_range s i :
  0 <= i < len s -> exists c, index s i = Some c.
Proof.
  unfold index, len. intros H.
  assert (E : (i <? 0) = false) by lia. rewrite E.
  assert (Hn : (Z.to_nat i < String.length s)%nat) by lia.
  revert Hn. generalize (Z.to_nat i). clear.
  induction s as [|c s IH]; intros n Hn; cbn in *; [lia|].
  destruct n as [|n]; [eauto|]. apply IH. lia.
Qed.

(** What [FindBestSplitPoint] returns inside the text: the index [i] of a
    match or [i + 1], or [maxPos] itself. *)
Lemma FindBestSplitPoint_inside text maxPos :
  0 < maxPos < len text ->
  let r := FindBestSplitPoint text maxPos in
  r = maxPos \/
  exists i, 0 < i <= maxPos /\
    ((r = i + 1 /\ boundaryByte text i = true /\
      (maxPos -i 200 < i \/ maxPos -i 100 < i \/ maxPos -i 50 < i))
     \/ (r = i /\ maxPos -i 300 < i)).
Proof.
  intros H r. subst r. unfold FindBestSplitPoint.
  assert (E : (len text <=? maxPos) = false) by (apply Z.leb_gt; lia). rewrite E.
  destruct (scanDown (sentenceEnd text) _ _) eqn:S1.
  { apply scanDown_Some in S1 as (i & Hi & Hb & Ht & _).
    apply sentenceEnd_Some in Ht as [-> Hbyte].
    right. exists i. split; [lia|]. left. auto. }
  destruct (scanDown (paragraphBreak text) _ _) eqn:S2.
  { apply scanDown_Some in S2 as (i & Hi & Hb & Ht & _).
    apply paragraphBreak_Some in Ht as [-> _].
    right. exists i. split; [lia|]. right. auto. }
  destruct (scanDown (lineBreak text) _ _) eqn:S3.
  { apply scanDown_Some in S3 as (i & Hi & Hb & Ht & _).
    apply lineBreak_Some in Ht as [-> Hbyte].
    right. exists i. split; [lia|]. left. auto. }
  destruct (scanDown (wordBreak text) _ _) eqn:S4.
  { apply scanDown_Some in S4 as (i & Hi & Hb & Ht & _).
    apply wordBreak_Some in Ht as [-> Hbyte].
    right. exists i. split; [lia|]. left. auto. }
  now left.
Qed.

(** No cut falls more than 299 bytes before the target. *)
Lemma FindBestSplitPoint_lower text maxPos :
  0 < maxPos < len text -> maxPos <= Int.max_int ->
  maxPos - 299 <= FindBestSplitPoint text maxPos.
Proof.
  intros H Hmax. pose proof (FindBestSplitPoint_inside text maxPos H) as C.
  cbv zeta in C. unfold Int.sub in C. rewrite !int64_id in C by int_range.
  destruct C as [->|(i & Hi & [(-> & _ & Hb)|(-> & Hb)])]; lia.
Qed.

Lemma FindBestSplitPoint_past_end text maxPos :
  len text <= maxPos -> FindBestSplitPoint text maxPos = len text.
Proof.
  intros H. unfold FindBestSplitPoint. apply Z.leb_le in H. now rewrite H.
Qed.

Lemma FindBestSplitPoint_upper text maxPos :
  0 < maxPos < len text -> 0 < FindBestSplitPoint text maxPos <= maxPos + 1.
Proof.
  intros H. pose proof (FindBestSplitPoint_inside text maxPos H) as C.
  cbv zeta in C.
  destruct C as [->|(i & Hi & [(-> & _ & _)|(-> & _)])]; lia.
Qed.

(** X24.  What [FindBestSplitPoint text pos] returns, as the code has it: it
    is [len text] when [pos >= len text]; for [0 < pos < len text] it is
    strictly positive and at most [pos + 1], and it is [pos + 1] only when the
    byte at [pos] itself is the boundary that matched (sentence punctuation,
    newline or space); for [pos <= 0] inside a non-empty text it is [pos]
    itself. *)
Theorem FindBestSplitPoint_bounds (text : string) (pos : Z) :
  (len text <= pos -> FindBestSplitPoint text pos = len text) /\
  (0 < pos < len text ->
     0 < FindBestSplitPoint text pos <= pos + 1 /\
     FindBestSplitPoint text pos <= len text /\
     (FindBestSplitPoint text pos = pos + 1 -> boundaryByte text pos = true)) /\
  (pos <= 0 -> pos < len text -> FindBestSplitPoint text pos = pos).
Proof.
  split; [|split].
  - apply FindBestSplitPoint_past_end.
  - intros H. pose proof (FindBestSplitPoint_upper text pos H) as Hu.
    split; [exact Hu|]. split; [lia|].
    pose proof (FindBestSplitPoint_inside text pos H) as C. cbv zeta in C.
    destruct C as [->|(i & Hi & [(-> & Hb & _)|(-> & _)])]; try lia.
    intros E. assert (i = pos) as -> by lia. exact Hb.
  - intros H0 H. unfold FindBestSplitPoint.
    assert (E : (len text <=? pos) = false) by (apply Z.leb_gt; lia). rewrite E.
    replace (Z.to_nat pos) with O by lia. reflexivity.
Qed.

(** C2.  The code at ["ab. cd"] and [pos = 2]: the cut is 3, past [maxPos].
    The scans start at the byte at [maxPos] itself, and a boundary found there
    gives [i + 1 = maxPos + 1], one more than the bound that the parameter's
    name and the test of the function ([split > 30] fails it, for the target
    30) set. *)
Lemma FindBestSplitPoint_exceeds_pos :
  2 < len "ab. cd" /\ ~ (0 < FindBestSplitPoint "ab. cd" 2 <= 2).
Proof.
  split; [reflexivity|].
  assert (E : FindBestSplitPoint "ab. cd" 2 = 3) by reflexivity.
  rewrite E. lia.
Qed.

Lemma FindBestSplitPoint_bounds_witness :
  0 < FindBestSplitPoint "Hello world. This is a test. More text here." 30 <= 30 + 1.
Proof.
  apply (FindBestSplitPoint_bounds
           "Hello world. This is a test. More text here." 30).
  split; reflexivity.
Defined.

(** C8, as amended.  When no sentence end qualifies in the 200-byte window
    and [i] is the last index of the 300-byte window whose byte and the byte
    before it are both newlines, [FindBestSplitPoint] returns [i]: the
    position of the second newline of the pair, immediately after the
    first. *)
Theorem FindBestSplitPoint_paragraph (text : string) (maxPos i : Z) :
  maxPos < len text -> maxPos <= Int.max_int ->
  (forall j, maxPos - 200 < j <= maxPos -> 0 < j -> sentenceEnd text j = None) ->
  maxPos - 300 < i <= maxPos -> 0 < i ->
  byte_is text (i - 1) newline = true ->
  byte_is text i newline = true ->
  (forall j, i < j <= maxPos ->
     byte_is text (j - 1) newline && byte_is text j newline = false) ->
  FindBestSplitPoint text maxPos = i.
Proof.
  intros Hlen Hmax Hsent Hwin Hpos Hfst Hsnd Hlast.
  unfold FindBestSplitPoint.
  assert (E : (len text <=? maxPos) = false) by (apply Z.leb_gt; lia). rewrite E.
  unfold Int.sub. rewrite !int64_id by int_range.
  rewrite scanDown_all_None by (intros j Hj Hb; apply Hsent; lia).
  rewrite (scanDown_first _ _ _ i i); try lia; auto.
  - unfold paragraphBreak. apply Z.ltb_lt in Hpos. now rewrite Hpos, Hsnd, Hfst.
  - intros j Hj. unfold paragraphBreak.
    specialize (Hlast j ltac:(lia)).
    destruct (0 <? j); cbn [andb]; auto.
    rewrite andb_comm in Hlast. now rewrite Hlast.
Qed.


Lemma FindBestSplitPoint_paragraph_witness :
  FindBestSplitPoint paragraphText 5 = 3.
Proof.
  apply (FindBestSplitPoint_paragraph paragraphText 5 3);
    try reflexivity; try (unfold Int.max_int; lia).
  - intros j Hj Hj0.
    assert (C : j = 1 \/ j = 2 \/ j = 3 \/ j = 4 \/ j = 5) by lia.
    destruct C as [->|[->|[->|[->| ->]]]]; reflexivity.
  - intros j Hj. assert (C : j = 4 \/ j = 5) by lia.
    destruct C as [->| ->]; reflexivity.
Defined.

(** C8 as stated fails: the first newline of the pair is at offset 2, the
    offset returned is 3. *)
Lemma FindBestSplitPoint_paragraph_not_first :
  byte_is paragraphText 2 newline = true /\
  byte_is paragraphText 3 newline = true /\
  scanDown (sentenceEnd paragraphText) (5 - 200) 5 = None /\
  FindBestSplitPoint paragraphText 5 <> 2.
Proof.
  repeat split; try reflexivity.
  assert (E : FindBestSplitPoint paragraphText 5 = 3) by reflexivity.
  rewrite E. lia.
Qed.

(** ** GetHeadingContext *)

Lemma popStack_spec n stack level :
  (length stack <= n)%nat ->
  popStack n stack level = rev (popLevel level (rev stack)).
Proof.
  revert n. induction stack as [|top below IH] using rev_ind; intros n Hn.
  - destruct n; reflexivity.
  - rewrite length_app in Hn. cbn in Hn.
    destruct n as [|n]; [lia|]. cbn [popStack].
    rewrite last_snoc, rev_unit. cbn [popLevel].
    destruct (level <=? Level top).
    + rewrite removelast_last. apply IH. lia.
    + cbn [rev]. now rewrite rev_involutive.
Qed.

Lemma headingStack_spec headings position stack :
  headingStack headings position stack
  = rev (fold_left pushHeading (headingsBefore headings position) (rev stack)).
Proof.
  revert stack. induction headings as [|h rest IH]; intros stack; cbn.
  - now rewrite rev_involutive.
  - destruct (position <=? Position h) eqn:E.
    + apply Z.leb_le in E.
      assert (E' : (Position h <? position) = false) by (apply Z.ltb_ge; lia).
      rewrite E'. cbn. now rewrite rev_involutive.
    + apply Z.leb_gt in E.
      assert (E' : (Position h <? position) = true) by (apply Z.ltb_lt; lia).
      rewrite E'. cbn [fold_left]. rewrite IH. f_equal. f_equal.
      rewrite rev_unit, popStack_spec by lia.
      now rewrite rev_involutive.
Qed.

Lemma popLevel_incl level stack h : In h (popLevel level stack) -> In h stack.
Proof.
  induction stack as [|top below IH]; cbn; auto.
  destruct (level <=? Level top); cbn; auto.
Qed.

Lemma fold_pushHeading_incl l stack h :
  In h (fold_left pushHeading l stack) -> In h l \/ In h stack.
Proof.
  revert stack. induction l as [|x l IH]; intros stack; cbn; auto.
  intros H. apply IH in H as [H|H]; auto.
  destruct H as [->|H]; auto. apply popLevel_incl in H. auto.
Qed.

Lemma headingsBefore_In headings position h :
  In h (headingsBefore headings position) -> Position h < position /\ In h headings.
Proof.
  induction headings as [|x rest IH]; cbn; [tauto|].
  destruct (Position x <? position) eqn:E; cbn; [|tauto].
  apply Z.ltb_lt in E. intros [->|H]; auto. apply IH in H. tauto.
Qed.

(** On headings in document order (positions not decreasing, as
    [ExtractHeadings] gives them) stopping at the first heading at or after
    [position] leaves out exactly the headings at or after [position]. *)
Lemma headingsBefore_sorted headings position :
  StronglySorted (fun a b => Position a <= Position b) headings ->
  headingsBefore headings position
  = List.filter (fun h => Position h <? position) headings.
Proof.
  induction 1 as [|h rest Hs IH Hall]; cbn; auto.
  destruct (Position h <? position) eqn:E; [now rewrite IH|].
  clear IH Hs. induction rest as [|x rest IH]; cbn; auto.
  inversion Hall as [|? ? Hx Hrest]; subst.
  assert (E' : (Position x <? position) = false) by lia.
  rewrite E'. auto.
Qed.

(** C7.  [GetHeadingContext] is the stack discipline of the specification:
    the headings before the first one at or after [position] are pushed in
    order, each after popping the entries of its level or deeper, and the
    stack is read outermost first; no heading at or after [position] is in
    the context, and on headings in document order every heading before
    [position] is considered; on the headings of the specification the
    contexts at 30, 60 and 110 are [Title;A], [Title;A;A1] and [Title;B]. *)
Theorem GetHeadingContext_spec :
  (forall headings position,
     GetHeadingContext headings position = contextAt_spec headings position) /\
  (forall headings position,
     StronglySorted (fun a b => Position a <= Position b) headings ->
     headingsBefore headings position
     = List.filter (fun h => Position h <? position) headings) /\
  (forall headings position,
     Forall (fun h => Position h < position /\ In h headings)
            (headingStack headings position [])) /\
  GetHeadingContext exampleHeadings 30 = ["Title"; "A"]%string /\
  GetHeadingContext exampleHeadings 60 = ["Title"; "A"; "A1"]%string /\
  GetHeadingContext exampleHeadings 110 = ["Title"; "B"]%string.
Proof.
  split; [|split; [exact headingsBefore_sorted|split; [|repeat split]]].
  - intros headings position. unfold GetHeadingContext, contextAt_spec.
    now rewrite headingStack_spec.
  - intros headings position. apply Forall_forall. intros h H.
    apply list_elem_of_In in H.
    rewrite headingStack_spec in H. cbn [rev] in H.
    apply in_rev in H. apply fold_pushHeading_incl in H as [H|[]].
    now apply headingsBefore_In.
Qed.

(** ** ChunkDocument: the small document *)

(** C4.  A document whose token estimate is at most [maxTokensPerChunk]
    comes back as exactly one chunk: the whole content, index 0, offsets 0
    and [len content]. *)
Theorem ChunkDocument_small (fuel : nat) (filePath content fileHash : string)
    (maxTokensPerChunk chunkOverlapPercent : Z) (approxTokensPerChar : float) :
  EstimateTokenCount content approxTokensPerChar <= maxTokensPerChunk ->
  exists c,
    ChunkDocument fuel filePath content fileHash maxTokensPerChunk
      chunkOverlapPercent approxTokensPerChar = Done [c] /\
    Content c = content /\ ChunkIndex c = 0 /\
    StartOffset c = 0 /\ EndOffset c = len content.
Proof.
  intros H. unfold ChunkDocument. apply Z.leb_le in H. rewrite H.
  eexists. split; [reflexivity|]. cbn. auto.
Qed.

Lemma ChunkDocument_small_witness :
  exists c,
    ChunkDocument 0 "/test/file.md" smallDocument "abc123" 4000 15 0.25
      = Done [c] /\
    Content c = smallDocument /\ ChunkIndex c = 0 /\
    StartOffset c = 0 /\ EndOffset c = len smallDocument.
Proof.
  apply (ChunkDocument_small 0 "/test/file.md" smallDocument "abc123" 4000 15 0.25).
  vm_compute. discriminate.
Defined.

(** ** Slices and blank strings *)

Lemma slice_Some s lo hi k :
  slice s lo hi = Some k -> 0 <= lo <= hi /\ hi <= len s.
Proof.
  unfold slice. destruct (0 <=? lo) eqn:E1; cbn [andb]; [|discriminate].
  destruct (lo <=? hi) eqn:E2; cbn [andb]; [|discriminate].
  destruct (hi <=? len s) eqn:E3; [|discriminate]. lia.
Qed.

Lemma slice_defined s lo hi :
  0 <= lo <= hi -> hi <= len s -> exists k, slice s lo hi = Some k.
Proof.
  intros H1 H2. unfold slice.
  assert (E : ((0 <=? lo) && (lo <=? hi) && (hi <=? len s)) = true) by lia.
  rewrite E. eauto.
Qed.

Lemma index_cons c s i :
  0 <= i -> index (String c s) (i + 1) = index s i.
Proof.
  intros H. unfold index.
  assert (E1 : (i + 1 <? 0) = false) by lia.
  assert (E2 : (i <? 0) = false) by lia.
  rewrite E1, E2. replace (Z.to_nat (i + 1)) with (S (Z.to_nat i)) by lia.
  reflexivity.
Qed.

(** A string that is not blank has a byte outside ASCII white space. *)
Lemma blank_false_byte s : blank s = false -> hasNonSpaceByte s.
Proof.
  unfold blank, Strings.TrimSpace.
  induction s as [|c s IH]; [discriminate|].
  destruct (Strings.asciiSpace c) eqn:E.
  - cbn [Strings.TrimLeftSpace]. rewrite E. intros H.
    destruct (IH H) as (i & b & Hi & Hb).
    exists (i + 1), b. split; auto.
    rewrite index_cons; auto.
    unfold index in Hi. destruct (i <? 0) eqn:E0; [discriminate|lia].
  - intros _. exists 0, c. split; auto.
Qed.

(** ** The chunking loop *)

Lemma headingCut_cases headings lo hi :
  headingCut headings lo hi = hi \/ lo < headingCut headings lo hi <= hi.
Proof.
  unfold headingCut.
  assert (G : forall st, (fst st = hi \/ lo < fst st <= hi) ->
     fst (fold_left (headingStep lo hi) headings st) = hi \/
     lo < fst (fold_left (headingStep lo hi) headings st) <= hi).
  { induction headings as [|h rest IH]; intros st Hst; cbn [fold_left]; auto.
    apply IH. unfold headingStep. destruct st as [b l].
    destruct ((lo <? Position h) && (Position h <=? hi)) eqn:E; auto.
    destruct (Level h <? l); auto. cbn [fst]. right. lia. }
  apply G. now left.
Qed.

Section ChunkerFacts.

Variables (filePath content fileHash : string).
Variable approxTokensPerChar : float.
Variable headings : list HeadingInfo.
Variables (maxChunkChars overlapChars : Z).

Local Abbreviation cEnd := (chunkEnd content headings maxChunkChars).
Local Abbreviation cNext := (nextStartAfter maxChunkChars overlapChars).
Local Abbreviation cMk := (mkChunk filePath fileHash approxTokensPerChar headings).
Local Abbreviation cStep :=
  (chunkStep filePath content fileHash approxTokensPerChar headings
     maxChunkChars overlapChars).
Local Abbreviation cLoop :=
  (chunkLoop filePath content fileHash approxTokensPerChar headings
     maxChunkChars overlapChars).

(** *** The shape of a turn *)

Lemma chunkStep_Break start chunkIndex chunks chunks' :
  cStep start chunkIndex chunks = Break chunks' ->
  (chunks' = chunks /\ (len content <= start \/ 1000 < chunkIndex)) \/
  (start < len content /\ chunkIndex <= 1000 /\
   exists k, slice content start (cEnd start) = Some k /\ blank k = false /\
     chunks' = chunks ++ [cMk chunkIndex start (cEnd start) k] /\
     (len content <= cEnd start \/ len content <= cNext start (cEnd start))).
Proof.
  unfold chunkStep.
  destruct (start <? len content) eqn:E1; cbn [negb].
  2:{ intros [= <-]. left. split; auto. lia. }
  destruct (1000 <? chunkIndex) eqn:E2.
  { intros [= <-]. left. split; auto. lia. }
  destruct (slice content start (cEnd start)) as [k|] eqn:Es; [|discriminate].
  destruct (blank k) eqn:Eb; [discriminate|].
  destruct (len content <=? cEnd start) eqn:E3.
  { intros [= <-]. right. repeat split; try lia. exists k. repeat split; auto. lia. }
  destruct (len content <=? cNext start (cEnd start)) eqn:E4; [|discriminate].
  intros [= <-]. right. repeat split; try lia. exists k. repeat split; auto. lia.
Qed.

Lemma chunkStep_Continue start chunkIndex chunks start' chunkIndex' chunks' :
  cStep start chunkIndex chunks = Continue start' chunkIndex' chunks' ->
  start < len content /\ chunkIndex <= 1000 /\
  exists k, slice content start (cEnd start) = Some k /\
    ((blank k = true /\ start' = cEnd start /\ chunkIndex' = chunkIndex /\
      chunks' = chunks) \/
     (blank k = false /\ cEnd start < len content /\
      start' = cNext start (cEnd start) /\ start' < len content /\
      chunkIndex' = chunkIndex +i 1 /\
      chunks' = chunks ++ [cMk chunkIndex start (cEnd start) k])).
Proof.
  unfold chunkStep.
  destruct (start <? len content) eqn:E1; cbn [negb]; [|discriminate].
  destruct (1000 <? chunkIndex) eqn:E2; [discriminate|].
  destruct (slice content start (cEnd start)) as [k|] eqn:Es; [|discriminate].
  destruct (blank k) eqn:Eb.
  { intros [= <- <- <-]. split; [lia|]. split; [lia|]. exists k. split; auto. }
  destruct (len content <=? cEnd start) eqn:E3; [discriminate|].
  destruct (len content <=? cNext start (cEnd start)) eqn:E4; [discriminate|].
  intros [= <- <- <-]. split; [lia|]. split; [lia|]. exists k. split; auto.
  right. repeat split; auto; lia.
Qed.

Lemma chunkStep_Crash start chunkIndex chunks :
  cStep start chunkIndex chunks = Crash ->
  start < len content /\ slice content start (cEnd start) = None.
Proof.
  unfold chunkStep.
  destruct (start <? len content) eqn:E; cbn [negb]; [|discriminate].
  destruct (1000 <? chunkIndex); [discriminate|].
  destruct (slice content start (cEnd start)) as [k|]; [|split; [lia|reflexivity]].
  destruct (blank k); [discriminate|].
  destruct (len content <=? cEnd start); [discriminate|].
  destruct (len content <=? cNext start (cEnd start)); discriminate.
Qed.

(** *** The invariant rule of the loop *)

Lemma chunkLoop_invariant
    (Inv : Z -> Z -> list DocumentChunk -> Prop)
    (Post : list DocumentChunk -> Prop) :
  (forall s i c c', Inv s i c -> cStep s i c = Break c' -> Post c') ->
  (forall s i c s' i' c',
      Inv s i c -> cStep s i c = Continue s' i' c' -> Inv s' i' c') ->
  forall fuel s i c res,
    Inv s i c -> cLoop fuel s i c = Done res -> Post res.
Proof.
  intros HB HC. induction fuel as [|fuel IH]; intros s i c res HI; [discriminate|].
  cbn [chunkLoop]. destruct (cStep s i c) as [c'|s' i' c'|] eqn:E.
  - intros [= <-]. eapply HB; eauto.
  - intros H. eapply IH; [eapply HC|]; eauto.
  - discriminate.
Qed.

(** A loop whose turns neither crash nor stall returns. *)
Lemma chunkLoop_returns
    (Inv : Z -> Z -> list DocumentChunk -> Prop)
    (measure : Z -> Z -> nat) :
  (forall s i c, Inv s i c -> cStep s i c <> Crash) ->
  (forall s i c s' i' c',
      Inv s i c -> cStep s i c = Continue s' i' c' ->
      Inv s' i' c' /\ (measure s' i' < measure s i)%nat) ->
  forall fuel s i c,
    Inv s i c -> (measure s i < fuel)%nat ->
    exists res, cLoop fuel s i c = Done res.
Proof.
  intros HP HC. induction fuel as [|fuel IH]; intros s i c HI Hm; [lia|].
  cbn [chunkLoop]. destruct (cStep s i c) as [c'|s' i' c'|] eqn:E.
  - eauto.
  - destruct (HC _ _ _ _ _ _ HI E) as [HI' Hlt]. apply IH; auto. lia.
  - now apply HP in HI.
Qed.

End ChunkerFacts.

Lemma len_nonneg s : 0 <= len s.
Proof. unfold len. lia. Qed.

Section ChunkerBounds.

Variables (filePath content fileHash : string).
Variable approxTokensPerChar : float.
Variable headings : list HeadingInfo.
Variables (maxChunkChars overlapChars : Z).

Hypothesis Hmax : 0 < maxChunkChars.
Hypothesis Hfit : len content + maxChunkChars <= Int.max_int.

Local Abbreviation cEnd := (chunkEnd content headings maxChunkChars).
Local Abbreviation cNext := (nextStartAfter maxChunkChars overlapChars).
Local Abbreviation cMk := (mkChunk filePath fileHash approxTokensPerChar headings).
Local Abbreviation cStep :=
  (chunkStep filePath content fileHash approxTokensPerChar headings
     maxChunkChars overlapChars).
Local Abbreviation cLoop :=
  (chunkLoop filePath content fileHash approxTokensPerChar headings
     maxChunkChars overlapChars).

(** Every cut is after its start and inside the content. *)
Lemma chunkEnd_bounds start :
  0 <= start < len content -> start < cEnd start <= len content.
Proof.
  intros Hs. unfold chunkEnd.
  rewrite (add_id start maxChunkChars), (add_id start (maxChunkChars ÷ 2)),
    (sub_id (len content) start) by int_range.
  set (idealEnd := start + maxChunkChars).
  set (b0 := headingCut headings _ idealEnd).
  set (b1 := if b0 =? idealEnd then FindBestSplitPoint content idealEnd else b0).
  set (b2 := if len content <? b1 then len content else b1).
  assert (H2 : b2 <= len content) by (subst b2; destruct (len content <? b1) eqn:E; lia).
  destruct (b2 <=? start) eqn:E; [|lia].
  unfold Min. destruct (maxChunkChars <? len content - start) eqn:E';
    rewrite add_id by int_range; lia.
Qed.

(** With at least 332 bytes to a chunk, a cut either reaches the end of the
    content or leaves the forward-progress floor behind. *)
Lemma chunkEnd_progress start :
  332 <= maxChunkChars -> 0 <= start < len content ->
  cEnd start = len content \/ start + maxChunkChars ÷ 10 <= cEnd start.
Proof.
  intros Hbig Hs. pose proof (chunkEnd_bounds start Hs) as Hb. revert Hb.
  unfold chunkEnd.
  rewrite (add_id start maxChunkChars), (add_id start (maxChunkChars ÷ 2)),
    (sub_id (len content) start) by int_range.
  set (idealEnd := start + maxChunkChars).
  pose proof (headingCut_cases headings (start + maxChunkChars ÷ 2) idealEnd) as Hc.
  set (b0 := headingCut headings _ idealEnd) in *.
  assert (H1 : (if b0 =? idealEnd then FindBestSplitPoint content idealEnd else b0)
               = len content \/
               start + maxChunkChars ÷ 10 <=
               (if b0 =? idealEnd then FindBestSplitPoint content idealEnd else b0)
               <= len content \/
               len content <
               (if b0 =? idealEnd then FindBestSplitPoint content idealEnd else b0)).
  { destruct (b0 =? idealEnd) eqn:E0.
    - destruct (Z_lt_le_dec idealEnd (len content)) as [Hlt|Hge].
      + pose proof (FindBestSplitPoint_lower content idealEnd) as Hl.
        pose proof (FindBestSplitPoint_upper content idealEnd) as Hu.
        subst idealEnd. right. left.
        specialize (Hl ltac:(lia) ltac:(lia)). specialize (Hu ltac:(lia)). lia.
      + left. apply FindBestSplitPoint_past_end. lia.
    - destruct Hc as [Hc|Hc]; [lia|].
      destruct (Z_lt_le_dec (len content) b0); [right; right; lia|].
      right. left. lia. }
  set (b1 := if b0 =? idealEnd then FindBestSplitPoint content idealEnd else b0) in *.
  destruct (len content <? b1) eqn:E1.
  - assert (E : (len content <=? start) = false) by lia. rewrite E. auto.
  - destruct (b1 <=? start) eqn:E2; [|lia].
    unfold Min. destruct (maxChunkChars <? len content - start) eqn:E';
      rewrite add_id by int_range; lia.
Qed.

(** The next start is never before the forward-progress floor, whatever the
    overlap. *)
Lemma nextStartAfter_floor start bestEnd :
  0 <= start < len content ->
  start + maxChunkChars ÷ 10 <= cNext start bestEnd.
Proof.
  intros Hs. unfold nextStartAfter.
  rewrite add_id by int_range.
  destruct (_ <=? _) eqn:E; lia.
Qed.

(** With an overlap that is not negative, the next start is at or before
    a cut that left the floor behind: no byte is skipped. *)
Lemma nextStartAfter_le start bestEnd :
  0 <= overlapChars <= Int.max_int ->
  0 <= start < len content -> bestEnd <= len content ->
  start + maxChunkChars ÷ 10 <= bestEnd ->
  cNext start bestEnd <= bestEnd.
Proof.
  intros Ho Hs He Hf. unfold nextStartAfter.
  rewrite add_id, sub_id by int_range.
  destruct (_ <=? _) eqn:E; lia.
Qed.

Lemma chunkStep_no_crash start chunkIndex chunks :
  0 <= start -> cStep start chunkIndex chunks <> Crash.
Proof.
  intros Hs H. apply chunkStep_Crash in H as [Hlt H].
  pose proof (chunkEnd_bounds start ltac:(lia)) as Hb.
  destruct (slice_defined content start (cEnd start)) as [k Hk]; try lia.
  congruence.
Qed.

(** The loop returns: each turn that goes on moves [start] forward or
    counts one more chunk, and the count stops at 1001. *)
Lemma chunkLoop_terminates fuel start chunkIndex chunks :
  0 <= start -> 0 <= chunkIndex ->
  (Z.to_nat (len content - start) + Z.to_nat (1001 - chunkIndex) < fuel)%nat ->
  exists res, cLoop fuel start chunkIndex chunks = Done res.
Proof.
  intros Hs Hi.
  apply (chunkLoop_returns filePath content fileHash approxTokensPerChar headings
           maxChunkChars overlapChars
           (fun s i _ => 0 <= s /\ 0 <= i)
           (fun s i => (Z.to_nat (len content - s) + Z.to_nat (1001 - i))%nat));
    [| |auto].
  - intros s i c [Hs0 _]. now apply chunkStep_no_crash.
  - intros s i c s' i' c' [Hs0 Hi0] H.
    apply chunkStep_Continue in H as (Hlt & Hcap & k & Hk & H).
    pose proof (chunkEnd_bounds s ltac:(lia)) as Hb.
    destruct H as [(_ & -> & -> & _)|(_ & _ & -> & Hlt' & -> & _)].
    + split; [lia|]. lia.
    + pose proof (nextStartAfter_floor s (cEnd s) ltac:(lia)) as Hf.
      rewrite add_id by int_range. split; [lia|]. lia.
Qed.

End ChunkerBounds.

(** ** ChunkDocument: what the chunks hold *)

(** C3, as amended.  On the chunking path (token estimate above
    [maxTokensPerChunk]) every chunk returned holds a byte that is no white
    space: empty and white-space-only slices are skipped; and the loop does
    return when [maxChunkChars] is positive and fits the integer range.  The
    single-chunk path returns the content as it is. *)
Theorem ChunkDocument_chunks_nonblank (filePath content fileHash : string)
    (maxTokensPerChunk chunkOverlapPercent : Z) (approxTokensPerChar : float) :
  maxTokensPerChunk < EstimateTokenCount content approxTokensPerChar ->
  (forall fuel chunks,
      ChunkDocument fuel filePath content fileHash maxTokensPerChunk
        chunkOverlapPercent approxTokensPerChar = Done chunks ->
      Forall nonblankChunk chunks) /\
  (0 < maxChunkCharsOf maxTokensPerChunk approxTokensPerChar ->
   len content + maxChunkCharsOf maxTokensPerChunk approxTokensPerChar <= Int.max_int ->
   exists chunks,
     ChunkDocument_returns filePath content fileHash maxTokensPerChunk
       chunkOverlapPercent approxTokensPerChar chunks).
Proof.
  intros Hbig.
  assert (E : (EstimateTokenCount content approxTokensPerChar <=? maxTokensPerChunk) = false)
    by lia.
  split.
  - intros fuel chunks. unfold ChunkDocument. rewrite E.
    apply chunkLoop_invariant with (Inv := fun _ _ c => Forall nonblankChunk c).
    + intros s i c c' HI H.
      apply chunkStep_Break in H as [[-> _]|(_ & _ & k & _ & Hk & -> & _)]; auto.
      apply Forall_app. split; auto. constructor; [|constructor].
      split; cbn; auto using blank_false_byte.
    + intros s i c s' i' c' HI H.
      apply chunkStep_Continue in H as (_ & _ & k & _ & H).
      destruct H as [(_ & _ & _ & ->)|(Hk & _ & _ & _ & _ & ->)]; auto.
      apply Forall_app. split; auto. constructor; [|constructor].
      split; cbn; auto using blank_false_byte.
    + constructor.
  - intros Hmax Hfit. unfold ChunkDocument_returns, ChunkDocument. rewrite E.
    destruct (chunkLoop_terminates filePath content fileHash approxTokensPerChar
                (ExtractHeadings content) _
                (overlapCharsOf (maxChunkCharsOf maxTokensPerChunk approxTokensPerChar)
                   chunkOverlapPercent)
                Hmax Hfit (S (Z.to_nat (len content) + 1001)) 0 0 [])
      as [res Hres]; try lia.
    exists res, (S (Z.to_nat (len content) + 1001)). exact Hres.
Qed.

Lemma ChunkDocument_chunks_nonblank_witness :
  (forall fuel chunks,
      ChunkDocument fuel "/doc.md" trailingSpaces "h" 2 0 0.25 = Done chunks ->
      Forall nonblankChunk chunks) /\
  (0 < maxChunkCharsOf 2 0.25 ->
   len trailingSpaces + maxChunkCharsOf 2 0.25 <= Int.max_int ->
   exists chunks,
     ChunkDocument_returns "/doc.md" trailingSpaces "h" 2 0 0.25 chunks).
Proof.
  apply (ChunkDocument_chunks_nonblank "/doc.md" trailingSpaces "h" 2 0 0.25).
  vm_compute. reflexivity.
Defined.

(** C3 as stated fails on the single-chunk path: a document of three spaces
    comes back as one chunk of three spaces. *)
Lemma ChunkDocument_small_blank :
  exists c,
    ChunkDocument 0 "/doc.md" "   " "h" 4000 15 0.25 = Done [c] /\
    blank (Content c) = true /\ ~ hasNonSpaceByte (Content c).
Proof.
  eexists. split; [vm_compute; reflexivity|]. split; [reflexivity|].
  cbn [Content]. intros (i & b & Hi & Hb).
  unfold index in Hi. destruct (i <? 0); [discriminate|].
  destruct (Z.to_nat i) as [|[|[|n]]]; cbn in Hi; try discriminate;
    injection Hi as <-; discriminate.
Qed.

(** ** ChunkDocument: coverage *)

Lemma covered_app chunks more p : covered chunks p -> covered (chunks ++ more) p.
Proof.
  intros (c & Hc & Hp). exists c. split; auto. apply in_or_app. auto.
Qed.

(** A new chunk from [start] to [e] extends the coverage to any offset up
    to [e]. *)
Lemma coverageUpTo_snoc content chunks k n :
  coverageUpTo content chunks (StartOffset k) ->
  n <= EndOffset k ->
  coverageUpTo content (chunks ++ [k]) n.
Proof.
  intros [Hcov _] Hn. split.
  - intros p Hp. destruct (Z_lt_le_dec p (StartOffset k)) as [Hlt|Hge].
    + destruct (Hcov p ltac:(lia)) as [H|H]; auto. left. now apply covered_app.
    + left. exists k. split; [apply in_or_app; right; now left|lia].
  - intros c Hc p Hp. rewrite last_snoc in Hc. injection Hc as <-. lia.
Qed.

(** A skipped slice extends the coverage to its end. *)
Lemma coverageUpTo_skip content chunks start e k :
  coverageUpTo content chunks start ->
  slice content start e = Some k -> blank k = true ->
  coverageUpTo content chunks e.
Proof.
  intros [Hcov Hlast] Hk Hb.
  assert (Hin : forall p, start <= p < e -> inBlankSlice content p)
    by (intros p Hp; exists start, e, k; auto).
  split.
  - intros p Hp. destruct (Z_lt_le_dec p start); [apply Hcov; lia|right; apply Hin; lia].
  - intros c Hc p Hp. destruct (Z_lt_le_dec p start); [eapply Hlast; eauto; lia|].
    apply Hin. lia.
Qed.

Section ChunkerCoverage.

Variables (filePath content fileHash : string).
Variable approxTokensPerChar : float.
Variable headings : list HeadingInfo.
Variables (maxChunkChars overlapChars : Z).

Hypothesis Hbig : 332 <= maxChunkChars.
Hypothesis Hfit : len content + maxChunkChars <= Int.max_int.
Hypothesis Hov : 0 <= overlapChars <= Int.max_int.

Local Abbreviation cEnd := (chunkEnd content headings maxChunkChars).
Local Abbreviation cNext := (nextStartAfter maxChunkChars overlapChars).
Local Abbreviation cMk := (mkChunk filePath fileHash approxTokensPerChar headings).
Local Abbreviation cStep :=
  (chunkStep filePath content fileHash approxTokensPerChar headings
     maxChunkChars overlapChars).
Local Abbreviation cLoop :=
  (chunkLoop filePath content fileHash approxTokensPerChar headings
     maxChunkChars overlapChars).

(** The loop invariant: [chunkIndex] counts the chunks, each chunk is a
    slice of the content, and below [start] only white space is left out. *)
Local Abbreviation coverageInv :=
  (fun (s i : Z) (c : list DocumentChunk) =>
     0 <= s <= len content /\ i = Z.of_nat (length c) /\
     Forall (sliceOf content) c /\ coverageUpTo content c s).

Local Abbreviation coveragePost :=
  (fun (res : list DocumentChunk) =>
     Forall (sliceOf content) res /\
     ((length res <= 1000)%nat -> coverageUpTo content res (len content))).

Lemma mkChunk_sliceOf i start k :
  0 <= start < len content ->
  slice content start (cEnd start) = Some k ->
  sliceOf content (cMk i start (cEnd start) k).
Proof.
  intros Hs Hk. pose proof (chunkEnd_bounds content headings maxChunkChars
                              ltac:(lia) Hfit start Hs).
  unfold sliceOf. cbn. repeat split; auto; lia.
Qed.

Lemma coverage_Break s i c c' :
  coverageInv s i c -> cStep s i c = Break c' -> coveragePost c'.
Proof.
  intros (Hs & Hi & Hwf & Hcov) H.
  apply chunkStep_Break in H as [[-> Hexit]|(Hlt & Hcap & k & Hk & Hb & -> & Hexit)].
  - split; auto. intros Hn. destruct Hexit as [Hexit|Hexit]; [|lia].
    assert (s = len content) as <- by lia. exact Hcov.
  - pose proof (chunkEnd_bounds content headings maxChunkChars
                  ltac:(lia) Hfit s ltac:(lia)) as Hbnd.
    split.
    + apply Forall_app. split; auto. constructor; [|constructor].
      apply mkChunk_sliceOf; auto. lia.
    + intros _. apply coverageUpTo_snoc; cbn [StartOffset EndOffset mkChunk]; auto.
      destruct Hexit as [Hexit|Hexit]; [lia|].
      destruct (chunkEnd_progress content headings maxChunkChars
                  ltac:(lia) Hfit s Hbig ltac:(lia)) as [He|He]; [lia|].
      pose proof (nextStartAfter_le content maxChunkChars overlapChars
                    ltac:(lia) Hfit s (cEnd s) Hov ltac:(lia) ltac:(lia) He).
      lia.
Qed.

Lemma coverage_Continue s i c s' i' c' :
  coverageInv s i c -> cStep s i c = Continue s' i' c' -> coverageInv s' i' c'.
Proof.
  intros (Hs & Hi & Hwf & Hcov) H.
  apply chunkStep_Continue in H as (Hlt & Hcap & k & Hk & H).
  pose proof (chunkEnd_bounds content headings maxChunkChars
                ltac:(lia) Hfit s ltac:(lia)) as Hbnd.
  destruct H as [(Hb & -> & -> & ->)|(Hb & He & -> & Hlt' & -> & ->)].
  - repeat split; auto; try lia.
    + eapply coverageUpTo_skip; eauto.
    + eapply coverageUpTo_skip; eauto.
  - pose proof (nextStartAfter_floor content maxChunkChars overlapChars
                  ltac:(lia) Hfit s (cEnd s) ltac:(lia)) as Hfl.
    destruct (chunkEnd_progress content headings maxChunkChars
                ltac:(lia) Hfit s Hbig ltac:(lia)) as [He'|He']; [lia|].
    pose proof (nextStartAfter_le content maxChunkChars overlapChars
                  ltac:(lia) Hfit s (cEnd s) Hov ltac:(lia) ltac:(lia) He') as Hle.
    split; [lia|]. split.
    { rewrite length_app, add_id by int_range. cbn [length]. lia. }
    split.
    { apply Forall_app. split; auto. constructor; [|constructor].
      apply mkChunk_sliceOf; auto. lia. }
    apply coverageUpTo_snoc; cbn [StartOffset EndOffset mkChunk]; auto.
Qed.

Lemma chunkLoop_coverage fuel res :
  cLoop fuel 0 0 [] = Done res -> coveragePost res.
Proof.
  apply (chunkLoop_invariant filePath content fileHash approxTokensPerChar
           headings maxChunkChars overlapChars coverageInv coveragePost).
  - apply coverage_Break.
  - apply coverage_Continue.
  - pose proof (len_nonneg content).
    split; [lia|]. split; [reflexivity|]. split; [constructor|]. split.
    + intros p Hp. exfalso. lia.
    + intros c Hc. discriminate.
Qed.

End ChunkerCoverage.

(** C1, as amended.  For a document whose token estimate exceeds
    [maxTokensPerChunk], chunked with [maxChunkChars >= 332] and an overlap
    that is not negative, [ChunkDocument] returns chunks that are non-empty
    slices of the content at their offsets; and unless the cap of 1000 is
    reached (more than 1000 chunks returned), the ranges leave out nothing
    but white space: every offset of the content lies in the range of a chunk
    or in a white-space-only slice, and so does every offset from the last
    chunk's [EndOffset] to the end of the content. *)
Theorem ChunkDocument_coverage (filePath content fileHash : string)
    (maxTokensPerChunk chunkOverlapPercent : Z) (approxTokensPerChar : float) :
  maxTokensPerChunk < EstimateTokenCount content approxTokensPerChar ->
  332 <= maxChunkCharsOf maxTokensPerChunk approxTokensPerChar ->
  len content + maxChunkCharsOf maxTokensPerChunk approxTokensPerChar <= Int.max_int ->
  0 <= overlapCharsOf (maxChunkCharsOf maxTokensPerChunk approxTokensPerChar)
         chunkOverlapPercent ->
  exists chunks,
    ChunkDocument_returns filePath content fileHash maxTokensPerChunk
      chunkOverlapPercent approxTokensPerChar chunks /\
    Forall (sliceOf content) chunks /\
    ((length chunks <= 1000)%nat -> coverageUpTo content chunks (len content)).
Proof.
  intros Hest Hbig Hfit Hov.
  assert (E : (EstimateTokenCount content approxTokensPerChar <=? maxTokensPerChunk) = false)
    by lia.
  set (maxChunkChars := maxChunkCharsOf maxTokensPerChunk approxTokensPerChar) in *.
  set (overlapChars := overlapCharsOf maxChunkChars chunkOverlapPercent) in *.
  assert (Hov' : 0 <= overlapChars <= Int.max_int).
  { split; auto. apply to_int_is_int. }
  destruct (chunkLoop_terminates filePath content fileHash approxTokensPerChar
              (ExtractHeadings content) maxChunkChars overlapChars
              ltac:(lia) Hfit (S (Z.to_nat (len content) + 1001)) 0 0 [])
    as [res Hres]; try lia.
  exists res. split.
  - exists (S (Z.to_nat (len content) + 1001)). unfold ChunkDocument. now rewrite E.
  - eapply chunkLoop_coverage; eauto.
Qed.

Lemma ChunkDocument_coverage_witness :
  exists chunks,
    ChunkDocument_returns "/test/large.md" largeDocument "def456" 4000 15 0.25 chunks /\
    Forall (sliceOf largeDocument) chunks /\
    ((length chunks <= 1000)%nat ->
     coverageUpTo largeDocument chunks (len largeDocument)).
Proof.
  apply (ChunkDocument_coverage "/test/large.md" largeDocument "def456" 4000 15 0.25).
  - vm_compute. reflexivity.
  - vm_compute. discriminate.
  - vm_compute. discriminate.
  - vm_compute. discriminate.
Defined.

(** C1 as stated fails: with 100 tokens to a chunk, 15 percent of overlap
    and 0.25 tokens per byte ([maxChunkChars = 400], [overlapChars = 60]) the
    document [blankTail] of 619 bytes comes back as one chunk that ends at
    offset 400; the empty lines after it are skipped. *)
Lemma ChunkDocument_blank_tail_uncovered :
  exists chunks,
    ChunkDocument 3 "/doc.md" blankTail "h" 100 15 0.25 = Done chunks /\
    100 < EstimateTokenCount blankTail 0.25 /\
    maxChunkCharsOf 100 0.25 = 400 /\
    map (fun c => (StartOffset c, EndOffset c)) chunks = [(0, 400)] /\
    len blankTail = 619 /\
    ~ covered chunks 500 /\
    (exists c, last chunks = Some c /\ EndOffset c <> len blankTail).
Proof.
  eexists. split; [vm_compute; reflexivity|].
  split; [vm_compute; reflexivity|]. split; [vm_compute; reflexivity|].
  split; [reflexivity|]. split; [vm_compute; reflexivity|]. split.
  - intros (c & [<-|[]] & H). cbn [StartOffset EndOffset] in H. lia.
  - eexists. split; [reflexivity|]. cbn [EndOffset].
    assert (E : len blankTail = 619) by (vm_compute; reflexivity).
    rewrite E. discriminate.
Qed.

(** ** ChunkDocument: forward progress *)

(** On eight bytes of text with [maxChunkChars = 4] and [overlapChars = 4]
    a turn of the loop that starts at offset 0 emits the chunk [0, 4) and
    goes on from offset 0 again. *)
Lemma chunkStep_start_repeats i chunks :
  0 <= i <= 1000 ->
  chunkStep "/doc.md" "aaaaaaaa" "h" 0.25 (ExtractHeadings "aaaaaaaa") 4 4 0 i chunks
  = Continue 0 (i + 1)
      (chunks ++ [mkChunk "/doc.md" "h" 0.25 (ExtractHeadings "aaaaaaaa") i 0 4 "aaaa"]).
Proof.
  intros Hi. unfold chunkStep.
  assert (E : (1000 <? i) = false) by lia. rewrite E.
  change (negb (0 <? len "aaaaaaaa")) with false. cbv iota.
  replace (chunkEnd "aaaaaaaa" (ExtractHeadings "aaaaaaaa") 4 0) with 4
    by (vm_compute; reflexivity).
  change (slice "aaaaaaaa" 0 4) with (Some "aaaa"%string). cbv iota beta.
  change (blank "aaaa") with false. cbv iota.
  change (len "aaaaaaaa" <=? 4) with false. cbv iota.
  replace (nextStartAfter 4 4 0 4) with 0 by (vm_compute; reflexivity).
  change (len "aaaaaaaa" <=? 0) with false. cbv iota.
  rewrite add_id by int_range. reflexivity.
Qed.

Lemma chunkLoop_start_repeats n : forall i chunks,
  0 <= i -> i + Z.of_nat n = 1001 ->
  length chunks = Z.to_nat i ->
  Forall (fun c => StartOffset c = 0) chunks ->
  exists chunks',
    chunkLoop "/doc.md" "aaaaaaaa" "h" 0.25 (ExtractHeadings "aaaaaaaa") 4 4
      (S n) 0 i chunks = Done chunks' /\
    length chunks' = 1001%nat /\
    Forall (fun c => StartOffset c = 0) chunks'.
Proof.
  induction n as [|n IH]; intros i chunks Hi Hn Hlen Hall.
  - exists chunks. assert (i = 1001) as -> by lia. split; [reflexivity|].
    split; auto.
  - cbn [chunkLoop]. rewrite chunkStep_start_repeats by lia.
    apply IH; try lia.
    + rewrite length_app. cbn [length]. lia.
    + apply Forall_app. split; auto.
Qed.

(** C5, at the failing input.  With one token per chunk and 0.25 tokens per
    byte, [maxChunkChars] is 4 and the forward-progress floor
    [maxChunkChars / 10] is 0; with an overlap of 100 percent every chunk
    after the first starts where the one before it started.  Eight bytes of
    text come back as 1001 chunks that all start at offset 0: the loop ends
    at the cap. *)
Theorem ChunkDocument_start_repeats :
  maxChunkCharsOf 1 0.25 = 4 /\
  overlapCharsOf 4 100 = 4 /\
  exists chunks,
    ChunkDocument 1002 "/doc.md" "aaaaaaaa" "h" 1 100 0.25 = Done chunks /\
    length chunks = 1001%nat /\
    Forall (fun c => StartOffset c = 0) chunks /\
    ~ increasingStarts chunks.
Proof.
  split; [vm_compute; reflexivity|]. split; [vm_compute; reflexivity|].
  destruct (chunkLoop_start_repeats 1001 0 [] ltac:(lia) ltac:(lia) eq_refl
              ltac:(constructor)) as (chunks & Hrun & Hlen & Hall).
  exists chunks. split; [|split; [exact Hlen|split; [exact Hall|]]].
  - unfold ChunkDocument.
    replace (EstimateTokenCount "aaaaaaaa" 0.25 <=? 1) with false
      by (vm_compute; reflexivity).
    cbv zeta.
    replace (maxChunkCharsOf 1 0.25) with 4 by (vm_compute; reflexivity).
    replace (overlapCharsOf 4 100) with 4 by (vm_compute; reflexivity).
    exact Hrun.
  - intros Hinc.
    destruct (lookup_lt_is_Some_2 chunks 0 ltac:(lia)) as [c0 H0].
    destruct (lookup_lt_is_Some_2 chunks 1 ltac:(lia)) as [c1 H1].
    pose proof (Hinc 0%nat 1%nat c0 c1 H0 H1 ltac:(lia)) as Hlt.
    pose proof (proj1 (Forall_lookup _ _) Hall 0%nat c0 H0) as E0.
    pose proof (proj1 (Forall_lookup _ _) Hall 1%nat c1 H1) as E1.
    cbv beta in E0, E1. lia.
Qed.

(** ** ChunkDocument: the heading-preferred cut *)

(** C6, at the failing input.  In [headingAtIdealEnd] the only heading
    starts at offset 8; with [maxChunkChars = 8] and [start = 0] it
    qualifies ([4 < 8 <= 8]) and is the best heading, yet the end of the
    chunk is 3, the sentence end that [FindBestSplitPoint] finds before
    offset 8: a heading at [idealEnd] leaves [bestEnd == idealEnd], which the
    code reads as "no heading found". *)
Theorem chunkEnd_heading_at_idealEnd :
  ExtractHeadings headingAtIdealEnd = [ {| Level := 1; Text := "H"; Position := 8 |} ] /\
  maxChunkCharsOf 2 0.25 = 8 /\
  (0 + 8 ÷ 2 < 8 <= 0 + 8) /\
  headingCut (ExtractHeadings headingAtIdealEnd) (0 + 8 ÷ 2) (0 + 8) = 8 /\
  chunkEnd headingAtIdealEnd (ExtractHeadings headingAtIdealEnd) 8 0 = 3 /\
  exists chunks,
    ChunkDocument 10 "/doc.md" headingAtIdealEnd "h" 2 0 0.25 = Done chunks /\
    map (fun c => (StartOffset c, EndOffset c)) chunks
    = [(0, 3); (3, 8); (8, 16); (16, 20)].
Proof.
  split; [vm_compute; reflexivity|]. split; [vm_compute; reflexivity|].
  split; [vm_compute; split; [reflexivity|discriminate]|].
  split; [vm_compute; reflexivity|]. split; [vm_compute; reflexivity|].
  eexists. split; vm_compute; reflexivity.
Qed.

(** ** The heading-preferred cut, away from [idealEnd] *)

Lemma headingCut_fixed l lo hi b level :
  (forall h', In h' l -> lo < Position h' <= hi -> level <= Level h') ->
  fold_left (headingStep lo hi) l (b, level) = (b, level).
Proof.
  induction l as [|x l IH]; intros H; cbn [fold_left]; auto.
  assert (E : headingStep lo hi (b, level) x = (b, level)).
  { unfold headingStep.
    destruct ((lo <? Position x) && (Position x <=? hi)) eqn:Eq; auto.
    specialize (H x (or_introl eq_refl) ltac:(lia)).
    assert (E' : (Level x <? level) = false) by lia. now rewrite E'. }
  rewrite E. apply IH. intros h' Hin. apply H. now right.
Qed.

(** The scan picks the qualifying heading of the smallest level, the
    earliest one among those of that level (levels below 7, as
    [ExtractHeadings] gives them). *)
Lemma headingCut_best before h after lo hi :
  lo < Position h <= hi -> Level h < 7 ->
  (forall h', In h' before -> lo < Position h' <= hi -> Level h < Level h') ->
  (forall h', In h' after -> lo < Position h' <= hi -> Level h <= Level h') ->
  headingCut (before ++ h :: after) lo hi = Position h.
Proof.
  intros Hq H7 Hbefore Hafter. unfold headingCut.
  rewrite fold_left_app. cbn [fold_left].
  assert (G : forall st, Level h < snd st ->
     Level h < snd (fold_left (headingStep lo hi) before st)).
  { clear Hafter. induction before as [|x l IH]; intros st Hst; cbn [fold_left]; auto.
    apply IH.
    - intros h' Hin. apply Hbefore. now right.
    - unfold headingStep. destruct st as [b level]. cbn [snd] in *.
      destruct ((lo <? Position x) && (Position x <=? hi)) eqn:Eq; auto.
      destruct (Level x <? level); auto. cbn [snd].
      apply Hbefore; [now left|lia]. }
  specialize (G (hi, 7) H7).
  destruct (fold_left (headingStep lo hi) before (hi, 7)) as [b level].
  cbn [snd] in G. unfold headingStep at 2.
  assert (E1 : ((lo <? Position h) && (Position h <=? hi)) = true) by lia.
  assert (E2 : (Level h <? level) = true) by lia.
  rewrite E1, E2. now rewrite headingCut_fixed.
Qed.

Lemma headingCut_none headings lo hi :
  (forall h, In h headings -> ~ lo < Position h <= hi) ->
  headingCut headings lo hi = hi.
Proof.
  intros H. unfold headingCut. rewrite headingCut_fixed; auto.
  intros h' Hin Hq. now apply H in Hq.
Qed.

(** The part of C6 that holds: a best qualifying heading that is not exactly
    at [start + maxChunkChars] ends the chunk at its position; with no
    qualifying heading the end comes from [FindBestSplitPoint] (and the
    clamp and the forced step after it). *)
Lemma chunkEnd_heading content before h after maxChunkChars start :
  0 < maxChunkChars -> len content + maxChunkChars <= Int.max_int ->
  0 <= start < len content ->
  qualifies start maxChunkChars h -> Level h < 7 ->
  (forall h', In h' before -> qualifies start maxChunkChars h' -> Level h < Level h') ->
  (forall h', In h' after -> qualifies start maxChunkChars h' -> Level h <= Level h') ->
  Position h <> start + maxChunkChars -> Position h <= len content ->
  chunkEnd content (before ++ h :: after) maxChunkChars start = Position h.
Proof.
  unfold qualifies. intros Hmax Hfit Hs Hq H7 Hb Ha Hne Hle. unfold chunkEnd.
  rewrite (add_id start maxChunkChars), (add_id start (maxChunkChars ÷ 2))
    by int_range.
  rewrite (headingCut_best before h after) by auto.
  assert (E1 : (Position h =? start + maxChunkChars) = false) by lia.
  assert (E2 : (len content <? Position h) = false) by lia.
  assert (E3 : (Position h <=? start) = false) by lia.
  now rewrite E1, E2, E3.
Qed.

Lemma chunkEnd_no_heading content headings maxChunkChars start :
  0 < maxChunkChars -> len content + maxChunkChars <= Int.max_int ->
  0 <= start < len content ->
  (forall h, In h headings -> ~ qualifies start maxChunkChars h) ->
  chunkEnd content headings maxChunkChars start
  = let bestEnd := FindBestSplitPoint content (start + maxChunkChars) in
    if bestEnd <=? start
    then start + Min maxChunkChars (len content - start)
    else bestEnd.
Proof.
  unfold qualifies. intros Hmax Hfit Hs Hnone. unfold chunkEnd. cbv zeta.
  rewrite (add_id start maxChunkChars), (add_id start (maxChunkChars ÷ 2)),
    (sub_id (len content) start) by int_range.
  rewrite headingCut_none by auto. rewrite Z.eqb_refl.
  assert (E : (len content <? FindBestSplitPoint content (start + maxChunkChars)) = false).
  { destruct (Z_lt_le_dec (start + maxChunkChars) (len content)).
    - pose proof (FindBestSplitPoint_upper content (start + maxChunkChars)
                    ltac:(lia)). lia.
    - rewrite FindBestSplitPoint_past_end by lia. lia. }
  rewrite E.
  destruct (_ <=? start); auto.
  unfold Min. destruct (maxChunkChars <? len content - start);
    rewrite add_id by int_range; auto.
Qed.

(** ** Forward progress with at least ten bytes to a chunk *)

Lemma increasingStarts_snoc chunks k :
  increasingStarts chunks ->
  Forall (fun c => StartOffset c < StartOffset k) chunks ->
  increasingStarts (chunks ++ [k]).
Proof.
  intros Hinc Hall i j ci cj Hi Hj Hlt.
  apply lookup_app_Some in Hi as [Hi|[Hge Hi]];
    apply lookup_app_Some in Hj as [Hj|[Hge' Hj]].
  - eauto.
  - apply list_lookup_singleton_Some in Hj as [_ <-].
    eapply (proj1 (Forall_lookup _ _) Hall); eauto.
  - apply lookup_lt_Some in Hj. lia.
  - apply list_lookup_singleton_Some in Hi as [Hi0 _].
    apply list_lookup_singleton_Some in Hj as [Hj0 _]. lia.
Qed.

(** The part of C5 that holds: from ten bytes to a chunk on, the floor
    [maxChunkChars / 10] is at least one byte and the start offsets are
    strictly increasing. *)
Lemma ChunkDocument_starts_increase (filePath content fileHash : string)
    (maxTokensPerChunk chunkOverlapPercent : Z) (approxTokensPerChar : float) :
  maxTokensPerChunk < EstimateTokenCount content approxTokensPerChar ->
  10 <= maxChunkCharsOf maxTokensPerChunk approxTokensPerChar ->
  len content + maxChunkCharsOf maxTokensPerChunk approxTokensPerChar <= Int.max_int ->
  exists chunks,
    ChunkDocument_returns filePath content fileHash maxTokensPerChunk
      chunkOverlapPercent approxTokensPerChar chunks /\
    increasingStarts chunks.
Proof.
  intros Hest Hbig Hfit.
  assert (E : (EstimateTokenCount content approxTokensPerChar <=? maxTokensPerChunk) = false)
    by lia.
  set (maxChunkChars := maxChunkCharsOf maxTokensPerChunk approxTokensPerChar) in *.
  set (overlapChars := overlapCharsOf maxChunkChars chunkOverlapPercent) in *.
  destruct (chunkLoop_terminates filePath content fileHash approxTokensPerChar
              (ExtractHeadings content) maxChunkChars overlapChars
              ltac:(lia) Hfit (S (Z.to_nat (len content) + 1001)) 0 0 [])
    as [res Hres]; try lia.
  exists res. split.
  { exists (S (Z.to_nat (len content) + 1001)). unfold ChunkDocument. now rewrite E. }
  revert Hres.
  apply chunkLoop_invariant with
    (Inv := fun s (_ : Z) c =>
              0 <= s /\ increasingStarts c /\ Forall (fun k => StartOffset k < s) c).
  - intros s i c c' (Hs & Hinc & Hall) H.
    apply chunkStep_Break in H as [[-> _]|(Hlt & _ & k & _ & _ & -> & _)]; auto.
    apply increasingStarts_snoc; auto.
  - intros s i c s' i' c' (Hs & Hinc & Hall) H.
    apply chunkStep_Continue in H as (Hlt & _ & k & _ & H).
    pose proof (chunkEnd_bounds content (ExtractHeadings content) maxChunkChars
                  ltac:(lia) Hfit s ltac:(lia)) as Hbnd.
    destruct H as [(_ & -> & _ & ->)|(_ & _ & -> & _ & _ & ->)].
    + split; [lia|]. split; auto.
      eapply Forall_impl; [exact Hall|]. cbn. intros; lia.
    + pose proof (nextStartAfter_floor content maxChunkChars overlapChars
                    ltac:(lia) Hfit s
                    (chunkEnd content (ExtractHeadings content) maxChunkChars s)
                    ltac:(lia)) as Hfl.
      split; [lia|]. split; [apply increasingStarts_snoc; auto|].
      apply Forall_app. split.
      * eapply Forall_impl; [exact Hall|]. cbn. intros; lia.
      * constructor; [|constructor]. cbn. lia.
  - split; [lia|]. split; [|constructor].
    intros i j ci cj Hi. discriminate.
Qed.

(** * The local embedder *)

(** ** The vector keeps its 384 entries and no index leaves it *)

Lemma updateAt_Some {A : Type} (vector : list A) idx f :
  0 <= idx < Z.of_nat (length vector) ->
  exists vector', updateAt vector idx f = Some vector' /\
                  length vector' = length vector.
Proof.
  intros H. unfold updateAt.
  assert (E : (idx <? 0) = false) by lia. rewrite E.
  destruct (lookup_lt_is_Some_2 vector (Z.to_nat idx) ltac:(lia)) as [v Hv].
  rewrite Hv. eexists. split; [reflexivity|]. apply length_insert.
Qed.

Lemma addTermToVector_Some vector term weight :
  (0 < length vector)%nat ->
  exists vector', addTermToVector vector term weight = Some vector' /\
                  length vector' = length vector.
Proof.
  intros Hn. unfold addTermToVector.
  assert (E : (Z.of_nat (length vector) =? 0) = false) by lia. rewrite E.
  set (n := Z.of_nat (length vector)).
  pose proof (Z.mod_pos_bound (hashString term 0) n ltac:(lia)) as H1.
  pose proof (Z.mod_pos_bound (hashString term 1) n ltac:(lia)) as H2.
  assert (S1 : exists v1,
    (if hashString term 1 mod 2 =? 0
     then updateAt vector (hashString term 0 mod n) (fun v => (v + weight)%float)
     else updateAt vector (hashString term 0 mod n) (fun v => (v - weight)%float))
    = Some v1 /\ length v1 = length vector).
  { destruct (hashString term 1 mod 2 =? 0); apply updateAt_Some; exact H1. }
  destruct S1 as (v1 & -> & L1). cbn [mbind option_bind].
  assert (H2' : 0 <= hashString term 1 mod n < Z.of_nat (length v1))
    by (rewrite L1; exact H2).
  rewrite <- L1.
  destruct (hashString term 2 mod 2 =? 0); apply updateAt_Some; exact H2'.
Qed.

(** A fold of steps that succeed and keep an invariant succeeds and keeps it. *)
Lemma foldOption_Some {A B : Type} (P : A -> Prop) (f : A -> B -> option A) l :
  (forall a b, P a -> exists a', f a b = Some a' /\ P a') ->
  forall a, P a -> exists a', foldOption f a l = Some a' /\ P a'.
Proof.
  intros Hf. induction l as [|b l IH]; intros a Ha; cbn [foldOption].
  - eauto.
  - destruct (Hf a b Ha) as (a' & -> & Ha'). cbn [mbind option_bind]. auto.
Qed.

Local Abbreviation full := (fun vector : list float =>
  length vector = Z.to_nat LocalEmbeddingDimension).

Lemma full_addTermToVector vector term weight :
  full vector ->
  exists vector', addTermToVector vector term weight = Some vector' /\ full vector'.
Proof.
  intros H.
  destruct (addTermToVector_Some vector term weight) as (v' & Hv & L).
  { rewrite H. cbv. lia. }
  exists v'. split; auto. congruence.
Qed.

Lemma full_addTerm (math_Log : float -> float) vector entry :
  full vector ->
  exists vector', addTerm math_Log vector entry = Some vector' /\ full vector'.
Proof.
  intros H. destruct entry as [term count]. unfold addTerm.
  destruct (full_addTermToVector vector term
              (1 + math_Log (F64.of_int count))%float H) as (v1 & -> & H1).
  cbn [mbind option_bind].
  destruct (3 <=? len term); [|eauto].
  apply (foldOption_Some full); auto.
  intros a b Ha. now apply full_addTermToVector.
Qed.

Lemma l2Normalize_length vector : length (l2Normalize vector) = length vector.
Proof.
  unfold l2Normalize. destruct (_ =? _)%float; auto. apply length_map.
Qed.

Lemma toFloat32_Some vector : forall i result,
  0 <= i -> (Z.to_nat i + length vector <= length result)%nat ->
  exists result', toFloat32 vector i result = Some result' /\
                  length result' = length result.
Proof.
  induction vector as [|v rest IH]; intros i result Hi Hlen; cbn [toFloat32].
  - eauto.
  - cbn [length] in Hlen.
    destruct (updateAt_Some result i (fun _ => F32.of_float64 v) ltac:(lia))
      as (r1 & -> & L1).
    cbn [mbind option_bind].
    destruct (IH (i + 1) r1 ltac:(lia) ltac:(lia)) as (r2 & -> & L2).
    exists r2. split; auto. congruence.
Qed.

(** Whatever the order of the map and whatever [math.Log] computes. *)
Lemma embedInOrder_Done {tables : UnicodeTables} (math_Log : float -> float)
    entries tokens :
  exists v, embedInOrder math_Log entries tokens = Done (v, None) /\
            Z.of_nat (length v) = LocalEmbeddingDimension.
Proof.
  unfold embedInOrder.
  destruct (foldOption_Some full (addTerm math_Log) entries
              (full_addTerm math_Log)
              (replicate (Z.to_nat LocalEmbeddingDimension) 0%float))
    as (v1 & -> & H1); [apply length_replicate|].
  cbn [mbind option_bind].
  destruct (foldOption_Some full
              (fun vector bigram => addTermToVector vector bigram 0.5%float)
              (bigrams tokens)
              (fun a b Ha => full_addTermToVector a b 0.5%float Ha) v1 H1)
    as (v2 & -> & H2).
  cbn [mbind option_bind].
  destruct (toFloat32_Some (l2Normalize v2) 0
              (replicate (Z.to_nat LocalEmbeddingDimension) F32.zero))
    as (r & -> & L); [lia| |].
  { rewrite l2Normalize_length, H2, length_replicate. lia. }
  exists r. split; auto. rewrite L, length_replicate. reflexivity.
Qed.

(** C10.  For every text (the empty one and one without tokens included),
    every run of [GetLocalEmbedding] returns, with a nil error and a vector of
    exactly [LocalEmbeddingDimension] = 384 entries: no index leaves the
    vector, whatever order the map is visited in; and so does [GetEmbedding]
    in local mode. *)
Theorem GetLocalEmbedding_total {tables : UnicodeTables}
    (math_Log : float -> float)
    (getOllamaEmbedding_returns : string -> Config -> run (list F32.t * error) -> Prop)
    (text : string) :
  LocalEmbeddingDimension = 384 /\
  (exists result, GetLocalEmbedding_returns math_Log text result) /\
  (forall result,
     GetLocalEmbedding_returns math_Log text result ->
     exists v, result = Done (v, None) /\
               Z.of_nat (length v) = LocalEmbeddingDimension) /\
  (forall config result,
     EmbeddingMode config = EmbeddingModeLocal ->
     GetEmbedding_returns math_Log getOllamaEmbedding_returns text config result ->
     exists v, result = Done (v, None) /\
               Z.of_nat (length v) = LocalEmbeddingDimension).
Proof.
  assert (Hall : forall result,
     GetLocalEmbedding_returns math_Log text result ->
     exists v, result = Done (v, None) /\
               Z.of_nat (length v) = LocalEmbeddingDimension).
  { intros result. unfold GetLocalEmbedding_returns. cbv zeta.
    destruct (length (tokenize text) =? 0)%nat.
    - intros ->. eexists. split; [reflexivity|].
      rewrite length_replicate. reflexivity.
    - intros (entries & _ & ->). apply embedInOrder_Done. }
  split; [reflexivity|]. split; [|split; [exact Hall|]].
  - unfold GetLocalEmbedding_returns. cbv zeta.
    destruct (length (tokenize text) =? 0)%nat; [eauto|].
    eexists. exists (map_to_list (termFrequencies (tokenize text))).
    split; reflexivity.
  - intros config result Hmode. unfold GetEmbedding_returns.
    rewrite Hmode. cbn. apply Hall.
Qed.

(** ** The order of the map and the sums of floats *)

Lemma foldOption_ext {A B : Type} (f g : A -> B -> option A) l :
  (forall a b, In b l -> f a b = g a b) ->
  forall a, foldOption f a l = foldOption g a l.
Proof.
  induction l as [|b l IH]; intros H a; cbn [foldOption]; auto.
  rewrite (H a b) by now left.
  destruct (g a b) as [a'|]; cbn [mbind option_bind]; auto.
  apply IH. intros a0 b0 Hin. apply H. now right.
Qed.

(** [embedInOrder] reads [math.Log] at the counts of the entries only. *)
Lemma embedInOrder_ext {tables : UnicodeTables} (log1 log2 : float -> float)
    entries tokens :
  (forall term count, In (term, count) entries ->
     log1 (F64.of_int count) = log2 (F64.of_int count)) ->
  embedInOrder log1 entries tokens = embedInOrder log2 entries tokens.
Proof.
  intros H. unfold embedInOrder.
  rewrite (foldOption_ext (addTerm log1) (addTerm log2)); auto.
  intros vector [term count] Hin. unfold addTerm. now rewrite (H term count Hin).
Qed.

(** * Further properties of the code *)

(** ** Lines *)

Lemma len_String c s : len (String c s) = 1 + len s.
Proof. unfold len. change (String.length (String c s)) with (S (String.length s)). lia. Qed.

Lemma append_nil_l (s : string) : (EmptyString ++ s)%string = s.
Proof. reflexivity. Qed.

Lemma append_cons c (a b : string) : (String c a ++ b)%string = String c (a ++ b).
Proof. reflexivity. Qed.

Lemma append_assoc (a b c : string) : ((a ++ b) ++ c)%string = (a ++ (b ++ c))%string.
Proof.
  induction a as [|x a IH]; [reflexivity|]. rewrite !append_cons. now rewrite IH.
Qed.

Lemma len_append a b : len (a ++ b) = len a + len b.
Proof.
  induction a as [|c a IH].
  - rewrite append_nil_l. change (len EmptyString) with 0. lia.
  - rewrite append_cons, !len_String, IH. lia.
Qed.

Lemma linesLen_cons line rest :
  linesLen (line :: rest) = len line + 1 + linesLen rest.
Proof. reflexivity. Qed.

Lemma linesLen_nonneg lines : 0 <= linesLen lines.
Proof.
  induction lines as [|l r IH]; [reflexivity|].
  rewrite linesLen_cons. pose proof (len_nonneg l). lia.
Qed.

Lemma SplitLines_cons s : exists line rest, Strings.SplitLines s = line :: rest.
Proof.
  destruct s as [|c s]; cbn [Strings.SplitLines]; [eauto|].
  destruct (Ascii.eqb c newline); [eauto|].
  destruct (Strings.SplitLines s); eauto.
Qed.

(** Splitting at the newlines loses no byte: the lines and one newline
    after each make the content and one byte more. *)
Lemma SplitLines_linesLen s : linesLen (Strings.SplitLines s) = len s + 1.
Proof.
  induction s as [|c s IH]; cbn [Strings.SplitLines].
  - reflexivity.
  - destruct (Ascii.eqb c newline).
    + rewrite linesLen_cons, IH, len_String. change (len EmptyString) with 0. lia.
    + destruct (SplitLines_cons s) as (line & rest & E). rewrite E in *.
      rewrite linesLen_cons in *. rewrite !len_String. lia.
Qed.

Lemma joinLines_cons a b rest :
  joinLines (a :: b :: rest) = (a ++ String newline (joinLines (b :: rest)))%string.
Proof. reflexivity. Qed.

(** [strings.Join(strings.Split(s, "\n"), "\n") == s] *)
Lemma joinLines_SplitLines s : joinLines (Strings.SplitLines s) = s.
Proof.
  induction s as [|c s IH]; cbn [Strings.SplitLines].
  - reflexivity.
  - destruct (Ascii.eqb c newline) eqn:Ec.
    + apply Ascii.eqb_eq in Ec. subst c.
      destruct (SplitLines_cons s) as (line & rest & E). rewrite E in *.
      rewrite joinLines_cons, append_nil_l. now rewrite IH.
    + destruct (SplitLines_cons s) as (line & rest & E). rewrite E in *.
      destruct rest as [|line' rest'].
      * cbn [joinLines] in *. now rewrite IH.
      * rewrite joinLines_cons in *. rewrite append_cons. now rewrite IH.
Qed.

Lemma index_append_at a c b : index (a ++ String c b) (len a) = Some c.
Proof.
  unfold index. pose proof (len_nonneg a).
  assert (E : (len a <? 0) = false) by lia. rewrite E.
  unfold len. rewrite Nat2Z.id.
  clear. induction a as [|x a IH]; [reflexivity|].
  rewrite append_cons. exact IH.
Qed.

Lemma matchHeading_level line level text :
  Strings.matchHeading line = Some (level, text) -> (1 <= level <= 6)%nat.
Proof.
  unfold Strings.matchHeading. destruct (Strings.hashes line) as [n r].
  destruct ((1 <=? n) && (n <=? 6))%nat eqn:E; [|discriminate].
  apply andb_prop in E as [E1 E2].
  apply Nat.leb_le in E1. apply Nat.leb_le in E2.
  destruct (Strings.spaces r) as [[|c w] [|c' rest']]; try discriminate.
  - destruct (2 <=? String.length (String c w))%nat; [|discriminate].
    intros [= <- _]. lia.
  - intros [= <- _]. lia.
Qed.

(** The headings of some lines: levels, positions, order. *)
Lemma extractFrom_spec content lines : forall pre,
  content = (pre ++ joinLines lines)%string ->
  lineStart content (len pre) ->
  len pre + linesLen lines <= Int.max_int ->
  Forall (fun h => 1 <= Level h <= 6 /\
                   len pre <= Position h /\ Position h + 1 < len pre + linesLen lines /\
                   lineStart content (Position h))
         (extractFrom lines (len pre)) /\
  StronglySorted (fun a b => Position a < Position b) (extractFrom lines (len pre)).
Proof.
  induction lines as [|line rest IH]; intros pre Hc Hs Hfit; cbn [extractFrom].
  - split; constructor.
  - pose proof (len_nonneg pre). pose proof (len_nonneg line).
    rewrite linesLen_cons in *.
    pose proof (linesLen_nonneg rest) as Hrest.
    rewrite (add_id (len pre) (len line)) by int_range.
    rewrite (add_id (len pre + len line) 1) by int_range.
    assert (Hnext : len pre + len line + 1
                    = len (pre ++ line ++ String newline EmptyString)%string).
    { rewrite !len_append, len_String. change (len EmptyString) with 0. lia. }
    assert (Htail :
      Forall (fun h => 1 <= Level h <= 6 /\
                       len pre + len line + 1 <= Position h /\
                       Position h + 1 < len pre + (len line + 1 + linesLen rest) /\
                       lineStart content (Position h))
             (extractFrom rest (len pre + len line + 1)) /\
      StronglySorted (fun a b => Position a < Position b)
        (extractFrom rest (len pre + len line + 1))).
    { destruct rest as [|line' rest'].
      - cbn [extractFrom]. split; constructor.
      - rewrite Hnext.
        destruct (IH (pre ++ line ++ String newline EmptyString)%string) as [F S].
        + rewrite Hc, joinLines_cons.
          rewrite !append_assoc, append_cons, append_nil_l. reflexivity.
        + right. rewrite <- Hnext.
          replace (len pre + len line + 1 - 1) with (len (pre ++ line)%string)
            by (rewrite len_append; lia).
          rewrite Hc, joinLines_cons, <- append_assoc.
          apply index_append_at.
        + rewrite <- Hnext. lia.
        + split; [|exact S]. eapply Forall_impl; [exact F|].
          cbn beta. intros h (Hl & Hp1 & Hp2 & Hls). rewrite <- Hnext in *.
          repeat split; try lia; auto. }
    destruct Htail as [F S].
    destruct (Strings.matchHeading (Strings.TrimSpace line)) as [[level text]|] eqn:Em.
    + assert (Hline : 0 < len line).
      { destruct line; [discriminate Em|]. rewrite len_String.
        pose proof (len_nonneg line). lia. }
      apply matchHeading_level in Em.
      split.
      * constructor; cbn [Level Position].
        -- repeat split; try lia; auto.
        -- eapply Forall_impl; [exact F|]. cbn beta.
           intros h (Hl & Hp1 & Hp2 & Hls). repeat split; try lia; auto.
      * constructor; auto. eapply Forall_impl; [exact F|]. cbn beta.
        intros h (Hl & Hp1 & Hp2 & Hls). cbn [Position]. lia.
    + split; [|exact S]. eapply Forall_impl; [exact F|]. cbn beta.
      intros h (Hl & Hp1 & Hp2 & Hls). repeat split; try lia; auto.
Qed.

Lemma ExtractHeadings_spec content :
  len content < Int.max_int ->
  Forall (fun h => 1 <= Level h <= 6 /\ 0 <= Position h < len content /\
                   lineStart content (Position h))
         (ExtractHeadings content) /\
  StronglySorted (fun a b => Position a < Position b) (ExtractHeadings content).
Proof.
  intros Hfit. unfold ExtractHeadings.
  destruct (extractFrom_spec content (Strings.SplitLines content) EmptyString)
    as [F S].
  - rewrite append_nil_l. now rewrite joinLines_SplitLines.
  - now left.
  - rewrite SplitLines_linesLen. change (len EmptyString) with 0. lia.
  - change (len EmptyString) with 0 in *. split; [|exact S].
    eapply Forall_impl; [exact F|]. cbn beta.
    rewrite SplitLines_linesLen. intros h (Hl & Hp1 & Hp2 & Hls).
    repeat split; try lia; auto.
Qed.

Lemma extractFrom_levels lines : forall position,
  Forall (fun h => 1 <= Level h <= 6) (extractFrom lines position).
Proof.
  induction lines as [|line rest IH]; intros position; cbn [extractFrom].
  - constructor.
  - destruct (Strings.matchHeading (Strings.TrimSpace line)) as [[level text]|] eqn:Em;
      [|apply IH].
    apply matchHeading_level in Em. constructor; [cbn [Level]; lia | apply IH].
Qed.

(** ** The stack of GetHeadingContext *)

Lemma StronglySorted_snoc {A} (R : A -> A -> Prop) l x :
  StronglySorted R l -> Forall (fun a => R a x) l -> StronglySorted R (l ++ [x]).
Proof.
  induction 1 as [|a l Hs IH Ha]; intros Hx; cbn [app].
  - constructor; constructor.
  - inversion Hx as [|? ? Hax Hlx]; subst. constructor; [auto|].
    apply Forall_app. split; auto.
Qed.

Lemma StronglySorted_snoc_inv {A} (R : A -> A -> Prop) l x :
  StronglySorted R (l ++ [x]) -> StronglySorted R l /\ Forall (fun a => R a x) l.
Proof.
  induction l as [|a l IH]; cbn [app]; intros H.
  - split; constructor.
  - inversion H as [|? ? Hs Ha]; subst. apply IH in Hs as [Hs Hx].
    apply Forall_app in Ha as [Hal Hax]. inversion Hax; subst.
    split; constructor; auto.
Qed.

Lemma last_Some_snoc {A} (l : list A) x : last l = Some x -> l = removelast l ++ [x].
Proof.
  intros H. destruct l as [|a l] using rev_ind; [discriminate|].
  rewrite last_snoc in H. injection H as ->. now rewrite removelast_last.
Qed.

(** Popping keeps a bottom part of the stack, all of it below [level]. *)
Lemma popStack_below n : forall stack level,
  (length stack <= n)%nat ->
  StronglySorted (fun a b => Level a < Level b) stack ->
  StronglySorted (fun a b => Level a < Level b) (popStack n stack level) /\
  Forall (fun a => Level a < level) (popStack n stack level) /\
  (forall h, In h (popStack n stack level) -> In h stack).
Proof.
  induction n as [|n IH]; intros stack level Hn Hs; cbn [popStack].
  - destruct stack; [|cbn in Hn; lia]. repeat split; auto; constructor.
  - destruct (last stack) as [top|] eqn:El.
    + apply last_Some_snoc in El. rewrite El in Hs.
      apply StronglySorted_snoc_inv in Hs as [Hs Htop].
      destruct (level <=? Level top) eqn:E.
      * destruct (IH (removelast stack) level) as (S1 & F1 & I1); auto.
        { rewrite El, length_app in Hn. cbn in Hn. lia. }
        repeat split; auto. intros h Hh. rewrite El. apply in_or_app. auto.
      * split; [rewrite El; now apply StronglySorted_snoc|]. split; auto.
        rewrite El. apply Forall_app. split.
        -- eapply Forall_impl; [exact Htop|]. cbn beta. intros; lia.
        -- constructor; [lia|constructor].
    + destruct stack as [|a l]; [repeat split; auto; constructor|].
      exfalso. clear -El. revert a El. induction l as [|b l IH]; intros a El.
      * discriminate.
      * apply (IH b). exact El.
Qed.

Lemma headingStack_sorted headings position : forall stack,
  StronglySorted (fun a b => Level a < Level b) stack ->
  StronglySorted (fun a b => Level a < Level b) (headingStack headings position stack) /\
  (forall h, In h (headingStack headings position stack) -> In h stack \/ In h headings).
Proof.
  induction headings as [|heading rest IH]; intros stack Hs; cbn [headingStack].
  - auto.
  - destruct (position <=? Position heading); [auto|].
    destruct (popStack_below (length stack) stack (Level heading) ltac:(lia) Hs)
      as (S1 & F1 & I1).
    destruct (IH (popStack (length stack) stack (Level heading) ++ [heading]))
      as [S2 I2].
    { now apply StronglySorted_snoc. }
    split; auto. intros h Hh. apply I2 in Hh as [Hh|Hh]; [|right; now right].
    apply in_app_or in Hh as [Hh|[<-|[]]]; [left; auto|right; now left].
Qed.

(** Levels that increase strictly between 1 and 6 are at most six. *)
Lemma sorted_levels_length stack :
  StronglySorted (fun a b => Level a < Level b) stack ->
  Forall (fun h => 1 <= Level h <= 6) stack ->
  forall lo, Forall (fun h => lo <= Level h) stack -> lo <= 7 ->
  Z.of_nat (length stack) <= 7 - lo.
Proof.
  induction 1 as [|a l Hs IH Ha]; intros Hr lo Hlo H7; cbn [length]; [lia|].
  inversion Hr as [|? ? Hra Hrl]; subst. inversion Hlo as [|? ? Hla Hll]; subst.
  specialize (IH Hrl (Level a + 1)).
  assert (F : Forall (fun h => Level a + 1 <= Level h) l).
  { eapply Forall_impl; [exact Ha|]. cbn beta. intros; lia. }
  specialize (IH F ltac:(lia)). lia.
Qed.

(** ** The records of the chunks *)

Lemma substring_all s : String.substring 0 (String.length s) s = s.
Proof.
  induction s as [|c s IH]; [reflexivity|].
  cbn [String.length String.substring]. now rewrite IH.
Qed.

Lemma slice_all s : slice s 0 (len s) = Some s.
Proof.
  unfold slice. pose proof (len_nonneg s).
  assert (E : ((0 <=? 0) && (0 <=? len s) && (len s <=? len s)) = true) by lia.
  rewrite E. f_equal. rewrite Z.sub_0_r. unfold len. rewrite Nat2Z.id.
  apply substring_all.
Qed.

(** No heading lies before the start of the document. *)
Lemma GetHeadingContext_at_start content :
  len content < Int.max_int ->
  GetHeadingContext (ExtractHeadings content) 0 = [].
Proof.
  intros Hfit. destruct (ExtractHeadings_spec content Hfit) as [F _].
  unfold GetHeadingContext. destruct (ExtractHeadings content) as [|h rest];
    [reflexivity|].
  inversion F as [|? ? (_ & Hp & _) _]; subst. cbn [headingStack].
  assert (E : (0 <=? Position h) = true) by lia. now rewrite E.
Qed.

Lemma append_inj_l (a b c : string) : (a ++ b)%string = (a ++ c)%string -> b = c.
Proof.
  induction a as [|x a IH]; [auto|]. rewrite !append_cons. intros [= H]. auto.
Qed.

(** [strconv.Itoa] writes different numbers differently. *)
Lemma string_of_int_inj a b :
  NilEmpty.string_of_int (Z.to_int a) = NilEmpty.string_of_int (Z.to_int b) -> a = b.
Proof.
  intros H.
  pose proof (NilEmpty.isi (Z.to_int a)) as Ha.
  pose proof (NilEmpty.isi (Z.to_int b)) as Hb.
  rewrite H in Ha. rewrite Ha in Hb. injection Hb as Hb.
  rewrite <- (DecimalZ.of_to a), <- (DecimalZ.of_to b).
  now rewrite Hb.
Qed.

Lemma chunkID_inj fileHash a b : chunkID fileHash a = chunkID fileHash b -> a = b.
Proof.
  unfold chunkID. intros H. apply append_inj_l in H. apply append_inj_l in H.
  now apply string_of_int_inj.
Qed.

Section ChunkerRecords.

Variables (filePath content fileHash : string).
Variable approxTokensPerChar : float.
Variables (maxChunkChars overlapChars : Z).

Local Abbreviation record := (chunkRecord filePath content fileHash approxTokensPerChar).
Local Abbreviation records :=
  (fun chunks : list DocumentChunk =>
     forall (i : nat) c, chunks !! i = Some c -> record i c).

Lemma records_snoc chunks c :
  records chunks -> record (length chunks) c -> records (chunks ++ [c]).
Proof.
  intros Hr Hc i k Hi. apply lookup_app_Some in Hi as [Hi|[Hge Hi]]; [auto|].
  apply list_lookup_singleton_Some in Hi as [Hi <-].
  replace i with (length chunks) by lia. exact Hc.
Qed.

Lemma mkChunk_record (i : nat) start bestEnd k :
  slice content start bestEnd = Some k ->
  record i (mkChunk filePath fileHash approxTokensPerChar (ExtractHeadings content)
              (Z.of_nat i) start bestEnd k).
Proof. intros Hk. unfold chunkRecord. cbn. auto 10. Qed.

(** The loop counts the chunks with [chunkIndex] and never past 1001. *)
Lemma chunkLoop_records fuel res :
  chunkLoop filePath content fileHash approxTokensPerChar (ExtractHeadings content)
    maxChunkChars overlapChars fuel 0 0 [] = Done res ->
  (length res <= 1001)%nat /\ records res.
Proof.
  apply (chunkLoop_invariant filePath content fileHash approxTokensPerChar
           (ExtractHeadings content) maxChunkChars overlapChars
           (fun (s i : Z) c => i = Z.of_nat (length c) /\ i <= 1001 /\ records c)
           (fun res => (length res <= 1001)%nat /\ records res)).
  - intros s i c c' (Hi & Hcap & Hr) H.
    apply chunkStep_Break in H as [[-> _]|(_ & Hi' & k & Hk & _ & -> & _)].
    + split; [lia|exact Hr].
    + split; [rewrite length_app; cbn [length]; lia|].
      apply records_snoc; auto. subst i. now apply mkChunk_record.
  - intros s i c s' i' c' (Hi & Hcap & Hr) H.
    apply chunkStep_Continue in H as (_ & Hi' & k & Hk & H).
    destruct H as [(_ & _ & -> & ->)|(_ & _ & _ & _ & -> & ->)]; [auto|].
    rewrite add_id by int_range. rewrite length_app. cbn [length].
    split; [lia|]. split; [lia|].
    apply records_snoc; auto. subst i. now apply mkChunk_record.
  - split; [reflexivity|]. split; [lia|]. intros i c Hi. discriminate.
Qed.

End ChunkerRecords.

(** X1.  Whatever [ChunkDocument] returns, on either path, the fields of
    each chunk agree: the chunk at index [i] of the result has
    [ChunkIndex = i] and [ID = fileHash_i], the file path and hash of the
    call, [Content = content[StartOffset:EndOffset]], the token estimate of
    its own content, and the heading context at its start offset, of at most
    six headings.  There are at most 1001 chunks, and no two of them share
    an [ID]. *)
Theorem ChunkDocument_records (fuel : nat) (filePath content fileHash : string)
    (maxTokensPerChunk chunkOverlapPercent : Z) (approxTokensPerChar : float)
    (chunks : list DocumentChunk) :
  len content < Int.max_int ->
  ChunkDocument fuel filePath content fileHash maxTokensPerChunk
    chunkOverlapPercent approxTokensPerChar = Done chunks ->
  (length chunks <= 1001)%nat /\
  (forall (i : nat) c, chunks !! i = Some c ->
     chunkRecord filePath content fileHash approxTokensPerChar i c /\
     (length (HeadingPath c) <= 6)%nat) /\
  (forall (i j : nat) ci cj,
     chunks !! i = Some ci -> chunks !! j = Some cj -> ID ci = ID cj -> i = j).
Proof.
  intros Hfit Hrun.
  assert (H : (length chunks <= 1001)%nat /\
              forall (i : nat) c, chunks !! i = Some c ->
                chunkRecord filePath content fileHash approxTokensPerChar i c).
  { revert Hrun. unfold ChunkDocument.
    destruct (EstimateTokenCount content approxTokensPerChar <=? maxTokensPerChunk).
    - intros [= <-]. split; [cbn; lia|].
      intros [|i] c; [|discriminate]. intros [= <-].
      unfold chunkRecord. cbn.
      rewrite slice_all, GetHeadingContext_at_start by assumption. auto 10.
    - apply chunkLoop_records. }
  destruct H as [Hlen Hrec]. split; [exact Hlen|]. split.
  - intros i c Hi. split; [auto|].
    destruct (Hrec i c Hi) as (_ & _ & _ & _ & _ & _ & ->).
    unfold GetHeadingContext. rewrite length_map.
    destruct (headingStack_sorted (ExtractHeadings content) (StartOffset c) [])
      as [Hs Hin]; [constructor|].
    pose proof (sorted_levels_length _ Hs) as Hb.
    assert (F : Forall (fun h => 1 <= Level h <= 6)
                  (headingStack (ExtractHeadings content) (StartOffset c) [])).
    { apply List.Forall_forall. intros h Hh. apply Hin in Hh as [[]|Hh].
      pose proof (extractFrom_levels (Strings.SplitLines content) 0) as L.
      rewrite List.Forall_forall in L. now apply L. }
    specialize (Hb F 1). 
    assert (F1 : Forall (fun h => 1 <= Level h)
                   (headingStack (ExtractHeadings content) (StartOffset c) [])).
    { eapply Forall_impl; [exact F|]. cbn beta. intros; lia. }
    specialize (Hb F1 ltac:(lia)). lia.
  - intros i j ci cj Hi Hj E.
    destruct (Hrec i ci Hi) as (_ & Ei & _). destruct (Hrec j cj Hj) as (_ & Ej & _).
    rewrite Ei, Ej in E. apply chunkID_inj in E. lia.
Qed.

Lemma ChunkDocument_records_witness :
  exists chunks,
    ChunkDocument 5 "/doc.md" headingAtIdealEnd "h" 2 0 0.25 = Done chunks /\
    (length chunks <= 1001)%nat /\
    (forall (i : nat) c, chunks !! i = Some c ->
       chunkRecord "/doc.md" headingAtIdealEnd "h" 0.25 i c /\
       (length (HeadingPath c) <= 6)%nat) /\
    (forall (i j : nat) ci cj,
       chunks !! i = Some ci -> chunks !! j = Some cj -> ID ci = ID cj -> i = j).
Proof.
  eexists. split; [vm_compute; reflexivity|].
  apply (ChunkDocument_records 5 "/doc.md" headingAtIdealEnd "h" 2 0 0.25).
  - vm_compute. reflexivity.
  - vm_compute. reflexivity.
Defined.

(** ** The headings of a document *)

(** X2.  [ExtractHeadings] returns headings of level 1 to 6; their
    positions are offsets of line starts inside the content (0, or the byte
    after a newline) and increase strictly, in document order. *)
Theorem ExtractHeadings_order (content : string) :
  Forall (fun h => 1 <= Level h <= 6) (ExtractHeadings content) /\
  (len content < Int.max_int ->
   Forall (fun h => 0 <= Position h < len content /\ lineStart content (Position h))
          (ExtractHeadings content) /\
   StronglySorted (fun a b => Position a < Position b) (ExtractHeadings content)).
Proof.
  split; [apply extractFrom_levels|].
  intros Hfit. destruct (ExtractHeadings_spec content Hfit) as [F S].
  split; [|exact S]. eapply Forall_impl; [exact F|]. cbn beta. tauto.
Qed.

(** X3.  The stack of [GetHeadingContext] holds headings of the list with
    strictly increasing levels, outermost first; on levels 1 to 6 the path
    has at most six entries, and so has every path over the headings of a
    document. *)
Theorem GetHeadingContext_nesting (headings : list HeadingInfo) (position : Z) :
  StronglySorted (fun a b => Level a < Level b) (headingStack headings position []) /\
  (forall h, In h (headingStack headings position []) -> In h headings) /\
  (Forall (fun h => 1 <= Level h <= 6) headings ->
   (length (GetHeadingContext headings position) <= 6)%nat) /\
  (forall content,
     (length (GetHeadingContext (ExtractHeadings content) position) <= 6)%nat).
Proof.
  assert (G : forall hs,
    Forall (fun h => 1 <= Level h <= 6) hs ->
    (length (GetHeadingContext hs position) <= 6)%nat).
  { intros hs F. unfold GetHeadingContext. rewrite length_map.
    destruct (headingStack_sorted hs position []) as [Hs Hin]; [constructor|].
    assert (F' : Forall (fun h => 1 <= Level h <= 6) (headingStack hs position [])).
    { apply List.Forall_forall. intros h Hh. apply Hin in Hh as [[]|Hh].
      rewrite List.Forall_forall in F. now apply F. }
    pose proof (sorted_levels_length _ Hs F' 1) as Hb.
    assert (F1 : Forall (fun h => 1 <= Level h) (headingStack hs position [])).
    { eapply Forall_impl; [exact F'|]. cbn beta. intros; lia. }
    specialize (Hb F1 ltac:(lia)). lia. }
  destruct (headingStack_sorted headings position []) as [Hs Hin]; [constructor|].
  split; [exact Hs|]. split.
  - intros h Hh. apply Hin in Hh as [[]|Hh]. exact Hh.
  - split; [apply G|]. intros content. apply G. apply extractFrom_levels.
Qed.

(** ** FindBestSplitPoint: where the cut falls *)

(** X4.  For a target inside the text, the cut of [FindBestSplitPoint]
    is right after a boundary byte (sentence punctuation, newline or space)
    found at most 300 bytes before the target; or, when none of the four
    scans finds its boundary, the target itself.  In that case, among the
    offsets [1 .. maxPos] that the scans visit (every scan stops at [i > 0],
    so the byte at offset 0 is never tested as a boundary), no newline lies
    in the last 100 and no space in the last 50. *)
Theorem FindBestSplitPoint_cut (text : string) (maxPos : Z) :
  0 < maxPos < len text -> maxPos <= Int.max_int ->
  (boundaryByte text (FindBestSplitPoint text maxPos - 1) = true /\
   maxPos - 300 < FindBestSplitPoint text maxPos <= maxPos + 1) \/
  (FindBestSplitPoint text maxPos = maxPos /\
   forall j, 0 < j <= maxPos ->
     (maxPos - 100 < j -> byte_is text j newline = false) /\
     (maxPos - 50 < j -> byte_is text j space = false)).
Proof.
  intros H Hfit. unfold FindBestSplitPoint.
  assert (E : (len text <=? maxPos) = false) by (apply Z.leb_gt; lia). rewrite E.
  unfold Int.sub. rewrite !int64_id by int_range.
  destruct (scanDown (sentenceEnd text) _ _) eqn:S1.
  { apply scanDown_Some in S1 as (i & Hi & Hb & Ht & _).
    apply sentenceEnd_Some in Ht as [-> Hbyte]. left.
    replace (i + 1 - 1) with i by lia. split; [exact Hbyte|lia]. }
  destruct (scanDown (paragraphBreak text) _ _) eqn:S2.
  { apply scanDown_Some in S2 as (i & Hi & Hb & Ht & _).
    apply paragraphBreak_Some in Ht as (-> & _ & Hprev). left.
    split; [|lia]. unfold boundaryByte. rewrite Hprev. now rewrite !orb_true_r. }
  destruct (scanDown (lineBreak text) _ _) eqn:S3.
  { apply scanDown_Some in S3 as (i & Hi & Hb & Ht & _).
    apply lineBreak_Some in Ht as [-> Hbyte]. left.
    replace (i + 1 - 1) with i by lia. split; [exact Hbyte|lia]. }
  destruct (scanDown (wordBreak text) _ _) eqn:S4.
  { apply scanDown_Some in S4 as (i & Hi & Hb & Ht & _).
    apply wordBreak_Some in Ht as [-> Hbyte]. left.
    replace (i + 1 - 1) with i by lia. split; [exact Hbyte|lia]. }
  right. split; [reflexivity|]. intros j Hj. split; intros Hw.
  - pose proof (scanDown_None _ _ _ S3 j ltac:(lia) ltac:(lia)) as N3.
    unfold lineBreak in N3.
    destruct (byte_is text j newline); [discriminate|reflexivity].
  - pose proof (scanDown_None _ _ _ S4 j ltac:(lia) ltac:(lia)) as N4.
    unfold wordBreak in N4.
    destruct (byte_is text j space); [discriminate|reflexivity].
Qed.

Lemma FindBestSplitPoint_cut_witness :
  (boundaryByte "Hello world. This is a test. More text here."
     (FindBestSplitPoint "Hello world. This is a test. More text here." 30 - 1) = true /\
   30 - 300 < FindBestSplitPoint "Hello world. This is a test. More text here." 30
     <= 30 + 1) \/
  (FindBestSplitPoint "Hello world. This is a test. More text here." 30 = 30 /\
   forall j, 0 < j <= 30 ->
     (30 - 100 < j ->
      byte_is "Hello world. This is a test. More text here." j newline = false) /\
     (30 - 50 < j ->
      byte_is "Hello world. This is a test. More text here." j space = false)).
Proof.
  apply (FindBestSplitPoint_cut "Hello world. This is a test. More text here." 30).
  - split; reflexivity.
  - vm_compute. discriminate.
Defined.

(** The byte at offset 0 is outside every scan: a space there is no place
    to cut, and the target itself comes back. *)
Example FindBestSplitPoint_offset_zero :
  byte_is " abc" 0 space = true /\ FindBestSplitPoint " abc" 2 = 2.
Proof. split; reflexivity. Qed.

(** ** ChunkDocument: the size of a chunk and the step between chunks *)

Lemma substring_length s : forall n m,
  (n + m <= String.length s)%nat -> String.length (String.substring n m s) = m.
Proof.
  induction s as [|c s IH]; intros n m H; cbn [String.length] in H.
  - destruct n, m; try lia; reflexivity.
  - destruct n as [|n]; cbn [String.substring].
    + destruct m as [|m]; [reflexivity|]. cbn [String.length]. rewrite IH; lia.
    + apply IH. lia.
Qed.

Lemma slice_len s lo hi k : slice s lo hi = Some k -> len k = hi - lo.
Proof.
  intros H. pose proof (slice_Some s lo hi k H) as Hb. revert H. unfold slice.
  destruct ((0 <=? lo) && (lo <=? hi) && (hi <=? len s)); [|discriminate].
  intros [= <-]. unfold len in *. rewrite substring_length; lia.
Qed.

(** A cut is at most one byte past [start + maxChunkChars]. *)
Lemma chunkEnd_size content headings maxChunkChars start :
  0 < maxChunkChars -> len content + maxChunkChars <= Int.max_int ->
  0 <= start < len content ->
  chunkEnd content headings maxChunkChars start <= start + maxChunkChars + 1.
Proof.
  intros Hmax Hfit Hs. unfold chunkEnd.
  rewrite (add_id start maxChunkChars), (add_id start (maxChunkChars ÷ 2)),
    (sub_id (len content) start) by int_range.
  set (idealEnd := start + maxChunkChars).
  pose proof (headingCut_cases headings (start + maxChunkChars ÷ 2) idealEnd) as Hc.
  set (b0 := headingCut headings _ idealEnd) in *.
  assert (H1 : (if b0 =? idealEnd then FindBestSplitPoint content idealEnd else b0)
               <= idealEnd + 1).
  { destruct (b0 =? idealEnd) eqn:E0; [|lia].
    destruct (Z_lt_le_dec idealEnd (len content)) as [Hlt|Hge].
    - pose proof (FindBestSplitPoint_upper content idealEnd ltac:(lia)). lia.
    - rewrite FindBestSplitPoint_past_end by lia. lia. }
  set (b1 := if b0 =? idealEnd then FindBestSplitPoint content idealEnd else b0) in *.
  destruct (len content <? b1) eqn:E1.
  - destruct (len content <=? start) eqn:E2; [lia|]. lia.
  - destruct (b1 <=? start) eqn:E2; [|lia].
    unfold Min. destruct (maxChunkChars <? len content - start) eqn:E';
      rewrite add_id by int_range; lia.
Qed.

(** X5.  On the chunking path, with a positive [maxChunkChars], the loop
    returns and every chunk holds at least one byte and at most
    [maxChunkChars + 1] bytes: the cut may fall one byte past the target,
    behind a boundary byte found at the target itself. *)
Theorem ChunkDocument_chunk_size (filePath content fileHash : string)
    (maxTokensPerChunk chunkOverlapPercent : Z) (approxTokensPerChar : float) :
  maxTokensPerChunk < EstimateTokenCount content approxTokensPerChar ->
  0 < maxChunkCharsOf maxTokensPerChunk approxTokensPerChar ->
  len content + maxChunkCharsOf maxTokensPerChunk approxTokensPerChar <= Int.max_int ->
  exists chunks,
    ChunkDocument_returns filePath content fileHash maxTokensPerChunk
      chunkOverlapPercent approxTokensPerChar chunks /\
    Forall (fun c =>
              len (Content c) = EndOffset c - StartOffset c /\
              0 < len (Content c)
                <= maxChunkCharsOf maxTokensPerChunk approxTokensPerChar + 1)
           chunks.
Proof.
  intros Hest Hmax Hfit.
  assert (E : (EstimateTokenCount content approxTokensPerChar <=? maxTokensPerChunk) = false)
    by lia.
  set (maxChunkChars := maxChunkCharsOf maxTokensPerChunk approxTokensPerChar) in *.
  set (overlapChars := overlapCharsOf maxChunkChars chunkOverlapPercent) in *.
  destruct (chunkLoop_terminates filePath content fileHash approxTokensPerChar
              (ExtractHeadings content) maxChunkChars overlapChars
              Hmax Hfit (S (Z.to_nat (len content) + 1001)) 0 0 [])
    as [res Hres]; try lia.
  exists res. split.
  { exists (S (Z.to_nat (len content) + 1001)). unfold ChunkDocument. now rewrite E. }
  revert Hres.
  assert (Hmk : forall s i k,
    0 <= s < len content ->
    slice content s (chunkEnd content (ExtractHeadings content) maxChunkChars s) = Some k ->
    let c := mkChunk filePath fileHash approxTokensPerChar (ExtractHeadings content)
               i s (chunkEnd content (ExtractHeadings content) maxChunkChars s) k in
    len (Content c) = EndOffset c - StartOffset c /\
    0 < len (Content c) <= maxChunkChars + 1).
  { intros s i k Hs Hk. cbn [mkChunk Content EndOffset StartOffset].
    pose proof (slice_len _ _ _ _ Hk) as Hl.
    pose proof (chunkEnd_bounds content (ExtractHeadings content) maxChunkChars
                  Hmax Hfit s Hs).
    pose proof (chunkEnd_size content (ExtractHeadings content) maxChunkChars s
                  Hmax Hfit Hs).
    lia. }
  apply chunkLoop_invariant with
    (Inv := fun s (_ : Z) c =>
              0 <= s /\
              Forall (fun c => len (Content c) = EndOffset c - StartOffset c /\
                               0 < len (Content c) <= maxChunkChars + 1) c).
  - intros s i c c' (Hs & Hall) H.
    apply chunkStep_Break in H as [[-> _]|(Hlt & _ & k & Hk & _ & -> & _)]; auto.
    apply Forall_app. split; [exact Hall|].
    constructor; [apply Hmk; [lia|exact Hk] | constructor].
  - intros s i c s' i' c' (Hs & Hall) H.
    apply chunkStep_Continue in H as (Hlt & _ & k & Hk & H).
    pose proof (chunkEnd_bounds content (ExtractHeadings content) maxChunkChars
                  Hmax Hfit s ltac:(lia)) as Hbnd.
    destruct H as [(_ & -> & _ & ->)|(_ & _ & -> & _ & _ & ->)].
    + split; [lia|auto].
    + pose proof (nextStartAfter_floor content maxChunkChars overlapChars
                    Hmax Hfit s
                    (chunkEnd content (ExtractHeadings content) maxChunkChars s)
                    ltac:(lia)) as Hfl.
      split; [lia|]. apply Forall_app. split; [exact Hall|].
      constructor; [apply Hmk; [lia|exact Hk] | constructor].
  - split; [lia|constructor].
Qed.

Lemma ChunkDocument_chunk_size_witness :
  exists chunks,
    ChunkDocument_returns "/doc.md" headingAtIdealEnd "h" 2 0 0.25 chunks /\
    Forall (fun c =>
              len (Content c) = EndOffset c - StartOffset c /\
              0 < len (Content c) <= maxChunkCharsOf 2 0.25 + 1)
           chunks.
Proof.
  apply (ChunkDocument_chunk_size "/doc.md" headingAtIdealEnd "h" 2 0 0.25).
  - vm_compute. reflexivity.
  - vm_compute. reflexivity.
  - vm_compute. discriminate.
Defined.

Lemma stepsBy_snoc d chunks k :
  stepsBy d chunks ->
  (forall c, last chunks = Some c -> StartOffset c + d <= StartOffset k) ->
  stepsBy d (chunks ++ [k]).
Proof.
  intros Hst Hlast i ci cj Hi Hj.
  apply lookup_app_Some in Hj as [Hj|[Hge Hj]].
  - apply (Hst i ci cj); auto.
    apply lookup_app_Some in Hi as [Hi|[Hge _]]; auto.
    apply lookup_lt_Some in Hj. lia.
  - apply list_lookup_singleton_Some in Hj as [Hj0 <-].
    apply Hlast. apply lookup_app_Some in Hi as [Hi|[Hge' Hi]].
    + rewrite last_lookup. replace (Nat.pred (length chunks)) with i by lia. exact Hi.
    + apply list_lookup_singleton_Some in Hi as [Hi0 _]. lia.
Qed.

(** X6.  On the chunking path, with at least ten bytes to a chunk, the
    loop returns, each chunk starts at least [maxChunkChars / 10] bytes
    after the one before it, whatever the overlap, and the start offsets
    increase strictly. *)
Theorem ChunkDocument_minimum_step (filePath content fileHash : string)
    (maxTokensPerChunk chunkOverlapPercent : Z) (approxTokensPerChar : float) :
  maxTokensPerChunk < EstimateTokenCount content approxTokensPerChar ->
  10 <= maxChunkCharsOf maxTokensPerChunk approxTokensPerChar ->
  len content + maxChunkCharsOf maxTokensPerChunk approxTokensPerChar <= Int.max_int ->
  exists chunks,
    ChunkDocument_returns filePath content fileHash maxTokensPerChunk
      chunkOverlapPercent approxTokensPerChar chunks /\
    stepsBy (maxChunkCharsOf maxTokensPerChunk approxTokensPerChar ÷ 10) chunks /\
    increasingStarts chunks.
Proof.
  intros Hest Hbig Hfit.
  assert (E : (EstimateTokenCount content approxTokensPerChar <=? maxTokensPerChunk) = false)
    by lia.
  set (maxChunkChars := maxChunkCharsOf maxTokensPerChunk approxTokensPerChar) in *.
  set (overlapChars := overlapCharsOf maxChunkChars chunkOverlapPercent) in *.
  destruct (chunkLoop_terminates filePath content fileHash approxTokensPerChar
              (ExtractHeadings content) maxChunkChars overlapChars
              ltac:(lia) Hfit (S (Z.to_nat (len content) + 1001)) 0 0 [])
    as [res Hres]; try lia.
  exists res. split.
  { exists (S (Z.to_nat (len content) + 1001)). unfold ChunkDocument. now rewrite E. }
  revert Hres.
  apply chunkLoop_invariant with
    (Inv := fun s (_ : Z) c =>
              0 <= s /\ stepsBy (maxChunkChars ÷ 10) c /\
              (forall k, last c = Some k -> StartOffset k + maxChunkChars ÷ 10 <= s) /\
              (forall k, last c = Some k -> StartOffset k < s) /\
              increasingStarts c /\ Forall (fun k => StartOffset k < s) c)
    (Post := fun res => stepsBy (maxChunkChars ÷ 10) res /\ increasingStarts res).
  - intros s i c c' (Hs & Hst & Hl & Hl' & Hinc & Hall) H.
    apply chunkStep_Break in H as [[-> _]|(Hlt & _ & k & _ & _ & -> & _)];
      [split; assumption|].
    split; [apply stepsBy_snoc; auto|apply increasingStarts_snoc; auto].
  - intros s i c s' i' c' (Hs & Hst & Hl & Hl' & Hinc & Hall) H.
    apply chunkStep_Continue in H as (Hlt & _ & k & _ & H).
    pose proof (chunkEnd_bounds content (ExtractHeadings content) maxChunkChars
                  ltac:(lia) Hfit s ltac:(lia)) as Hbnd.
    destruct H as [(_ & -> & _ & ->)|(_ & _ & -> & _ & _ & ->)].
    + split; [lia|]. split; [auto|]. split; [intros k' Hk'; specialize (Hl k' Hk'); lia|].
      split; [intros k' Hk'; specialize (Hl' k' Hk'); lia|]. split; [auto|].
      eapply Forall_impl; [exact Hall|]. cbn. intros; lia.
    + pose proof (nextStartAfter_floor content maxChunkChars overlapChars
                    ltac:(lia) Hfit s
                    (chunkEnd content (ExtractHeadings content) maxChunkChars s)
                    ltac:(lia)) as Hfl.
      split; [lia|]. split; [apply stepsBy_snoc; auto|].
      split; [intros k' Hk'; rewrite last_snoc in Hk'; injection Hk' as <-;
              cbn [StartOffset mkChunk]; lia|].
      split; [intros k' Hk'; rewrite last_snoc in Hk'; injection Hk' as <-;
              cbn [StartOffset mkChunk]; lia|].
      split; [apply increasingStarts_snoc; auto|].
      apply Forall_app. split.
      * eapply Forall_impl; [exact Hall|]. cbn. intros; lia.
      * constructor; [|constructor]. cbn. lia.
  - split; [lia|]. split; [intros i ci cj Hi; discriminate|].
    split; [intros k Hk; discriminate|]. split; [intros k Hk; discriminate|].
    split; [intros i j ci cj Hi; discriminate|constructor].
Qed.

Lemma ChunkDocument_minimum_step_witness :
  exists chunks,
    ChunkDocument_returns "/test/large.md" largeDocument "def456" 4000 15 0.25 chunks /\
    stepsBy (maxChunkCharsOf 4000 0.25 ÷ 10) chunks /\
    increasingStarts chunks.
Proof.
  apply (ChunkDocument_minimum_step "/test/large.md" largeDocument "def456" 4000 15 0.25).
  - vm_compute. reflexivity.
  - vm_compute. discriminate.
  - vm_compute. discriminate.
Defined.

(** X7.  A turn of the loop that starts at [start] ends its chunk at the
    position of a heading when that heading lies in the second half of the
    window ([start + maxChunkChars/2 < Position <= start + maxChunkChars]),
    has the smallest level among the headings there (the earliest one of
    that level), and is not exactly at [start + maxChunkChars]. *)
Theorem chunkEnd_at_heading (content : string) (before : list HeadingInfo)
    (h : HeadingInfo) (after : list HeadingInfo) (maxChunkChars start : Z) :
  0 < maxChunkChars -> len content + maxChunkChars <= Int.max_int ->
  0 <= start < len content ->
  qualifies start maxChunkChars h -> Level h < 7 ->
  (forall h', In h' before -> qualifies start maxChunkChars h' -> Level h < Level h') ->
  (forall h', In h' after -> qualifies start maxChunkChars h' -> Level h <= Level h') ->
  Position h <> start + maxChunkChars -> Position h <= len content ->
  chunkEnd content (before ++ h :: after) maxChunkChars start = Position h.
Proof. apply chunkEnd_heading. Qed.

Lemma chunkEnd_at_heading_witness :
  chunkEnd headingAtIdealEnd
    ([] ++ {| Level := 1; Text := "H"; Position := 8 |} :: []) 10 0 = 8.
Proof.
  apply (chunkEnd_at_heading headingAtIdealEnd []
           {| Level := 1; Text := "H"; Position := 8 |} [] 10 0).
  - lia.
  - vm_compute. discriminate.
  - split; [lia|vm_compute; reflexivity].
  - unfold qualifies. cbn [Position]. split; [vm_compute; reflexivity|lia].
  - cbn [Level]. lia.
  - intros h' [].
  - intros h' [].
  - cbn [Position]. lia.
  - vm_compute. discriminate.
Defined.

(** ** tokenize *)

Section TokenizerFacts.

Context {tables : UnicodeTables}.

Lemma keepToken_Forall (P : string -> Prop) tokens current :
  (negb (isStopWord current) && (1 <? len current) = true -> P current) ->
  Forall P tokens -> Forall P (keepToken tokens current).
Proof.
  intros Hc Ht. unfold keepToken.
  destruct (negb (isStopWord current) && (1 <? len current)) eqn:E; [|exact Ht].
  apply Forall_app. split; [exact Ht|]. constructor; [exact (Hc eq_refl)|constructor].
Qed.

Lemma tokenizeRunes_kept rs : forall tokens current,
  Forall (fun t => 1 < len t /\ isStopWord t = false) tokens ->
  Forall (fun t => 1 < len t /\ isStopWord t = false)
         (tokenizeRunes rs tokens current).
Proof.
  assert (K : forall tokens current,
    Forall (fun t => 1 < len t /\ isStopWord t = false) tokens ->
    Forall (fun t => 1 < len t /\ isStopWord t = false) (keepToken tokens current)).
  { intros tokens current. apply keepToken_Forall. intros E.
    apply andb_prop in E as [E1 E2]. apply negb_true_iff in E1.
    split; [lia|exact E1]. }
  induction rs as [|r rs IH]; intros tokens current Ht; cbn [tokenizeRunes].
  - destruct (0 <? len current); [apply K|]; exact Ht.
  - destruct (IsLetter r || IsDigit r); [apply IH; exact Ht|].
    destruct (0 <? len current); apply IH; [apply K|]; exact Ht.
Qed.

End TokenizerFacts.

(** X8.  Every token that [tokenize] returns has at least two bytes and is
    no stop word, whatever the text. *)
Theorem tokenize_kept {tables : UnicodeTables} (text : string) :
  Forall (fun t => 1 < len t /\ isStopWord t = false) (tokenize text).
Proof. unfold tokenize. apply tokenizeRunes_kept. constructor. Qed.

(** *** ASCII text *)

Lemma allBytes_impl (p q : ascii -> bool) s :
  (forall c, p c = true -> q c = true) -> allBytes p s = true -> allBytes q s = true.
Proof.
  intros H. induction s as [|c s IH]; cbn [allBytes]; auto.
  intros E. apply andb_prop in E as [E1 E2]. now rewrite (H c E1), IH.
Qed.

Lemma allBytes_append p a b :
  allBytes p (a ++ b) = allBytes p a && allBytes p b.
Proof.
  induction a as [|c a IH]; [reflexivity|].
  rewrite append_cons. cbn [allBytes]. now rewrite IH, andb_assoc.
Qed.

Lemma byteVal_range c : 0 <= byteVal c < 256.
Proof.
  unfold byteVal. pose proof (nat_ascii_bounded c). lia.
Qed.

Lemma byteVal_byteOf z : 0 <= z < 256 -> byteVal (byteOf z) = z.
Proof.
  intros H. unfold byteVal, byteOf. rewrite Z.mod_small by lia.
  rewrite nat_ascii_embedding by lia. lia.
Qed.

(** The bytes of a lowered ASCII text: ASCII, and no capital letter. *)
Lemma ToLower_ascii {tables : UnicodeTables} text :
  asciiText text = true ->
  allBytes (fun c => (byteVal c <? 128)
                     && negb ((65 <=? byteVal c) && (byteVal c <=? 90)))
           (ToLower text) = true.
Proof.
  unfold asciiText, ToLower. intros H. rewrite H. revert H.
  induction text as [|c s IH]; [reflexivity|].
  cbn [allBytes mapBytes]. intros E. apply andb_prop in E as [E1 E2].
  rewrite IH by exact E2. rewrite andb_true_r.
  pose proof (byteVal_range c).
  destruct ((65 <=? byteVal c) && (byteVal c <=? 90)) eqn:U.
  - rewrite byteVal_byteOf by lia. lia.
  - rewrite E1, U. reflexivity.
Qed.

Lemma runesOf_ascii s :
  asciiText s = true -> runesOf s = map byteVal (list_ascii_of_string s).
Proof.
  unfold runesOf, asciiText. induction s as [|c s IH]; [reflexivity|].
  cbn [allBytes]. intros E. apply andb_prop in E as [E1 E2].
  cbn [String.length runesFrom list_ascii_of_string map].
  cbn [decodeRune]. rewrite E1. cbn [dropBytes]. now rewrite IH.
Qed.

Lemma encodeRune_ascii r :
  0 <= r < 128 -> encodeRune r = String (byteOf r) EmptyString.
Proof.
  intros H. unfold encodeRune.
  assert (E1 : ((r <? 0) || (1114111 <? r) || ((55296 <=? r) && (r <=? 57343))) = false)
    by lia.
  rewrite E1. assert (E2 : (r <=? 127) = true) by lia. now rewrite E2.
Qed.

Section AsciiTokens.

Context {tables : UnicodeTables}.

Hypothesis tables_ascii : forall r, 0 <= r < 128 ->
  IsLetter r = @IsLetter asciiTables r /\ IsDigit r = @IsDigit asciiTables r.

Lemma tokenizeRunes_tables rs : forall tokens current,
  Forall (fun r => 0 <= r < 128) rs ->
  tokenizeRunes rs tokens current
  = @tokenizeRunes asciiTables rs tokens current.
Proof.
  induction rs as [|r rs IH]; intros tokens current F; [reflexivity|].
  inversion F as [|? ? Hr Hrs]; subst. cbn [tokenizeRunes].
  destruct (tables_ascii r Hr) as [-> ->].
  destruct (IsLetter r || IsDigit r); [apply IH; exact Hrs|].
  destruct (0 <? len current); apply IH; exact Hrs.
Qed.

Lemma tokenizeRunes_lower rs : forall tokens current,
  Forall (fun r => 0 <= r < 128 /\ ~ 65 <= r <= 90) rs ->
  Forall (fun t => allBytes lowerAlnum t = true) tokens ->
  allBytes lowerAlnum current = true ->
  Forall (fun t => allBytes lowerAlnum t = true)
         (@tokenizeRunes asciiTables rs tokens current).
Proof.
  induction rs as [|r rs IH]; intros tokens current F Ht Hc; cbn [tokenizeRunes].
  - destruct (0 <? len current); [|exact Ht].
    apply keepToken_Forall; [intros _; exact Hc|exact Ht].
  - inversion F as [|? ? [Hr Hu] Hrs]; subst.
    destruct (IsLetter r || IsDigit r) eqn:E.
    + apply IH; [exact Hrs|exact Ht|].
      rewrite allBytes_append, Hc, encodeRune_ascii by exact Hr.
      cbn [allBytes andb]. rewrite andb_true_r.
      unfold lowerAlnum. rewrite byteVal_byteOf by lia.
      cbn [IsLetter IsDigit asciiTables] in E. lia.
    + destruct (0 <? len current).
      * apply IH; [exact Hrs| |reflexivity].
        apply keepToken_Forall; [intros _; exact Hc|exact Ht].
      * apply IH; [exact Hrs|exact Ht|exact Hc].
Qed.

End AsciiTokens.

(** X9.  On a text of ASCII bytes the tokens do not depend on the
    tables of Unicode beyond ASCII, and every token is made of lower-case
    ASCII letters and digits. *)
Theorem tokenize_ascii {tables : UnicodeTables} (text : string) :
  (forall r, 0 <= r < 128 ->
     IsLetter r = @IsLetter asciiTables r /\ IsDigit r = @IsDigit asciiTables r) ->
  asciiText text = true ->
  tokenize text = @tokenize asciiTables text /\
  Forall (fun t => allBytes lowerAlnum t = true) (tokenize text).
Proof.
  intros Ht Ha.
  pose proof (@ToLower_ascii tables text Ha) as L.
  assert (EL : @ToLower tables text = @ToLower asciiTables text).
  { unfold ToLower. unfold asciiText in Ha. now rewrite Ha. }
  assert (A : asciiText (ToLower text) = true).
  { unfold asciiText. eapply allBytes_impl; [|exact L].
    intros c H. apply andb_prop in H as [H _]. exact H. }
  assert (F : Forall (fun r => 0 <= r < 128 /\ ~ 65 <= r <= 90)
                (runesOf (ToLower text))).
  { rewrite runesOf_ascii by exact A. clear -L.
    induction (ToLower text) as [|c s IH]; [constructor|].
    cbn [allBytes] in L. apply andb_prop in L as [L1 L2].
    cbn [list_ascii_of_string map]. constructor; [|auto].
    pose proof (byteVal_range c). lia. }
  assert (E : tokenize text = @tokenize asciiTables text).
  { unfold tokenize. rewrite <- EL. apply tokenizeRunes_tables; [exact Ht|].
    eapply Forall_impl; [exact F|]. cbn beta. tauto. }
  split; [exact E|]. rewrite E. unfold tokenize. rewrite <- EL.
  apply tokenizeRunes_lower; [exact F|constructor|reflexivity].
Qed.

Lemma tokenize_ascii_witness :
  @tokenize latin1Tables "Hello, World! This is a TEST."
  = @tokenize asciiTables "Hello, World! This is a TEST." /\
  Forall (fun t => allBytes lowerAlnum t = true)
         (@tokenize latin1Tables "Hello, World! This is a TEST.").
Proof.
  apply (@tokenize_ascii latin1Tables "Hello, World! This is a TEST.").
  - intros r Hr. cbn [IsLetter IsDigit latin1Tables asciiTables].
    split; [|reflexivity].
    replace (r =? 170) with false by lia. replace (r =? 181) with false by lia.
    replace (r =? 186) with false by lia.
    replace (192 <=? r) with false by lia. replace (216 <=? r) with false by lia.
    replace (248 <=? r) with false by lia.
    cbn [andb]. now rewrite !orb_false_r.
  - reflexivity.
Defined.

(** Outside ASCII the tables do matter: on [latin1Text] the Latin-1 tables
    keep the accented letter in its lower case (bytes 195, 169), the ASCII
    tables cut the word there. *)
Example tokenize_latin1 :
  @tokenize latin1Tables latin1Text
  = [("caf" ++ String (byteOf 195) (String (byteOf 169) EmptyString))%string;
     "ole"%string] /\
  @tokenize asciiTables latin1Text = ["caf"; "ole"]%string.
Proof. split; vm_compute; reflexivity. Qed.

(** ** The term frequencies *)

Lemma termFrequencies_snoc tokens token :
  termFrequencies (tokens ++ [token])
  = <[token := default 0 (termFrequencies tokens !! token) +i 1]>
      (termFrequencies tokens).
Proof. unfold termFrequencies. now rewrite fold_left_app. Qed.

Lemma count_occ_le_length (tokens : list string) t :
  (count_occ string_dec tokens t <= length tokens)%nat.
Proof.
  induction tokens as [|x l IH]; cbn [count_occ length]; [lia|].
  destruct (string_dec x t); lia.
Qed.

(** X10.  The map [tf] built by [tf[token]++] holds, for each token of the
    text, the number of times it occurs, and nothing for any other string. *)
Theorem termFrequencies_counts (tokens : list string) (t : string) :
  Z.of_nat (length tokens) <= Int.max_int ->
  termFrequencies tokens !! t
  = if (count_occ string_dec tokens t =? 0)%nat then None
    else Some (Z.of_nat (count_occ string_dec tokens t)).
Proof.
  induction tokens as [|x l IH] using rev_ind; intros Hfit.
  - reflexivity.
  - rewrite length_app in Hfit. cbn [length] in Hfit.
    specialize (IH ltac:(lia)).
    rewrite termFrequencies_snoc, count_occ_app. cbn [count_occ].
    pose proof (count_occ_le_length l t) as Hle.
    destruct (string_dec x t) as [->|Hne].
    + rewrite lookup_insert_eq, IH.
      destruct (count_occ string_dec l t =? 0)%nat eqn:E0.
      * apply Nat.eqb_eq in E0. rewrite E0. reflexivity.
      * apply Nat.eqb_neq in E0. cbn [default from_option id].
        rewrite add_id by int_range.
        replace (count_occ string_dec l t + 1 =? 0)%nat with false
          by (symmetry; apply Nat.eqb_neq; lia).
        f_equal. lia.
    + rewrite lookup_insert_ne by exact Hne. rewrite IH, Nat.add_0_r. reflexivity.
Qed.

Lemma termFrequencies_counts_witness :
  termFrequencies ["go"; "rag"; "go"]%string !! "go"%string
  = if (count_occ string_dec ["go"; "rag"; "go"]%string "go"%string =? 0)%nat
    then None
    else Some (Z.of_nat (count_occ string_dec ["go"; "rag"; "go"]%string "go"%string)).
Proof.
  apply (termFrequencies_counts ["go"; "rag"; "go"]%string "go"%string).
  vm_compute. discriminate.
Defined.

(** ** hashString: range and parity *)

Lemma fnvWrite_range h bytes :
  0 <= h < 2 ^ 64 -> 0 <= fnvWrite h bytes < 2 ^ 64.
Proof.
  unfold fnvWrite. revert h. induction bytes as [|b bytes IH]; intros h Hh;
    cbn [fold_left]; [exact Hh|].
  apply IH. apply Z.mod_pos_bound. lia.
Qed.

Lemma odd_lxor a b : Z.odd (Z.lxor a b) = xorb (Z.odd a) (Z.odd b).
Proof. rewrite <- !Z.bit0_odd. apply Z.lxor_spec. Qed.

Lemma odd_mod_even a n : 0 < n -> Z.even n = true -> Z.odd (a mod n) = Z.odd a.
Proof.
  intros Hn He. apply Z.even_spec in He as [k ->].
  rewrite (Z.div_mod a (2 * k)) at 2 by lia.
  rewrite Z.add_comm, <- Z.mul_assoc, Z.odd_add_mul_2. reflexivity.
Qed.

(** One step of FNV-1a keeps the parity of [h xor b]: the prime is odd. *)
Lemma fnvWrite_odd h bytes :
  Z.odd (fnvWrite h bytes)
  = fold_left (fun p b => xorb p (Z.odd b)) bytes (Z.odd h).
Proof.
  unfold fnvWrite. revert h. induction bytes as [|b bytes IH]; intros h;
    cbn [fold_left]; [reflexivity|].
  rewrite IH. f_equal.
  rewrite odd_mod_even by (reflexivity || lia).
  rewrite Z.odd_mul, odd_lxor. change (Z.odd fnvPrime64) with true.
  now rewrite andb_true_r.
Qed.

Lemma fold_xorb_init bytes p :
  fold_left (fun p b => xorb p (Z.odd b)) bytes p
  = xorb p (fold_left (fun p b => xorb p (Z.odd b)) bytes false).
Proof.
  revert p. induction bytes as [|b bytes IH]; intros p; cbn [fold_left].
  - now rewrite xorb_false_r.
  - rewrite IH, (IH (xorb false (Z.odd b))). rewrite xorb_false_l.
    now rewrite xorb_assoc.
Qed.

Lemma hashString_odd s seed :
  Z.odd (hashString s seed)
  = xorb (Z.odd (fnvWrite fnvOffset64 (seedBytes seed)))
         (fold_left (fun p b => xorb p (Z.odd b))
            (map byteVal (list_ascii_of_string s)) false).
Proof. unfold hashString. rewrite fnvWrite_odd. apply fold_xorb_init. Qed.

Lemma hashString_odd_seeds s :
  Z.odd (hashString s 1) = negb (Z.odd (hashString s 0)) /\
  Z.odd (hashString s 2) = Z.odd (hashString s 0).
Proof.
  split.
  - rewrite !hashString_odd.
    change (Z.odd (fnvWrite fnvOffset64 (seedBytes 1))) with false.
    change (Z.odd (fnvWrite fnvOffset64 (seedBytes 0))) with true.
    now destruct (fold_left _ _ false).
  - rewrite !hashString_odd.
    change (Z.odd (fnvWrite fnvOffset64 (seedBytes 2))) with true.
    change (Z.odd (fnvWrite fnvOffset64 (seedBytes 0))) with true.
    reflexivity.
Qed.

(** X11.  [hashString] is a 64-bit value, and its lowest bit is the
    parity of the bytes hashed: the offset basis and the prime of FNV-1a are
    odd.  So the three hashes that [addTermToVector] takes of a term, with
    the seeds 0, 1 and 2, are tied: the second has the opposite parity of
    the first, the third the same. *)
Theorem hashString_parity (s : string) :
  (forall seed, 0 <= hashString s seed < 2 ^ 64) /\
  Z.odd (hashString s 1) = negb (Z.odd (hashString s 0)) /\
  Z.odd (hashString s 2) = Z.odd (hashString s 0).
Proof.
  split; [|apply hashString_odd_seeds].
  intros seed. unfold hashString. apply fnvWrite_range. apply fnvWrite_range.
  unfold fnvOffset64. lia.
Qed.

(** ** addTermToVector: the two buckets and their signs *)

Lemma updateAt_insert {A : Type} (vector : list A) (i : nat) (v : A) f :
  vector !! i = Some v ->
  updateAt vector (Z.of_nat i) f = Some (<[i := f v]> vector).
Proof.
  intros H. unfold updateAt.
  assert (E : (Z.of_nat i <? 0) = false) by (apply Z.ltb_ge; lia). rewrite E.
  rewrite Nat2Z.id, H. reflexivity.
Qed.

Lemma mod2_eqb_odd h : (h mod 2 =? 0) = negb (Z.odd h).
Proof. rewrite Zmod_odd. now destruct (Z.odd h). Qed.

Lemma odd_to_nat z : 0 <= z -> Nat.odd (Z.to_nat z) = Z.odd z.
Proof.
  intros H. rewrite <- (Z2Nat.id z) at 2 by exact H.
  generalize (Z.to_nat z). clear. intros n.
  rewrite <- !Z.negb_even, <- Nat.negb_even. f_equal.
  induction n as [|n IH]; [reflexivity|].
  rewrite Nat2Z.inj_succ, Z.even_succ, Nat.even_succ.
  rewrite <- Z.negb_even, <- Nat.negb_even. now rewrite IH.
Qed.

(** X12.  On a vector of even length (the embedder's has 384 entries)
    [addTermToVector] changes the two buckets [h1 mod n] and [h2 mod n] of
    the term and nothing else; one of the two is odd and the other even, and
    the sign of each update is the parity of its bucket: an odd bucket gets
    the weight added, an even one subtracted. *)
Theorem addTermToVector_buckets (vector : list float) (term : string) (weight : float) :
  (0 < length vector)%nat -> Nat.even (length vector) = true ->
  let i1 := Z.to_nat (hashString term 0 mod Z.of_nat (length vector)) in
  let i2 := Z.to_nat (hashString term 1 mod Z.of_nat (length vector)) in
  Nat.odd i2 = negb (Nat.odd i1) /\
  exists v1 v2,
    vector !! i1 = Some v1 /\ vector !! i2 = Some v2 /\
    addTermToVector vector term weight
    = Some (<[i2 := signedAdd i2 v2 (weight * 0.5)]>
              (<[i1 := signedAdd i1 v1 weight]> vector)).
Proof.
  intros Hpos Heven i1 i2.
  set (n := Z.of_nat (length vector)) in *.
  assert (Hn : 0 < n) by lia.
  assert (Hen : Z.even n = true).
  { subst n. pose proof (odd_to_nat (Z.of_nat (length vector)) ltac:(lia)) as O.
    rewrite Nat2Z.id in O. rewrite <- Z.negb_odd, <- O, Nat.negb_odd. exact Heven. }
  destruct (hashString_odd_seeds term) as [P1 P2].
  pose proof (Z.mod_pos_bound (hashString term 0) n Hn) as B1.
  pose proof (Z.mod_pos_bound (hashString term 1) n Hn) as B2.
  assert (O1 : Nat.odd i1 = Z.odd (hashString term 0)).
  { subst i1. rewrite odd_to_nat by lia. now apply odd_mod_even. }
  assert (O2 : Nat.odd i2 = Z.odd (hashString term 1)).
  { subst i2. rewrite odd_to_nat by lia. now apply odd_mod_even. }
  assert (Hne : i1 <> i2).
  { intros E. assert (X : Nat.odd i1 = Nat.odd i2) by now rewrite E.
    rewrite O1, O2, P1 in X. now destruct (Z.odd (hashString term 0)). }
  split; [now rewrite O1, O2|].
  destruct (lookup_lt_is_Some_2 vector i1 ltac:(lia)) as [v1 Hv1].
  destruct (lookup_lt_is_Some_2 vector i2 ltac:(lia)) as [v2 Hv2].
  exists v1, v2. split; [exact Hv1|]. split; [exact Hv2|].
  unfold addTermToVector. fold n.
  assert (E0 : (n =? 0) = false) by lia. rewrite E0.
  rewrite !mod2_eqb_odd, P2, P1, negb_involutive.
  replace (hashString term 0 mod n) with (Z.of_nat i1) by (subst i1; lia).
  replace (hashString term 1 mod n) with (Z.of_nat i2) by (subst i2; lia).
  unfold signedAdd. rewrite O1, O2, P1.
  destruct (Z.odd (hashString term 0)); cbn [negb];
    rewrite (updateAt_insert vector i1 v1) by exact Hv1;
    cbn [mbind option_bind];
    rewrite (updateAt_insert _ i2 v2)
      by (rewrite list_lookup_insert_ne by exact Hne; exact Hv2);
    reflexivity.
Qed.

Lemma addTermToVector_buckets_witness :
  let vector := replicate 384 0%float in
  let i1 := Z.to_nat (hashString "markdown" 0 mod Z.of_nat (length vector)) in
  let i2 := Z.to_nat (hashString "markdown" 1 mod Z.of_nat (length vector)) in
  Nat.odd i2 = negb (Nat.odd i1) /\
  exists v1 v2,
    vector !! i1 = Some v1 /\ vector !! i2 = Some v2 /\
    addTermToVector vector "markdown" 1
    = Some (<[i2 := signedAdd i2 v2 (1 * 0.5)]>
              (<[i1 := signedAdd i1 v1 1]> vector)).
Proof.
  apply (addTermToVector_buckets (replicate 384 0%float) "markdown" 1).
  - vm_compute. lia.
  - vm_compute. reflexivity.
Defined.

(** ** The order of the map *)

(** A run on a text with tokens visits the entries of [tf] in some order. *)
Lemma GetLocalEmbedding_returns_in_order {tables : UnicodeTables}
    (math_Log : float -> float) text entries :
  tokenize text <> [] ->
  entries ≡ₚ map_to_list (termFrequencies (tokenize text)) ->
  GetLocalEmbedding_returns math_Log text
    (embedInOrder math_Log entries (tokenize text)).
Proof.
  intros Htok Hperm. unfold GetLocalEmbedding_returns. cbv zeta.
  destruct (tokenize text) as [|token tokens] eqn:E; [contradiction|].
  cbn [length Nat.eqb]. exists entries. split; [exact Hperm | reflexivity].
Qed.

Lemma tokenize_orderText :
  tokenize orderText =
  [ "integrates"; "integrates"; "compute"; "making"; "multi"; "whose"; "multi";
    "whose"; "section"; "hard"; "compute"; "unchanged"; "making" ]%string.
Proof. vm_compute. reflexivity. Qed.

Lemma insertionOrder_entries :
  insertionOrder ≡ₚ map_to_list (termFrequencies (tokenize orderText)).
Proof. apply (bool_decide_unpack _). vm_compute. exact I. Qed.

Lemma rotatedOrder_entries :
  rotatedOrder ≡ₚ map_to_list (termFrequencies (tokenize orderText)).
Proof. apply (bool_decide_unpack _). vm_compute. exact I. Qed.

Lemma insertionOrder_counts term count :
  In (term, count) insertionOrder -> count = 1 \/ count = 2.
Proof.
  intros H. cbv [insertionOrder In] in H.
  repeat (destruct H as [[= _ <-]|H]; [auto|]). contradiction.
Qed.

Lemma rotatedOrder_counts term count :
  In (term, count) rotatedOrder -> count = 1 \/ count = 2.
Proof.
  intros H. cbv [rotatedOrder insertionOrder drop take app In] in H.
  repeat (destruct H as [[= _ <-]|H]; [auto|]). contradiction.
Qed.

(** With the two values of [math.Log] that the text reads, [math.Log] is
    [logTable] there. *)
Lemma embedInOrder_logTable (math_Log : float -> float) entries tokens :
  math_Log 1%float = 0%float ->
  math_Log 2%float = 0x1.62e42fefa39efp-1%float ->
  (forall term count, In (term, count) entries -> count = 1 \/ count = 2) ->
  embedInOrder math_Log entries tokens = embedInOrder logTable entries tokens.
Proof.
  intros H1 H2 Hc. apply embedInOrder_ext. intros term count Hin.
  destruct (Hc term count Hin) as [-> | ->].
  - change (F64.of_int 1) with 1%float. rewrite H1. reflexivity.
  - change (F64.of_int 2) with 2%float. rewrite H2. reflexivity.
Qed.

(** The two orders, evaluated. *)
Lemma embedInOrder_insertionOrder :
  component 105 (embedInOrder logTable insertionOrder (tokenize orderText))
  = Some (S754_finite false 11185887 (-25)).
Proof. vm_compute. reflexivity. Qed.

Lemma embedInOrder_rotatedOrder :
  component 105 (embedInOrder logTable rotatedOrder (tokenize orderText))
  = Some (S754_finite false 11185888 (-25)).
Proof. vm_compute. reflexivity. Qed.

(** X13.  [GetLocalEmbedding] can return different vectors for the same
    text.  The text [orderText] has two runs that differ in entry 105 of the
    vector: visiting the map [tf] in the order of insertion gives the float32
    11185887 * 2^-25 (0.33336541), visiting it from the fourth entry on gives
    11185888 * 2^-25 (0.33336544).  The float64 sums in the buckets of the
    vector depend on the order in which the terms are added, and [range]
    over a map fixes none.  ([math.Log] enters with its values at 1 and 2
    only.) *)
Theorem GetLocalEmbedding_order_dependent (math_Log : float -> float) :
  math_Log 1%float = 0%float ->
  math_Log 2%float = 0x1.62e42fefa39efp-1%float ->
  exists result1 result2,
    GetLocalEmbedding_returns math_Log orderText result1 /\
    GetLocalEmbedding_returns math_Log orderText result2 /\
    result1 = embedInOrder math_Log insertionOrder (tokenize orderText) /\
    result2 = embedInOrder math_Log rotatedOrder (tokenize orderText) /\
    component 105 result1 = Some (S754_finite false 11185887 (-25)) /\
    component 105 result2 = Some (S754_finite false 11185888 (-25)) /\
    result1 <> result2.
Proof.
  intros H1 H2.
  assert (Htok : tokenize orderText <> [])
    by (intros E; pose proof tokenize_orderText as T; congruence).
  pose proof (eq_trans
    (f_equal (component 105)
       (embedInOrder_logTable math_Log insertionOrder (tokenize orderText)
          H1 H2 insertionOrder_counts))
    embedInOrder_insertionOrder) as C1.
  pose proof (eq_trans
    (f_equal (component 105)
       (embedInOrder_logTable math_Log rotatedOrder (tokenize orderText)
          H1 H2 rotatedOrder_counts))
    embedInOrder_rotatedOrder) as C2.
  exists (embedInOrder math_Log insertionOrder (tokenize orderText)).
  exists (embedInOrder math_Log rotatedOrder (tokenize orderText)).
  split; [exact (GetLocalEmbedding_returns_in_order math_Log orderText
                   insertionOrder Htok insertionOrder_entries)|].
  split; [exact (GetLocalEmbedding_returns_in_order math_Log orderText
                   rotatedOrder Htok rotatedOrder_entries)|].
  split; [reflexivity|]. split; [reflexivity|].
  split; [exact C1|]. split; [exact C2|].
  intros E.
  pose proof (eq_trans (eq_sym C1) (eq_trans (f_equal (component 105) E) C2)) as X.
  discriminate X.
Qed.

Lemma GetLocalEmbedding_order_dependent_witness :
  exists result1 result2,
    GetLocalEmbedding_returns logTable orderText result1 /\
    GetLocalEmbedding_returns logTable orderText result2 /\
    result1 = embedInOrder logTable insertionOrder (tokenize orderText) /\
    result2 = embedInOrder logTable rotatedOrder (tokenize orderText) /\
    component 105 result1 = Some (S754_finite false 11185887 (-25)) /\
    component 105 result2 = Some (S754_finite false 11185888 (-25)) /\
    result1 <> result2.
Proof.
  exact (GetLocalEmbedding_order_dependent logTable eq_refl eq_refl).
Defined.

(** C9.  [GetLocalEmbedding] is not deterministic.  At the text [orderText]
    two runs, which differ only in the order in which [range] visits the map
    [tf], return two vectors of 384 entries that differ in entry 105.
    ([math.Log] enters with its values at 1 and 2 only.) *)
Theorem GetLocalEmbedding_not_deterministic (math_Log : float -> float) :
  math_Log 1%float = 0%float ->
  math_Log 2%float = 0x1.62e42fefa39efp-1%float ->
  exists v1 v2 : list F32.t,
    GetLocalEmbedding_returns math_Log orderText (Done (v1, None)) /\
    GetLocalEmbedding_returns math_Log orderText (Done (v2, None)) /\
    Z.of_nat (length v1) = LocalEmbeddingDimension /\
    Z.of_nat (length v2) = LocalEmbeddingDimension /\
    v1 !! 105%nat <> v2 !! 105%nat.
Proof.
  intros H1 H2.
  assert (Htok : tokenize orderText <> [])
    by (intros E; pose proof tokenize_orderText as T; congruence).
  destruct (embedInOrder_Done math_Log insertionOrder (tokenize orderText))
    as (v1 & E1 & L1).
  destruct (embedInOrder_Done math_Log rotatedOrder (tokenize orderText))
    as (v2 & E2 & L2).
  pose proof (eq_trans
    (f_equal (component 105)
       (embedInOrder_logTable math_Log insertionOrder (tokenize orderText)
          H1 H2 insertionOrder_counts))
    embedInOrder_insertionOrder) as C1.
  pose proof (eq_trans
    (f_equal (component 105)
       (embedInOrder_logTable math_Log rotatedOrder (tokenize orderText)
          H1 H2 rotatedOrder_counts))
    embedInOrder_rotatedOrder) as C2.
  pose proof (eq_trans (eq_sym (f_equal (component 105) E1)) C1) as D1.
  pose proof (eq_trans (eq_sym (f_equal (component 105) E2)) C2) as D2.
  cbn [component] in D1, D2.
  exists v1, v2.
  split.
  { exact (eq_ind _ (GetLocalEmbedding_returns math_Log orderText)
             (GetLocalEmbedding_returns_in_order math_Log orderText
                insertionOrder Htok insertionOrder_entries) _ E1). }
  split.
  { exact (eq_ind _ (GetLocalEmbedding_returns math_Log orderText)
             (GetLocalEmbedding_returns_in_order math_Log orderText
                rotatedOrder Htok rotatedOrder_entries) _ E2). }
  split; [exact L1|]. split; [exact L2|].
  intros E. pose proof (eq_trans (eq_sym D1) (eq_trans E D2)) as X.
  discriminate X.
Qed.

Lemma GetLocalEmbedding_not_deterministic_witness :
  exists v1 v2 : list F32.t,
    GetLocalEmbedding_returns logTable orderText (Done (v1, None)) /\
    GetLocalEmbedding_returns logTable orderText (Done (v2, None)) /\
    Z.of_nat (length v1) = LocalEmbeddingDimension /\
    Z.of_nat (length v2) = LocalEmbeddingDimension /\
    v1 !! 105%nat <> v2 !! 105%nat.
Proof.
  exact (GetLocalEmbedding_not_deterministic logTable eq_refl eq_refl).
Defined.

(** * util.go *)

(** ** FormatNumber *)

Lemma concatStrings_snoc l s : concatStrings (l ++ [s]) = (concatStrings l ++ s)%string.
Proof.
  induction l as [|x l IH]; cbn [app concatStrings].
  - rewrite append_nil_l. clear. induction s as [|c s IH]; [reflexivity|].
    rewrite append_cons. now rewrite IH.
  - now rewrite IH, append_assoc.
Qed.

Lemma append_nil_r (s : string) : (s ++ EmptyString)%string = s.
Proof. induction s as [|c s IH]; [reflexivity|]. rewrite append_cons. now rewrite IH. Qed.

Lemma dropCommas_append a b : dropCommas (a ++ b) = (dropCommas a ++ dropCommas b)%string.
Proof.
  induction a as [|c a IH]; [reflexivity|].
  rewrite append_cons. cbn [dropCommas]. destruct (Ascii.eqb c ","); [exact IH|].
  now rewrite append_cons, IH.
Qed.

(** The loop writes the bytes of [str] in order, and commas between them. *)
Lemma formatDigits_dropCommas strLen rest : forall i result,
  dropCommas rest = rest ->
  dropCommas (concatStrings (formatDigits strLen i rest result))
  = (dropCommas (concatStrings result) ++ rest)%string.
Proof.
  induction rest as [|digit rest IH]; intros i result Hd; cbn [formatDigits].
  - now rewrite append_nil_r.
  - cbn [dropCommas] in Hd. destruct (Ascii.eqb digit ",") eqn:Ed.
    + exfalso. assert (L : len (dropCommas rest) <= len rest).
      { clear. induction rest as [|c s IH]; cbn [dropCommas]; [lia|].
        destruct (Ascii.eqb c ","); rewrite ?len_String; lia. }
      rewrite Hd, len_String in L. lia.
    + injection Hd as Hd. rewrite IH by exact Hd.
      rewrite concatStrings_snoc, dropCommas_append. cbn [dropCommas]. rewrite Ed.
      rewrite append_assoc, append_cons, append_nil_l. f_equal.
      destruct ((0 <? i) && (Z.rem (strLen - i) 3 =? 0)); [|reflexivity].
      rewrite concatStrings_snoc, dropCommas_append. cbn [dropCommas]. cbn [Ascii.eqb].
      change (Ascii.eqb "," ",") with true. cbn iota. now rewrite append_nil_r.
Qed.

Lemma string_of_uint_no_comma d :
  dropCommas (NilEmpty.string_of_uint d) = NilEmpty.string_of_uint d.
Proof.
  induction d; cbn [NilEmpty.string_of_uint dropCommas]; try reflexivity;
    match goal with
    | |- (if Ascii.eqb ?c "," then _ else _) = _ =>
        change (Ascii.eqb c ",") with false; cbn iota; now f_equal
    end.
Qed.

Lemma Itoa_no_comma n : dropCommas (Itoa n) = Itoa n.
Proof.
  unfold Itoa. destruct (Z.to_int n) as [d|d]; cbn [NilEmpty.string_of_int].
  - apply string_of_uint_no_comma.
  - cbn [dropCommas]. change (Ascii.eqb "-" ",") with false. cbn iota.
    now rewrite string_of_uint_no_comma.
Qed.

(** X14.  [FormatNumber] only adds commas: without them its result is the
    decimal representation [strconv.Itoa(n)] of the number, for every [n]. *)
Theorem FormatNumber_digits (n : Z) : dropCommas (FormatNumber n) = Itoa n.
Proof.
  unfold FormatNumber, groupDigits.
  destruct (len (Itoa n) <=? 3); [apply Itoa_no_comma|].
  rewrite formatDigits_dropCommas by apply Itoa_no_comma. reflexivity.
Qed.

(** *** Where the commas stand *)

Lemma formatDigits_app strLen a : forall b i result,
  formatDigits strLen i (a ++ b) result
  = formatDigits strLen (i + len a) b (formatDigits strLen i a result).
Proof.
  induction a as [|c a IH]; intros b i result.
  - rewrite append_nil_l. change (len EmptyString) with 0. now rewrite Z.add_0_r.
  - rewrite append_cons. cbn [formatDigits]. rewrite IH, len_String.
    f_equal. lia.
Qed.

Lemma rem3_shift x : 0 <= x -> Z.rem (x + 3) 3 = Z.rem x 3.
Proof. intros H. rewrite !Z.rem_mod_nonneg by lia. lia. Qed.

(** Three more bytes at the end change no decision of the loop before
    them. *)
Lemma formatDigits_longer strLen a : forall i result,
  i + len a <= strLen ->
  formatDigits (strLen + 3) i a result = formatDigits strLen i a result.
Proof.
  induction a as [|c a IH]; intros i result H; [reflexivity|].
  rewrite len_String in H. pose proof (len_nonneg a).
  cbn [formatDigits].
  replace (strLen + 3 - i) with (strLen - i + 3) by lia.
  rewrite rem3_shift by lia. apply IH. lia.
Qed.

(** No comma is written into at most three bytes. *)
Lemma formatDigits_short str :
  len str <= 3 -> concatStrings (formatDigits (len str) 0 str []) = str.
Proof.
  destruct str as [|a [|b [|c [|d s]]]]; intros H; try reflexivity.
  rewrite !len_String in H. pose proof (len_nonneg s). lia.
Qed.

Lemma groupDigits_loop str :
  groupDigits str = concatStrings (formatDigits (len str) 0 str []).
Proof.
  unfold groupDigits. destruct (len str <=? 3) eqn:E; [|reflexivity].
  symmetry. apply formatDigits_short. lia.
Qed.

(** X15.  The commas of [FormatNumber] stand before each group of three
    bytes counted from the end: up to three bytes are left as they are, and
    the result for a longer string is the result for the string without its
    last three bytes, a comma, and these three bytes.  A sign counts as a
    byte: the minus of a negative number is followed by a comma when the
    number has three, six, ... digits. *)
Theorem FormatNumber_groups (n : Z) :
  FormatNumber n = groupDigits (Itoa n) /\
  (forall str, len str <= 3 -> groupDigits str = str) /\
  (forall str a b c, str <> EmptyString ->
     groupDigits (str ++ String a (String b (String c EmptyString)))
     = (groupDigits str ++ "," ++ String a (String b (String c EmptyString)))%string) /\
  (forall a b c,
     groupDigits (String "-" (String a (String b (String c EmptyString))))
     = String "-" (String "," (String a (String b (String c EmptyString))))).
Proof.
  split; [reflexivity|]. split.
  { intros str H. unfold groupDigits. assert (E : (len str <=? 3) = true) by lia.
    now rewrite E. }
  assert (G : forall str a b c, str <> EmptyString ->
     groupDigits (str ++ String a (String b (String c EmptyString)))
     = (groupDigits str ++ "," ++ String a (String b (String c EmptyString)))%string).
  { intros str a b c Hne. rewrite !groupDigits_loop.
    rewrite len_append, !len_String. change (len EmptyString) with 0.
    replace (len str + (1 + (1 + (1 + 0)))) with (len str + 3) by lia.
    rewrite formatDigits_app, (formatDigits_longer (len str) str 0 []) by lia.
    assert (Hpos : 0 < len str).
    { destruct str; [contradiction|]. rewrite len_String.
      pose proof (len_nonneg str). lia. }
    cbn [formatDigits].
    assert (E1 : ((0 <? 0 + len str) && (Z.rem (len str + 3 - (0 + len str)) 3 =? 0)) = true).
    { replace (len str + 3 - (0 + len str)) with 3 by lia.
      change (Z.rem 3 3) with 0. lia. }
    assert (E2 : ((0 <? 0 + len str + 1)
                  && (Z.rem (len str + 3 - (0 + len str + 1)) 3 =? 0)) = false).
    { replace (len str + 3 - (0 + len str + 1)) with 2 by lia.
      change (Z.rem 2 3) with 2. lia. }
    assert (E3 : ((0 <? 0 + len str + 1 + 1)
                  && (Z.rem (len str + 3 - (0 + len str + 1 + 1)) 3 =? 0)) = false).
    { replace (len str + 3 - (0 + len str + 1 + 1)) with 1 by lia.
      change (Z.rem 1 3) with 1. lia. }
    rewrite E1, E2, E3. rewrite !concatStrings_snoc, !append_assoc.
    reflexivity. }
  split; [exact G|].
  intros a b c.
  change (String "-" (String a (String b (String c EmptyString))))
    with ("-" ++ String a (String b (String c EmptyString)))%string.
  rewrite G by discriminate. reflexivity.
Qed.

(** ** FormatBytes *)

Lemma formatBytesLoop_S fuel n div exp :
  formatBytesLoop (S fuel) n div exp
  = if 1024 <=? n
    then formatBytesLoop fuel (n ÷ 1024) (mulInt div 1024) (exp +i 1)
    else Some (div, exp).
Proof. reflexivity. Qed.

(** The unit that the loop of [FormatBytes] picks for [bytes]. *)
Lemma formatBytesLoop_unit fuel bytes :
  1024 <= bytes <= Int.max_int -> (6 < fuel)%nat ->
  exists exp,
    0 <= exp <= 5 /\ 1024 ^ (exp + 1) <= bytes < 1024 ^ (exp + 2) /\
    formatBytesLoop fuel (bytes ÷ 1024) 1024 0 = Some (1024 ^ (exp + 1), exp).
Proof.
  unfold Int.max_int. intros Hb Hf.
  destruct fuel as [|[|[|[|[|[|[|fuel]]]]]]]; try lia.
  rewrite formatBytesLoop_S.
  destruct (1024 <=? bytes ÷ 1024) eqn:E1;
    [|exists 0; split; [lia|]; split; [lia|reflexivity]].
  rewrite formatBytesLoop_S.
  destruct (1024 <=? bytes ÷ 1024 ÷ 1024) eqn:E2;
    [|exists 1; split; [lia|]; split; [lia|reflexivity]].
  rewrite formatBytesLoop_S.
  destruct (1024 <=? bytes ÷ 1024 ÷ 1024 ÷ 1024) eqn:E3;
    [|exists 2; split; [lia|]; split; [lia|reflexivity]].
  rewrite formatBytesLoop_S.
  destruct (1024 <=? bytes ÷ 1024 ÷ 1024 ÷ 1024 ÷ 1024) eqn:E4;
    [|exists 3; split; [lia|]; split; [lia|reflexivity]].
  rewrite formatBytesLoop_S.
  destruct (1024 <=? bytes ÷ 1024 ÷ 1024 ÷ 1024 ÷ 1024 ÷ 1024) eqn:E5;
    [|exists 4; split; [lia|]; split; [lia|reflexivity]].
  rewrite formatBytesLoop_S.
  destruct (1024 <=? bytes ÷ 1024 ÷ 1024 ÷ 1024 ÷ 1024 ÷ 1024 ÷ 1024) eqn:E6;
    [exfalso; lia|].
  exists 5. split; [lia|]. split; [lia|reflexivity].
Qed.

(** X16.  [FormatBytes] returns for every [int64]: the index into
    ["KMGTPE"] never leaves the string.  Below 1024 (negative numbers
    included) the result is the number and [" B"]; from 1024 on it is the
    quotient by [1024^(exp+1)], printed with one decimal, and the unit
    letter number [exp], where [1024^(exp+1) <= bytes < 1024^(exp+2)]. *)
Theorem FormatBytes_unit (fuel : nat) (bytes : Z) :
  Int.is_int bytes -> (6 < fuel)%nat ->
  (bytes < 1024 -> FormatBytes fuel bytes = Done (Itoa bytes ++ " B")%string) /\
  (1024 <= bytes ->
   exists exp unit,
     0 <= exp <= 5 /\ 1024 ^ (exp + 1) <= bytes < 1024 ^ (exp + 2) /\
     index "KMGTPE" exp = Some unit /\
     FormatBytes fuel bytes
     = Done (formatFixed1 (F64.of_int bytes / F64.of_int (1024 ^ (exp + 1)))
             ++ " " ++ String unit "B")%string).
Proof.
  intros Hint Hf. unfold FormatBytes. split.
  - intros H. assert (E : (bytes <? 1024) = true) by lia. now rewrite E.
  - intros H. assert (E : (bytes <? 1024) = false) by lia. rewrite E.
    destruct (formatBytesLoop_unit fuel bytes) as (exp & He & Hb & ->);
      [unfold Int.is_int in Hint; lia|exact Hf|].
    destruct (index_in_range "KMGTPE" exp) as [unit Hu];
      [change (len "KMGTPE") with 6; lia|].
    exists exp, unit. rewrite Hu. auto.
Qed.

Lemma FormatBytes_unit_witness :
  (1536 < 1024 -> FormatBytes 7 1536 = Done (Itoa 1536 ++ " B")%string) /\
  (1024 <= 1536 ->
   exists exp unit,
     0 <= exp <= 5 /\ 1024 ^ (exp + 1) <= 1536 < 1024 ^ (exp + 2) /\
     index "KMGTPE" exp = Some unit /\
     FormatBytes 7 1536
     = Done (formatFixed1 (F64.of_int 1536 / F64.of_int (1024 ^ (exp + 1)))
             ++ " " ++ String unit "B")%string).
Proof.
  apply (FormatBytes_unit 7 1536).
  - vm_compute. split; discriminate.
  - lia.
Defined.

(** * Retrieval *)

(** The slice that [MCPRetrieveFileContent] takes. *)
Lemma MCPRetrieveFileContent_clamped
    (os_Stat_IsNotExist : string -> bool) (os_ReadFile : string -> string + string)
    (filePath content : string) (startOffset endOffset : option Z) :
  os_Stat_IsNotExist filePath = false ->
  os_ReadFile filePath = inl content ->
  exists s,
    MCPRetrieveFileContent os_Stat_IsNotExist os_ReadFile filePath startOffset endOffset
    = Done (s, None) /\
    slice content
      (Z.min (clampOffset (default 0 startOffset) (len content))
             (clampOffset (default (len content) endOffset) (len content)))
      (clampOffset (default (len content) endOffset) (len content)) = Some s.
Proof.
  intros Hstat Hread. unfold MCPRetrieveFileContent. rewrite Hstat, Hread.
  cbv zeta. pose proof (len_nonneg content) as Hlen.
  set (hi := clampOffset (default (len content) endOffset) (len content)).
  set (lo := Z.min (clampOffset (default 0 startOffset) (len content)) hi).
  set (start0 := match startOffset with
                 | Some start => if len content <? (if start <? 0 then 0 else start)
                                 then len content
                                 else if start <? 0 then 0 else start
                 | None => 0 end).
  set (end0 := match endOffset with
               | Some e => if len content <? (if e <? 0 then 0 else e)
                           then len content
                           else if e <? 0 then 0 else e
               | None => len content end).
  assert (He : end0 = hi).
  { subst end0 hi. unfold clampOffset.
    destruct endOffset as [e|]; cbn [default from_option id]; [|lia].
    destruct (e <? 0) eqn:E1; destruct (len content <? _) eqn:E2; lia. }
  assert (Hs : (if end0 <? start0 then end0 else start0) = lo).
  { rewrite He. subst start0 lo. unfold clampOffset.
    destruct startOffset as [s0|]; cbn [default from_option id].
    - destruct (s0 <? 0) eqn:E1; destruct (len content <? _) eqn:E2;
        destruct (hi <? _) eqn:E3; lia.
    - destruct (hi <? 0) eqn:E3; lia. }
  rewrite Hs, He.
  assert (Hb : 0 <= lo <= hi /\ hi <= len content).
  { subst lo hi. unfold clampOffset. lia. }
  destruct (slice_defined content lo hi) as [s Hslice]; [lia|lia|].
  rewrite Hslice. exists s. split; reflexivity.
Qed.

(** X17.  On a file that can be read, [MCPRetrieveFileContent] returns for
    every pair of offsets, with a nil error and no panic: negative offsets
    count as 0, offsets past the end as the length, and a start after the end
    as the end, so that the result is the slice of the content between the
    clamped offsets (the empty string when the start is not before the
    end).  Without offsets it is the whole content. *)
Theorem MCPRetrieveFileContent_range
    (os_Stat_IsNotExist : string -> bool) (os_ReadFile : string -> string + string)
    (filePath content : string) (startOffset endOffset : option Z) :
  os_Stat_IsNotExist filePath = false ->
  os_ReadFile filePath = inl content ->
  let hi := clampOffset (default (len content) endOffset) (len content) in
  let lo := Z.min (clampOffset (default 0 startOffset) (len content)) hi in
  exists s,
    MCPRetrieveFileContent os_Stat_IsNotExist os_ReadFile filePath startOffset endOffset
    = Done (s, None) /\
    slice content lo hi = Some s /\ len s = hi - lo /\
    (startOffset = None -> endOffset = None -> s = content).
Proof.
  intros Hstat Hread hi lo.
  destruct (MCPRetrieveFileContent_clamped os_Stat_IsNotExist os_ReadFile filePath
              content startOffset endOffset Hstat Hread) as (s & Hrun & Hslice).
  fold hi in Hslice. fold lo in Hslice.
  exists s. split; [exact Hrun|]. split; [exact Hslice|].
  split; [exact (slice_len _ _ _ _ Hslice)|].
  intros -> ->. subst lo hi. unfold clampOffset in Hslice.
  cbn [default from_option id] in Hslice. pose proof (len_nonneg content).
  replace (Z.max 0 (Z.min (len content) (len content))) with (len content) in Hslice by lia.
  replace (Z.min (Z.max 0 (Z.min 0 (len content))) (len content)) with 0 in Hslice by lia.
  rewrite slice_all in Hslice. now injection Hslice.
Qed.

Lemma MCPRetrieveFileContent_range_witness :
  let hi := clampOffset (default (len "0123456789") (Some 99)) (len "0123456789") in
  let lo := Z.min (clampOffset (default 0 (Some (-3))) (len "0123456789")) hi in
  exists s,
    MCPRetrieveFileContent (fun _ => false) (fun _ => inl "0123456789"%string)
      "/doc.md" (Some (-3)) (Some 99)
    = Done (s, None) /\
    slice "0123456789" lo hi = Some s /\ len s = hi - lo /\
    (Some (-3) = None -> Some 99 = None -> s = "0123456789"%string).
Proof.
  apply (MCPRetrieveFileContent_range (fun _ => false)
           (fun _ => inl "0123456789"%string) "/doc.md" "0123456789"
           (Some (-3)) (Some 99)); reflexivity.
Defined.

(** X18.  The offsets of a chunk retrieve the chunk: when the file
    still holds the content that [ChunkDocument] was given, retrieving
    [StartOffset, EndOffset) of any chunk it returned gives the [Content] of
    that chunk. *)
Theorem MCPRetrieveFileContent_chunk
    (os_Stat_IsNotExist : string -> bool) (os_ReadFile : string -> string + string)
    (fuel : nat) (filePath content fileHash : string)
    (maxTokensPerChunk chunkOverlapPercent : Z) (approxTokensPerChar : float)
    (chunks : list DocumentChunk) (c : DocumentChunk) :
  os_Stat_IsNotExist filePath = false ->
  os_ReadFile filePath = inl content ->
  len content < Int.max_int ->
  ChunkDocument fuel filePath content fileHash maxTokensPerChunk
    chunkOverlapPercent approxTokensPerChar = Done chunks ->
  In c chunks ->
  MCPRetrieveFileContent os_Stat_IsNotExist os_ReadFile (FilePath c)
    (Some (StartOffset c)) (Some (EndOffset c))
  = Done (Content c, None).
Proof.
  intros Hstat Hread Hfit Hrun Hc.
  apply list_elem_of_In, list_elem_of_lookup in Hc as [i Hi].
  assert (R : chunkRecord filePath content fileHash approxTokensPerChar i c).
  { revert Hrun. unfold ChunkDocument.
    destruct (EstimateTokenCount content approxTokensPerChar <=? maxTokensPerChunk).
    - intros [= <-]. destruct i as [|i]; [|discriminate]. injection Hi as <-.
      unfold chunkRecord. cbn.
      rewrite slice_all, GetHeadingContext_at_start by assumption. auto 10.
    - intros Hrun. apply chunkLoop_records in Hrun as [_ Hrec]. now apply Hrec. }
  destruct R as (_ & _ & -> & _ & Hslice & _).
  pose proof (slice_Some _ _ _ _ Hslice) as Hb.
  destruct (MCPRetrieveFileContent_clamped os_Stat_IsNotExist os_ReadFile filePath content
              (Some (StartOffset c)) (Some (EndOffset c)) Hstat Hread)
    as (s & -> & Hs).
  cbn [default from_option id] in Hs. unfold clampOffset in Hs.
  replace (Z.max 0 (Z.min (EndOffset c) (len content))) with (EndOffset c) in Hs by lia.
  replace (Z.min (Z.max 0 (Z.min (StartOffset c) (len content))) (EndOffset c))
    with (StartOffset c) in Hs by lia.
  rewrite Hslice in Hs. now injection Hs as <-.
Qed.

Lemma MCPRetrieveFileContent_chunk_witness :
  exists c,
    MCPRetrieveFileContent (fun _ => false) (fun _ => inl headingAtIdealEnd)
      (FilePath c) (Some (StartOffset c)) (Some (EndOffset c))
    = Done (Content c, None) /\
    StartOffset c = 3 /\ EndOffset c = 8.
Proof.
  eexists. split.
  - eapply (MCPRetrieveFileContent_chunk (fun _ => false)
              (fun _ => inl headingAtIdealEnd) 5 "/doc.md" headingAtIdealEnd "h"
              2 0 0.25).
    + reflexivity.
    + reflexivity.
    + vm_compute. reflexivity.
    + lazy. reflexivity.
    + right. left. reflexivity.
  - split; reflexivity.
Defined.

(** * BatchEmbedChunks *)

Section BatchFacts.

Variable GetEmbedding_call : nat -> string -> Config -> run (list F32.t * error).

Local Abbreviation retry := (retryLoop GetEmbedding_call).
Local Abbreviation embed := (embedBatch GetEmbedding_call).
Local Abbreviation loop := (batchLoop GetEmbedding_call).

(** The retry loop makes at most [attempts] calls, and ends on a nil error
    or after the last of them. *)
Lemma retryLoop_calls attempts : forall calls content config embedding err calls' embedding' err',
  retry attempts calls content config embedding err = Done (calls', embedding', err') ->
  (calls <= calls' <= calls + attempts)%nat /\
  (attempts = O -> err' = err) /\
  (err' = None -> (0 < attempts)%nat ->
   exists n, (calls <= n < calls')%nat /\ calls' = S n /\
             GetEmbedding_call n content config = Done (embedding', None)).
Proof.
  induction attempts as [|attempts IH]; intros calls content config embedding err
    calls' embedding' err'; cbn [retryLoop].
  - intros [= <- <- <-]. split; [lia|]. split; [auto|]. intros _ H. lia.
  - destruct (GetEmbedding_call calls content config) as [[e [msg|]]| |] eqn:E;
      try discriminate.
    + intros H. apply IH in H as (Hc & H0 & Hok). split; [lia|].
      split; [discriminate|]. intros Hnil _.
      destruct attempts as [|attempts].
      * specialize (H0 eq_refl). congruence.
      * destruct (Hok Hnil ltac:(lia)) as (n & Hn & Hs & Hcall).
        exists n. split; [lia|]. auto.
    + intros [= <- <- <-]. split; [lia|]. split; [discriminate|].
      intros _ _. exists calls. split; [lia|]. auto.
Qed.

Lemma embedBatch_app maxRetries config a : forall b calls embeddings,
  embed maxRetries config (a ++ b) calls embeddings
  = match embed maxRetries config a calls embeddings with
    | Done (calls', Some embeddings', None) =>
        embed maxRetries config b calls' embeddings'
    | other => other
    end.
Proof.
  induction a as [|chunk a IH]; intros b calls embeddings; cbn [app embedBatch].
  - reflexivity.
  - destruct (retry maxRetries calls (Content chunk) config [] None)
      as [[[calls' embedding] [msg|]]| |]; try reflexivity.
    apply IH.
Qed.

(** What a batch leaves behind: all of its chunks in the map, or no map and
    an error. *)
Lemma embedBatch_result maxRetries config batch : forall calls embeddings calls' m e,
  embed maxRetries config batch calls embeddings = Done (calls', m, e) ->
  (calls <= calls' <= calls + maxRetries * length batch)%nat /\
  ((exists embeddings', m = Some embeddings' /\ e = None /\
      (forall id, is_Some (embeddings !! id) -> is_Some (embeddings' !! id)) /\
      (forall c, In c batch -> is_Some (embeddings' !! ID c))) \/
   (m = None /\ exists msg, e = Some msg)).
Proof.
  induction batch as [|chunk rest IH]; intros calls embeddings calls' m e;
    cbn [embedBatch length].
  - intros [= <- <- <-]. split; [lia|]. left. exists embeddings.
    repeat split; auto. intros c [].
  - destruct (retry maxRetries calls (Content chunk) config [] None)
      as [[[calls1 embedding] [msg|]]| |] eqn:R; try discriminate.
    + intros [= <- <- <-]. apply retryLoop_calls in R as (Hc & _).
      split; [lia|]. right. eauto.
    + intros H. apply retryLoop_calls in R as (Hc & _).
      apply IH in H as (Hc' & H). split; [lia|].
      destruct H as [(emb' & -> & -> & Hkeep & Hall)|H]; [|right; exact H].
      left. exists emb'. repeat split; auto.
      * intros id Hid. apply Hkeep.
        destruct (decide (ID chunk = id)) as [->|Hne].
        -- rewrite lookup_insert_eq. eauto.
        -- now rewrite lookup_insert_ne.
      * intros c [<-|Hc0]; [|auto]. apply Hkeep. rewrite lookup_insert_eq. eauto.
Qed.

(** The batches are the chunks in order: with fuel for every batch the
    loop over the batches is the loop over the chunks from [i] on. *)
Lemma batchLoop_embedBatch maxRetries config chunks fuel : forall i calls embeddings,
  0 <= i -> Z.of_nat (length chunks) + 10 <= Int.max_int ->
  (Z.to_nat (Z.of_nat (length chunks) - i) < fuel)%nat ->
  loop fuel maxRetries config chunks i calls embeddings
  = embed maxRetries config (drop (Z.to_nat i) chunks) calls embeddings.
Proof.
  induction fuel as [|fuel IH]; intros i calls embeddings Hi Hfit Hfuel; [lia|].
  cbn [batchLoop].
  destruct (i <? Z.of_nat (length chunks)) eqn:E; cbn [negb].
  2:{ rewrite drop_ge by lia. reflexivity. }
  cbv zeta. rewrite (add_id i 10) by int_range.
  set (end_ := if Z.of_nat (length chunks) <? i + 10
               then Z.of_nat (length chunks) else i + 10).
  assert (He : i < end_ <= Z.of_nat (length chunks) /\ end_ <= i + 10 /\
               (end_ < i + 10 -> end_ = Z.of_nat (length chunks))).
  { subst end_. destruct (Z.of_nat (length chunks) <? i + 10) eqn:E'; lia. }
  assert (Eb : ((0 <=? i) && (i <=? end_)) = true) by lia. rewrite Eb.
  rewrite <- (take_drop (Z.to_nat (end_ - i)) (drop (Z.to_nat i) chunks)) at 2.
  rewrite embedBatch_app.
  destruct (embed maxRetries config
              (take (Z.to_nat (end_ - i)) (drop (Z.to_nat i) chunks)) calls embeddings)
    as [[[calls' [emb'|]] [msg|]]| |]; try reflexivity.
  rewrite IH by lia. f_equal. rewrite drop_drop.
  destruct (Z_lt_le_dec end_ (i + 10)) as [Hlt|Hge].
  - rewrite !drop_ge by lia. reflexivity.
  - f_equal. lia.
Qed.

End BatchFacts.

(** X20.  Whatever [GetEmbedding] answers, [BatchEmbedChunks] calls it
    at most three times for each chunk (once in local mode) and returns
    either a map that holds an embedding for the [ID] of every chunk, with a
    nil error, or a nil map with an error: never a part of the map. *)
Theorem BatchEmbedChunks_all_or_nothing
    (GetEmbedding_call : nat -> string -> Config -> run (list F32.t * error))
    (fuel : nat) (chunks : list DocumentChunk) (config : Config)
    (calls : nat) (m : option (gmap string (list F32.t))) (e : error) :
  Z.of_nat (length chunks) + 10 <= Int.max_int -> (length chunks < fuel)%nat ->
  BatchEmbedChunks GetEmbedding_call fuel chunks config = Done (calls, m, e) ->
  (calls <= 3 * length chunks)%nat /\
  (EmbeddingMode config = EmbeddingModeLocal -> (calls <= length chunks)%nat) /\
  ((exists embeddings, m = Some embeddings /\ e = None /\
      forall c, In c chunks -> is_Some (embeddings !! ID c)) \/
   (m = None /\ exists msg, e = Some msg)).
Proof.
  intros Hfit Hfuel. unfold BatchEmbedChunks. cbv zeta.
  rewrite batchLoop_embedBatch by (try lia; exact Hfit).
  change (drop (Z.to_nat 0) chunks) with chunks.
  intros H. apply embedBatch_result in H as (Hc & H).
  split; [|split].
  - destruct (String.eqb _ _); lia.
  - intros Hmode. rewrite Hmode in Hc. cbn in Hc. lia.
  - destruct H as [(emb & -> & -> & _ & Hall)|H]; [left; eauto|right; exact H].
Qed.

Lemma BatchEmbedChunks_all_or_nothing_witness :
  (3 <= 3 * length sampleChunks)%nat /\
  (EmbeddingMode ollamaConfig = EmbeddingModeLocal -> (3 <= length sampleChunks)%nat) /\
  ((exists embeddings, @None (gmap string (list F32.t)) = Some embeddings /\
      Some ("failed to get embedding for chunk h_0 after 3 retries: connection refused"%string)
      = None /\
      forall c, In c sampleChunks -> is_Some (embeddings !! ID c)) \/
   (@None (gmap string (list F32.t)) = None /\
    exists msg,
      Some ("failed to get embedding for chunk h_0 after 3 retries: connection refused"%string)
      = Some msg)).
Proof.
  apply (BatchEmbedChunks_all_or_nothing failingCall 3 sampleChunks ollamaConfig).
  - vm_compute. discriminate.
  - vm_compute. lia.
  - vm_compute. reflexivity.
Defined.

Section BatchLocal.

Context {tables : UnicodeTables}.
Variable math_Log : float -> float.
Variable getOllamaEmbedding_returns : string -> Config -> run (list F32.t * error) -> Prop.
Variable GetEmbedding_call : nat -> string -> Config -> run (list F32.t * error).
Variable config : Config.

Hypothesis Hmode : EmbeddingMode config = EmbeddingModeLocal.
Hypothesis Hcalls : forall n text,
  GetEmbedding_returns math_Log getOllamaEmbedding_returns text config
    (GetEmbedding_call n text config).

(** In local mode every call returns a vector of 384 entries and no error. *)
Lemma local_call n text :
  exists v, GetEmbedding_call n text config = Done (v, None) /\
            GetLocalEmbedding_returns math_Log text (Done (v, None)) /\
            Z.of_nat (length v) = LocalEmbeddingDimension.
Proof.
  pose proof (Hcalls n text) as H. unfold GetEmbedding_returns in H.
  rewrite Hmode in H. change (String.eqb EmbeddingModeLocal EmbeddingModeLocal) with true in H.
  cbn iota in H.
  assert (D : exists v, GetEmbedding_call n text config = Done (v, None) /\
                        Z.of_nat (length v) = LocalEmbeddingDimension).
  { revert H. unfold GetLocalEmbedding_returns. cbv zeta.
    destruct (length (tokenize text) =? 0)%nat.
    - intros ->. eexists. split; [reflexivity|]. rewrite length_replicate. reflexivity.
    - intros (entries & _ & ->). apply embedInOrder_Done. }
  destruct D as (v & E & L). exists v. split; [exact E|]. split; [|exact L].
  rewrite <- E. exact H.
Qed.

Lemma embedBatch_local batch : forall calls embeddings,
  NoDup (map ID batch) ->
  exists embeddings',
    embedBatch GetEmbedding_call 1 config batch calls embeddings
    = Done ((calls + length batch)%nat, Some embeddings', None) /\
    (forall (k : nat) c, batch !! k = Some c ->
       exists v, GetEmbedding_call (calls + k) (Content c) config = Done (v, None) /\
                 embeddings' !! ID c = Some v) /\
    (forall id, ~ In id (map ID batch) -> embeddings' !! id = embeddings !! id).
Proof.
  induction batch as [|chunk rest IH]; intros calls embeddings Hnd;
    cbn [embedBatch map length].
  - exists embeddings. rewrite Nat.add_0_r. repeat split; auto.
    intros k c Hk. discriminate.
  - cbn [map] in Hnd. apply NoDup_cons in Hnd as [Hnotin Hnd].
    destruct (local_call calls (Content chunk)) as (v & Ev & _).
    cbn [retryLoop]. rewrite Ev.
    destruct (IH (S calls) (<[ID chunk := v]> embeddings) Hnd)
      as (emb' & Hrun & Hin & Hout).
    exists emb'. split; [rewrite Hrun; do 3 f_equal; lia|]. split.
    + intros [|k] c Hk.
      * injection Hk as <-. exists v. rewrite Nat.add_0_r. split; [exact Ev|].
        rewrite Hout; [apply lookup_insert_eq|].
        intros Hc. apply Hnotin. now apply list_elem_of_In.
      * destruct (Hin k c Hk) as (v' & Ev' & Hv').
        exists v'. split; [|exact Hv'].
        replace (calls + S k)%nat with (S calls + k)%nat by lia. exact Ev'.
    + intros id Hid. rewrite Hout by (intros Hc; apply Hid; now right).
      apply lookup_insert_ne. intros E. apply Hid. now left.
Qed.

End BatchLocal.

(** X21.  In local mode [BatchEmbedChunks] cannot fail: it calls
    [GetEmbedding] once for each chunk, in order, and returns a nil error
    and a map that holds, under the [ID] of each chunk (the [ID]s being
    distinct, as [ChunkDocument] gives them), the vector of 384 entries that
    its call returned, and nothing else. *)
Theorem BatchEmbedChunks_local {tables : UnicodeTables}
    (math_Log : float -> float)
    (getOllamaEmbedding_returns : string -> Config -> run (list F32.t * error) -> Prop)
    (GetEmbedding_call : nat -> string -> Config -> run (list F32.t * error))
    (fuel : nat) (chunks : list DocumentChunk) (config : Config) :
  EmbeddingMode config = EmbeddingModeLocal ->
  (forall n text,
     GetEmbedding_returns math_Log getOllamaEmbedding_returns text config
       (GetEmbedding_call n text config)) ->
  NoDup (map ID chunks) ->
  Z.of_nat (length chunks) + 10 <= Int.max_int -> (length chunks < fuel)%nat ->
  exists embeddings,
    BatchEmbedChunks GetEmbedding_call fuel chunks config
    = Done (length chunks, Some embeddings, None) /\
    (forall (k : nat) c, chunks !! k = Some c ->
       exists v, GetEmbedding_call k (Content c) config = Done (v, None) /\
                 embeddings !! ID c = Some v /\
                 Z.of_nat (length v) = LocalEmbeddingDimension) /\
    (forall id, is_Some (embeddings !! id) -> In id (map ID chunks)).
Proof.
  intros Hmode Hcalls Hnd Hfit Hfuel. unfold BatchEmbedChunks. cbv zeta.
  rewrite Hmode. change (String.eqb EmbeddingModeLocal EmbeddingModeLocal) with true.
  cbn iota. rewrite batchLoop_embedBatch by (try lia; exact Hfit).
  change (drop (Z.to_nat 0) chunks) with chunks.
  destruct (embedBatch_local math_Log getOllamaEmbedding_returns GetEmbedding_call
              config Hmode Hcalls chunks 0%nat ∅ Hnd) as (emb & Hrun & Hin & Hout).
  exists emb. split; [exact Hrun|]. split.
  - intros k c Hk. destruct (Hin k c Hk) as (v & Ev & Hv). cbn [Nat.add] in Ev.
    exists v. split; [exact Ev|]. split; [exact Hv|].
    destruct (local_call math_Log getOllamaEmbedding_returns GetEmbedding_call
                config Hmode Hcalls k (Content c)) as (v' & Ev' & _ & L).
    rewrite Ev in Ev'. injection Ev' as <-. exact L.
  - intros id [v Hv].
    destruct (in_dec string_dec id (map ID chunks)) as [Hi|Hni]; [exact Hi|].
    rewrite (Hout id Hni), lookup_empty in Hv. discriminate.
Qed.

Lemma localEmbeddingCall_returns (math_Log : float -> float)
    (getOllamaEmbedding_returns : string -> Config -> run (list F32.t * error) -> Prop)
    n text :
  @GetEmbedding_returns asciiTables math_Log getOllamaEmbedding_returns text localConfig
    (localEmbeddingCall math_Log n text localConfig).
Proof.
  unfold GetEmbedding_returns, localEmbeddingCall, GetLocalEmbedding_returns.
  change (String.eqb (EmbeddingMode localConfig) EmbeddingModeLocal) with true.
  cbv zeta iota.
  destruct (length (tokenize text) =? 0)%nat; [reflexivity|].
  eexists. split; reflexivity.
Qed.

Lemma BatchEmbedChunks_local_witness :
  exists embeddings,
    BatchEmbedChunks (localEmbeddingCall logTable) 3 sampleChunks localConfig
    = Done (length sampleChunks, Some embeddings, None) /\
    (forall (k : nat) c, sampleChunks !! k = Some c ->
       exists v, localEmbeddingCall logTable k (Content c) localConfig = Done (v, None) /\
                 embeddings !! ID c = Some v /\
                 Z.of_nat (length v) = LocalEmbeddingDimension) /\
    (forall id, is_Some (embeddings !! id) -> In id (map ID sampleChunks)).
Proof.
  apply (@BatchEmbedChunks_local asciiTables logTable (fun _ _ _ => False)
           (localEmbeddingCall logTable) 3 sampleChunks localConfig).
  - reflexivity.
  - apply localEmbeddingCall_returns.
  - apply (bool_decide_unpack _). vm_compute. exact I.
  - vm_compute. discriminate.
  - vm_compute. lia.
Defined.

(** ** Overlap of consecutive chunks *)

Lemma overlapAtMost_snoc d chunks k :
  overlapAtMost d chunks ->
  (forall c, last chunks = Some c -> EndOffset c - d <= StartOffset k) ->
  overlapAtMost d (chunks ++ [k]).
Proof.
  intros Hst Hlast i ci cj Hi Hj.
  apply lookup_app_Some in Hj as [Hj|[Hge Hj]].
  - apply (Hst i ci cj); auto.
    apply lookup_app_Some in Hi as [Hi|[Hge _]]; auto.
    apply lookup_lt_Some in Hj. lia.
  - apply list_lookup_singleton_Some in Hj as [Hj0 <-].
    apply Hlast. apply lookup_app_Some in Hi as [Hi|[Hge' Hi]].
    + rewrite last_lookup. replace (Nat.pred (length chunks)) with i by lia. exact Hi.
    + apply list_lookup_singleton_Some in Hi as [Hi0 _]. lia.
Qed.

(** X22.  On the chunking path, with a positive [maxChunkChars] and an
    overlap that is not negative, the loop returns and a chunk starts at most
    [overlapChars] bytes before the end of the chunk before it: consecutive
    chunks share at most [overlapChars] bytes. *)
Theorem ChunkDocument_overlap (filePath content fileHash : string)
    (maxTokensPerChunk chunkOverlapPercent : Z) (approxTokensPerChar : float) :
  maxTokensPerChunk < EstimateTokenCount content approxTokensPerChar ->
  0 < maxChunkCharsOf maxTokensPerChunk approxTokensPerChar ->
  len content + maxChunkCharsOf maxTokensPerChunk approxTokensPerChar <= Int.max_int ->
  0 <= overlapCharsOf (maxChunkCharsOf maxTokensPerChunk approxTokensPerChar)
         chunkOverlapPercent ->
  exists chunks,
    ChunkDocument_returns filePath content fileHash maxTokensPerChunk
      chunkOverlapPercent approxTokensPerChar chunks /\
    overlapAtMost
      (overlapCharsOf (maxChunkCharsOf maxTokensPerChunk approxTokensPerChar)
         chunkOverlapPercent)
      chunks.
Proof.
  intros Hest Hmax Hfit Hov.
  assert (E : (EstimateTokenCount content approxTokensPerChar <=? maxTokensPerChunk) = false)
    by lia.
  set (maxChunkChars := maxChunkCharsOf maxTokensPerChunk approxTokensPerChar) in *.
  set (overlapChars := overlapCharsOf maxChunkChars chunkOverlapPercent) in *.
  assert (Hov' : overlapChars <= Int.max_int) by apply to_int_is_int.
  destruct (chunkLoop_terminates filePath content fileHash approxTokensPerChar
              (ExtractHeadings content) maxChunkChars overlapChars
              Hmax Hfit (S (Z.to_nat (len content) + 1001)) 0 0 [])
    as [res Hres]; try lia.
  exists res. split.
  { exists (S (Z.to_nat (len content) + 1001)). unfold ChunkDocument. now rewrite E. }
  revert Hres.
  apply chunkLoop_invariant with
    (Inv := fun s (_ : Z) c =>
              0 <= s /\ overlapAtMost overlapChars c /\
              (forall k, last c = Some k -> EndOffset k - overlapChars <= s))
    (Post := overlapAtMost overlapChars).
  - intros s i c c' (Hs & Hst & Hl) H.
    apply chunkStep_Break in H as [[-> _]|(Hlt & _ & k & _ & _ & -> & _)];
      [assumption|].
    apply overlapAtMost_snoc; auto.
  - intros s i c s' i' c' (Hs & Hst & Hl) H.
    apply chunkStep_Continue in H as (Hlt & _ & k & _ & H).
    pose proof (chunkEnd_bounds content (ExtractHeadings content) maxChunkChars
                  Hmax Hfit s ltac:(lia)) as Hbnd.
    destruct H as [(_ & -> & _ & ->)|(_ & _ & -> & _ & _ & ->)].
    + split; [lia|]. split; [auto|].
      intros k' Hk'. specialize (Hl k' Hk'). lia.
    + split.
      { pose proof (nextStartAfter_floor content maxChunkChars overlapChars
                      Hmax Hfit s
                      (chunkEnd content (ExtractHeadings content) maxChunkChars s)
                      ltac:(lia)). lia. }
      split; [apply overlapAtMost_snoc; auto|].
      intros k' Hk'. rewrite last_snoc in Hk'. injection Hk' as <-.
      cbn [EndOffset mkChunk]. unfold nextStartAfter.
      rewrite add_id, sub_id by int_range.
      destruct (_ - _ <=? _) eqn:E'; lia.
  - split; [lia|]. split; [intros i ci cj Hi; discriminate|].
    intros k Hk. discriminate.
Qed.

Lemma ChunkDocument_overlap_witness :
  exists chunks,
    ChunkDocument_returns "/test/large.md" largeDocument "def456" 4000 15 0.25 chunks /\
    overlapAtMost (overlapCharsOf (maxChunkCharsOf 4000 0.25) 15) chunks.
Proof.
  apply (ChunkDocument_overlap "/test/large.md" largeDocument "def456" 4000 15 0.25).
  - vm_compute. reflexivity.
  - vm_compute. reflexivity.
  - vm_compute. discriminate.
  - vm_compute. discriminate.
Defined.
